(** * Event-registration information extraction: a shallow embedding

    The development follows the Python sources module by module:
    - [data_model.py]               -> [Module DataModel]
    - [Name_Entity_Recogniztion.py] -> [Module Extractor]
    - [info_processing.py]          -> [Module Processor]
    - [text_process.py]             -> [Module Preprocessor]
    - [extraction_engine.py]        -> [Module Engine], [Module Batch]
    - [template_generation.py]      -> [Module Templates]
    - [extraction_service.py]       -> [Module Service]

    Conventions.
    - Python [str] values are lists of characters ([str := list ascii]).
      The characters are 7-bit ASCII; the upper 128 values of [ascii] are
      treated as uncased symbols that are neither whitespace, digits nor
      word characters.
    - Python [int] is [Z].
    - An exception is a value of [exn]; code that may raise returns
      [result A := exn + A] and [try/except] is a [match] on it.
    - Definitions keep the names of the Python functions they embed. *)

From Stdlib Require Import List String Ascii Bool Arith ZArith NArith Lia.
From Stdlib Require Import QArith Sorted.
Import ListNotations.

Set Implicit Arguments.
Local Open Scope Z_scope.

(* ================================================================== *)
(** * Python strings *)
(* ================================================================== *)

Module PyStr.

Definition str := list ascii.

(** [L "abc"] is the Python literal ["abc"]. *)
Definition L (s : string) : str := list_ascii_of_string s.

Definition code (c : ascii) : N := N_of_ascii c.

Definition in_range (lo hi : N) (c : ascii) : bool :=
  (N.leb lo (code c) && N.leb (code c) hi)%bool.

(** [str.isspace] on one ASCII character:
    TAB LF VT FF CR, FS GS RS US and SPACE. *)
Definition is_space (c : ascii) : bool :=
  in_range 9 13 c || in_range 28 32 c.

Definition is_upper (c : ascii) : bool := in_range 65 90 c.
Definition is_lower (c : ascii) : bool := in_range 97 122 c.
Definition is_alpha (c : ascii) : bool := is_upper c || is_lower c.
Definition is_digit (c : ascii) : bool := in_range 48 57 c.
(** [\w] for ASCII text: letters, digits and underscore. *)
Definition is_word (c : ascii) : bool :=
  is_alpha c || is_digit c || N.eqb (code c) 95.

Definition to_lower (c : ascii) : ascii :=
  if is_upper c then ascii_of_N (code c + 32) else c.
Definition to_upper (c : ascii) : ascii :=
  if is_lower c then ascii_of_N (code c - 32) else c.

Definition lower (s : str) : str := map to_lower s.
Definition upper (s : str) : str := map to_upper s.

(** [str.capitalize] on ASCII text: first character upper-cased, the rest
    lower-cased.  (Beyond ASCII Python title-cases the first character,
    which can give more than one character; see the conventions.) *)
Definition capitalize (s : str) : str :=
  match s with
  | [] => []
  | c :: r => to_upper c :: lower r
  end.

Definition ascii_eqb (a b : ascii) : bool := Ascii.eqb a b.

Fixpoint str_eqb (a b : str) : bool :=
  match a, b with
  | [], [] => true
  | x :: a', y :: b' => Ascii.eqb x y && str_eqb a' b'
  | _, _ => false
  end.

Fixpoint lstrip (s : str) : str :=
  match s with
  | c :: r => if is_space c then lstrip r else s
  | [] => []
  end.
Definition rstrip (s : str) : str := rev (lstrip (rev s)).
Definition strip (s : str) : str := rstrip (lstrip s).

(** Python truthiness of a [str]. *)
Definition truthy (s : str) : bool :=
  match s with [] => false | _ => true end.

(** [len(s)] as a Python int. *)
Definition len (s : str) : Z := Z.of_nat (List.length s).

(** [s.split()]: the maximal runs of characters that are not whitespace.
    [acc] holds the current run, reversed. *)
Fixpoint split_aux (s : str) (acc : str) : list str :=
  match s with
  | [] => match acc with [] => [] | _ => [rev acc] end
  | c :: r =>
      if is_space c
      then match acc with
           | [] => split_aux r []
           | _ => rev acc :: split_aux r []
           end
      else split_aux r (c :: acc)
  end.
Definition split (s : str) : list str := split_aux s [].

(** [s.split(sep)] for a one-character separator: empty fields are kept. *)
Fixpoint split_on_aux (sep : ascii) (s : str) (acc : str) : list str :=
  match s with
  | [] => [rev acc]
  | c :: r =>
      if ascii_eqb c sep
      then rev acc :: split_on_aux sep r []
      else split_on_aux sep r (c :: acc)
  end.
Definition split_on (sep : ascii) (s : str) : list str :=
  split_on_aux sep s [].

(** [sep.join(parts)]. *)
Fixpoint join (sep : str) (parts : list str) : str :=
  match parts with
  | [] => []
  | [p] => p
  | p :: t => p ++ sep ++ join sep t
  end.

Fixpoint starts_with (p s : str) : bool :=
  match p, s with
  | [], _ => true
  | x :: p', y :: s' => ascii_eqb x y && starts_with p' s'
  | _ :: _, [] => false
  end.

(** [sub in s]. *)
Fixpoint contains (sub s : str) : bool :=
  starts_with sub s
  || match s with
     | [] => false
     | _ :: t => contains sub t
     end.

(** [s.replace(old, new)] for a non-empty [old]: occurrences are
    replaced from left to right and do not overlap. *)
Fixpoint replace_from (fuel : nat) (old new s : str) : str :=
  match fuel with
  | O => s
  | S f =>
      match s with
      | [] => []
      | c :: t =>
          if starts_with old s
          then new ++ replace_from f old new (skipn (List.length old) s)
          else c :: replace_from f old new t
      end
  end.
Definition replace (old new s : str) : str :=
  match old with
  | [] => s
  | _ => replace_from (S (List.length s)) old new s
  end.

(** [c in s] for one character. *)
Definition has_char (c : ascii) (s : str) : bool := existsb (ascii_eqb c) s.

(** [x in collection] for a collection of strings. *)
Definition str_in (x : str) (l : list str) : bool := existsb (str_eqb x) l.

(** [s.isalpha()], [s.islower()]; [c.isupper()] for one character is
    [is_upper]. *)
Definition isalpha (s : str) : bool := truthy s && forallb is_alpha s.
Definition islower (s : str) : bool :=
  existsb is_lower s && forallb (fun c => negb (is_upper c)) s.

(** [s[a:b]] for [0 <= a]. *)
Definition slice (s : str) (a b : Z) : str :=
  firstn (Z.to_nat (b - a)) (skipn (Z.to_nat a) s).

(** [str(n)] for a non-negative int: [fuel] bounds the number of digits. *)
Fixpoint digits (fuel : nat) (n : N) (acc : str) : str :=
  match fuel with
  | O => acc
  | S f =>
      let d := ascii_of_N (48 + N.modulo n 10) in
      if N.ltb n 10 then d :: acc else digits f (N.div n 10) (d :: acc)
  end.
Definition str_of_int (z : Z) : str :=
  let n := Z.to_N z in digits (S (N.to_nat (N.log2 n))) n [].

End PyStr.
Import PyStr.

(* ================================================================== *)
(** * Exceptions *)
(* ================================================================== *)

Inductive exn : Type :=
| ValueError (msg : string)
| AttributeError (msg : string).

Definition result (A : Type) : Type := (exn + A)%type.
Definition Ok {A : Type} (a : A) : result A := inr a.
Definition Raise {A : Type} (e : exn) : result A := inl e.

Definition bind {A B : Type} (m : result A) (f : A -> result B) : result B :=
  match m with
  | inl e => inl e
  | inr a => f a
  end.

Notation "x <- m ;; k" := (bind m (fun x => k))
  (at level 61, m at next level, right associativity).

(** [str(exc)] for the exceptions above. *)
Definition exn_message (e : exn) : string :=
  match e with
  | ValueError m => m
  | AttributeError m => m
  end.

(* ================================================================== *)
(** * Python's [re] module

    A backtracking matcher for the fragment of the regular-expression
    language the sources use: literals, [.], character classes,
    [\s \d \w \b ^ $], groups, alternation and greedy or lazy bounded
    repetition, with optional [re.IGNORECASE].  Alternatives are tried
    left to right, a greedy repetition tries one more iteration before
    it tries to stop and a lazy one the other way round, so the first
    success is the match Python reports.  Patterns are parsed from
    their source text by [compile]. *)
(* ================================================================== *)

Module Re.

Inductive citem : Type :=
| CRange (lo hi : ascii)
| CSpace
| CDigit
| CWord.

Inductive regex : Type :=
| Eps
| Chr (c : ascii)
| Any
| Cls (neg : bool) (items : list citem)
| Cat (a b : regex)
| Alt (a b : regex)
| Rep (lo : nat) (hi : option nat) (greedy : bool) (a : regex)
| Grp (n : nat) (a : regex)
| WordB
| Bol
| Eol.

(** ** Matching *)

Record mstate : Type := mkState {
  pos : nat;                         (* index of the next character *)
  prev : option ascii;               (* character before [pos] *)
  rest : str;                        (* text from [pos] on *)
  caps : list (nat * (nat * nat))    (* group spans, latest first *)
}.

Definition advance (st : mstate) (x : ascii) (r : str) : mstate :=
  mkState (S (pos st)) (Some x) r (caps st).

Definition set_cap (n s e : nat) (st : mstate) : mstate :=
  mkState (pos st) (prev st) (rest st) ((n, (s, e)) :: caps st).

Definition item_has (i : citem) (x : ascii) : bool :=
  match i with
  | CRange lo hi => in_range (code lo) (code hi) x
  | CSpace => is_space x
  | CDigit => is_digit x
  | CWord => is_word x
  end.

Definition set_has (items : list citem) (x : ascii) : bool :=
  existsb (fun i => item_has i x) items.

Definition chr_match (ic : bool) (c x : ascii) : bool :=
  ascii_eqb c x || (ic && ascii_eqb (to_lower c) (to_lower x)).

Definition cls_match (ic : bool) (neg : bool) (items : list citem)
    (x : ascii) : bool :=
  xorb neg
    (set_has items x
     || (ic && (set_has items (to_lower x) || set_has items (to_upper x)))).

Definition newline : ascii := "010"%char.

Definition word_opt (o : option ascii) : bool :=
  match o with
  | Some c => is_word c
  | None => false
  end.

Definition at_boundary (st : mstate) : bool :=
  xorb (word_opt (prev st)) (word_opt (hd_error (rest st))).

Definition reached (i : nat) (hi : option nat) : bool :=
  match hi with
  | Some h => Nat.leb h i
  | None => false
  end.

(** Bounded repetition of [body]: [i] iterations are done.  Below [lo]
    another iteration is mandatory; from [lo] on an iteration must
    consume input, and a greedy repetition prefers it to stopping.
    [fuel] bounds the number of iterations. *)
Fixpoint rep_loop (body : mstate -> (mstate -> option mstate) -> option mstate)
    (lo : nat) (hi : option nat) (greedy : bool)
    (k : mstate -> option mstate) (fuel i : nat) (st : mstate) {struct fuel}
    : option mstate :=
  match fuel with
  | O => None
  | S f =>
      let more (_ : unit) :=
        body st (fun st' =>
          if Nat.ltb i lo || Nat.ltb (pos st) (pos st')
          then rep_loop body lo hi greedy k f (S i) st' else None) in
      if Nat.ltb i lo then more tt
      else if reached i hi then k st
      else if greedy then
        match more tt with
        | Some res => Some res
        | None => k st
        end
      else
        match k st with
        | Some res => Some res
        | None => more tt
        end
  end.

(** [m ic r st k]: match [r] at [st] and hand the state after the match
    to the continuation [k]; [None] makes the matcher backtrack. *)
Fixpoint m (ic : bool) (r : regex) (st : mstate)
    (k : mstate -> option mstate) {struct r} : option mstate :=
  match r with
  | Eps => k st
  | Chr c =>
      match rest st with
      | x :: t => if chr_match ic c x then k (advance st x t) else None
      | [] => None
      end
  | Any =>
      match rest st with
      | x :: t => if ascii_eqb x newline then None else k (advance st x t)
      | [] => None
      end
  | Cls neg items =>
      match rest st with
      | x :: t => if cls_match ic neg items x then k (advance st x t) else None
      | [] => None
      end
  | Cat a b => m ic a st (fun st' => m ic b st' k)
  | Alt a b =>
      match m ic a st k with
      | Some res => Some res
      | None => m ic b st k
      end
  | Rep lo hi greedy a =>
      rep_loop (m ic a) lo hi greedy k
        (lo + List.length (rest st) + 1)%nat O st
  | Grp n a => m ic a st (fun st' => k (set_cap n (pos st) (pos st') st'))
  | WordB => if at_boundary st then k st else None
  | Bol => if Nat.eqb (pos st) 0 then k st else None
  | Eol =>
      match rest st with
      | [] => k st
      | [x] => if ascii_eqb x newline then k st else None
      | _ => None
      end
  end.

(** A match object: span of the whole match and of its groups. *)
Record rmatch : Type := mkMatch {
  m_start : nat;
  m_end : nat;
  m_caps : list (nat * (nat * nat))
}.

Definition run (ic : bool) (r : regex) (st : mstate) : option mstate :=
  m ic r (mkState (pos st) (prev st) (rest st) []) Some.

(** Leftmost match at or after the position of [st]; also returns the
    state at the end of the match. *)
Fixpoint scan (ic : bool) (r : regex) (p : nat) (pv : option ascii)
    (s : str) {struct s} : option (rmatch * mstate) :=
  match run ic r (mkState p pv s []) with
  | Some st' => Some (mkMatch p (pos st') (caps st'), st')
  | None =>
      match s with
      | [] => None
      | x :: t => scan ic r (S p) (Some x) t
      end
  end.

Definition search (ic : bool) (r : regex) (s : str) : option rmatch :=
  option_map fst (scan ic r O None s).

(** [re.match]: anchored at the start of the text. *)
Definition match_ (ic : bool) (r : regex) (s : str) : option rmatch :=
  match run ic r (mkState O None s []) with
  | Some st' => Some (mkMatch O (pos st') (caps st'))
  | None => None
  end.

(** [re.finditer].  After a match the scan resumes at its end; after an
    empty match it resumes one character further on (none of the
    patterns of the sources matches the empty string). *)
Fixpoint finditer_from (fuel : nat) (ic : bool) (r : regex) (p : nat)
    (pv : option ascii) (s : str) : list rmatch :=
  match fuel with
  | O => []
  | S f =>
      match scan ic r p pv s with
      | None => []
      | Some (mt, st') =>
          if Nat.ltb (m_start mt) (m_end mt)
          then mt :: finditer_from f ic r (pos st') (prev st') (rest st')
          else
            match rest st' with
            | [] => [mt]
            | x :: t => mt :: finditer_from f ic r (S (pos st')) (Some x) t
            end
      end
  end.

Definition finditer (ic : bool) (r : regex) (s : str) : list rmatch :=
  finditer_from (S (List.length s)) ic r O None s.

Definition slice (s : str) (a b : nat) : str := firstn (b - a) (skipn a s).

Fixpoint lookup_cap (n : nat) (cs : list (nat * (nat * nat)))
    : option (nat * nat) :=
  match cs with
  | [] => None
  | (k, se) :: t => if Nat.eqb k n then Some se else lookup_cap n t
  end.

(** [match.span(n)]; [None] when the group did not take part. *)
Definition span (n : nat) (mt : rmatch) : option (nat * nat) :=
  match n with
  | O => Some (m_start mt, m_end mt)
  | _ => lookup_cap n (m_caps mt)
  end.

(** [match.group(n)]. *)
Definition group (n : nat) (mt : rmatch) (s : str) : option str :=
  option_map (fun se => slice s (fst se) (snd se)) (span n mt).

(** ** Replacement templates: [\1] .. [\9] stand for groups. *)

Fixpoint expand (tpl : str) (mt : rmatch) (s : str) : str :=
  match tpl with
  | [] => []
  | c :: t =>
      if ascii_eqb c "\"%char then
        match t with
        | d :: t' =>
            if is_digit d then
              match group (N.to_nat (code d - 48)) mt s with
              | Some g => g ++ expand t' mt s
              | None => expand t' mt s
              end
            else c :: expand t mt s
        | [] => [c]
        end
      else c :: expand t mt s
  end.

Fixpoint stitch (tpl : str) (s : str) (from : nat) (ms : list rmatch) : str :=
  match ms with
  | [] => skipn from s
  | mt :: t =>
      slice s from (m_start mt) ++ expand tpl mt s ++ stitch tpl s (m_end mt) t
  end.

(** [re.sub(pattern, repl, s)]. *)
Definition sub (ic : bool) (r : regex) (tpl : str) (s : str) : str :=
  stitch tpl s O (finditer ic r s).

(** ** Static bounds

    [minlen r] is a lower bound on the length of a match of [r];
    [sets n r] tells that every match of [r] records a span for group
    [n]; [grp_ok n len r] tells that every span [r] can record for
    group [n] is at least [len] long. *)

Fixpoint minlen (r : regex) : nat :=
  match r with
  | Chr _ | Any | Cls _ _ => 1
  | Cat a b => minlen a + minlen b
  | Alt a b => Nat.min (minlen a) (minlen b)
  | Rep lo _ _ a => lo * minlen a
  | Grp _ a => minlen a
  | Eps | WordB | Bol | Eol => 0
  end.

Fixpoint sets (n : nat) (r : regex) : bool :=
  match r with
  | Cat a b => sets n a || sets n b
  | Alt a b => sets n a && sets n b
  | Rep lo _ _ a => Nat.ltb 0 lo && sets n a
  | Grp k a => Nat.eqb k n || sets n a
  | _ => false
  end.

Fixpoint grp_ok (n len : nat) (r : regex) : bool :=
  match r with
  | Cat a b | Alt a b => grp_ok n len a && grp_ok n len b
  | Rep _ _ _ a => grp_ok n len a
  | Grp k a => (negb (Nat.eqb k n) || Nat.leb len (minlen a)) && grp_ok n len a
  | _ => true
  end.

(** ** Parsing patterns *)

Definition is_c (c : ascii) (s : string) : bool :=
  match s with
  | String d EmptyString => ascii_eqb c d
  | _ => false
  end.

Definition cat (a b : regex) : regex :=
  match b with
  | Eps => a
  | _ => Cat a b
  end.

(** An escape [\c] outside or inside a class. *)
Definition escape_class (c : ascii) : option citem :=
  if is_c c "s" then Some CSpace
  else if is_c c "d" then Some CDigit
  else if is_c c "w" then Some CWord
  else if is_alpha c || is_digit c then None
  else Some (CRange c c).

Definition escape_atom (c : ascii) : option regex :=
  if is_c c "b" then Some WordB
  else match escape_class c with
       | Some (CRange x _) => Some (Chr x)
       | Some i => Some (Cls false [i])
       | None => None
       end.

(** Items of a class up to the closing bracket. *)
Fixpoint parse_items (p : str) (acc : list citem) {struct p}
    : option (list citem * str) :=
  match p with
  | [] => None
  | c :: p1 =>
      if is_c c "]" then Some (rev acc, p1)
      else if is_c c "\" then
        match p1 with
        | e :: p2 =>
            match escape_class e with
            | Some i => parse_items p2 (i :: acc)
            | None => None
            end
        | [] => None
        end
      else
        match p1 with
        | d :: p2 =>
            if is_c d "-" then
              match p2 with
              | h :: p3 =>
                  if is_c h "]" then Some (rev (CRange d d :: CRange c c :: acc), p3)
                  else if is_c h "\" then None
                  else parse_items p3 (CRange c h :: acc)
              | [] => None
              end
            else parse_items p1 (CRange c c :: acc)
        | [] => None
        end
  end.

Definition parse_class (p : str) : option (regex * str) :=
  match p with
  | c :: p1 =>
      if is_c c "^" then
        match parse_items p1 [] with
        | Some (items, p') => Some (Cls true items, p')
        | None => None
        end
      else
        match parse_items p [] with
        | Some (items, p') => Some (Cls false items, p')
        | None => None
        end
  | [] => None
  end.

Fixpoint parse_nat (p : str) (acc : nat) {struct p} : nat * str :=
  match p with
  | c :: p1 =>
      if is_digit c then parse_nat p1 (acc * 10 + N.to_nat (code c - 48))%nat
      else (acc, p)
  | [] => (acc, p)
  end.

(** The bounds of a quantifier [{n}], [{n,}] or [{n,m}]. *)
Definition parse_bounds (p : str) : option (nat * option nat * str) :=
  let '(lo, p1) := parse_nat p O in
  match p1 with
  | c :: p2 =>
      if is_c c "}" then Some (lo, Some lo, p2)
      else if is_c c "," then
        match p2 with
        | d :: p3 =>
            if is_c d "}" then Some (lo, None, p3)
            else
              let '(hi, p4) := parse_nat p2 O in
              match p4 with
              | e :: p5 => if is_c e "}" then Some (lo, Some hi, p5) else None
              | [] => None
              end
        | [] => None
        end
      else None
  | [] => None
  end.

Definition parse_lazy (lo : nat) (hi : option nat) (a : regex) (p : str)
    : regex * str :=
  match p with
  | c :: p1 => if is_c c "?" then (Rep lo hi false a, p1) else (Rep lo hi true a, p)
  | [] => (Rep lo hi true a, p)
  end.

Definition parse_quant (a : regex) (p : str) : option (regex * str) :=
  match p with
  | c :: p1 =>
      if is_c c "*" then Some (parse_lazy 0 None a p1)
      else if is_c c "+" then Some (parse_lazy 1 None a p1)
      else if is_c c "?" then Some (parse_lazy 0 (Some 1%nat) a p1)
      else if is_c c "{" then
        match parse_bounds p1 with
        | Some (lo, hi, p2) => Some (parse_lazy lo hi a p2)
        | None => None
        end
      else Some (a, p)
  | [] => Some (a, p)
  end.

(** [g] counts the capturing groups opened so far. *)
Fixpoint parse_alt (fuel : nat) (p : str) (g : nat) {struct fuel}
    : option (regex * str * nat) :=
  match fuel with
  | O => None
  | S f =>
      match parse_seq f p g with
      | Some (a, p1, g1) =>
          match p1 with
          | c :: p2 =>
              if is_c c "|" then
                match parse_alt f p2 g1 with
                | Some (b, p3, g3) => Some (Alt a b, p3, g3)
                | None => None
                end
              else Some (a, p1, g1)
          | [] => Some (a, p1, g1)
          end
      | None => None
      end
  end
with parse_seq (fuel : nat) (p : str) (g : nat) {struct fuel}
    : option (regex * str * nat) :=
  match fuel with
  | O => None
  | S f =>
      match p with
      | [] => Some (Eps, p, g)
      | c :: _ =>
          if is_c c ")" || is_c c "|" then Some (Eps, p, g)
          else
            match parse_atom f p g with
            | Some (a, p1, g1) =>
                match parse_quant a p1 with
                | Some (a', p2) =>
                    match parse_seq f p2 g1 with
                    | Some (b, p3, g3) => Some (cat a' b, p3, g3)
                    | None => None
                    end
                | None => None
                end
            | None => None
            end
      end
  end
with parse_atom (fuel : nat) (p : str) (g : nat) {struct fuel}
    : option (regex * str * nat) :=
  match fuel with
  | O => None
  | S f =>
      match p with
      | [] => None
      | c :: p1 =>
          if is_c c "(" then
            match p1 with
            | q :: x :: p3 =>
                if is_c q "?" then
                  if is_c x ":" then
                    match parse_alt f p3 g with
                    | Some (a, y :: p4, g4) =>
                        if is_c y ")" then Some (a, p4, g4) else None
                    | _ => None
                    end
                  else None
                else
                  match parse_alt f p1 (S g) with
                  | Some (a, y :: p4, g4) =>
                      if is_c y ")" then Some (Grp (S g) a, p4, g4) else None
                  | _ => None
                  end
            | _ => None
            end
          else if is_c c "[" then
            match parse_class p1 with
            | Some (a, p2) => Some (a, p2, g)
            | None => None
            end
          else if is_c c "\" then
            match p1 with
            | e :: p2 =>
                match escape_atom e with
                | Some a => Some (a, p2, g)
                | None => None
                end
            | [] => None
            end
          else if is_c c "." then Some (Any, p1, g)
          else if is_c c "^" then Some (Bol, p1, g)
          else if is_c c "$" then Some (Eol, p1, g)
          else if is_c c "*" || is_c c "+" || is_c c "?" then None
          else Some (Chr c, p1, g)
      end
  end.

Definition parse (p : str) : option regex :=
  match parse_alt (3 * List.length p + 3) p O with
  | Some (r, [], _) => Some r
  | _ => None
  end.

(** A pattern that matches nothing stands for a pattern that does not
    parse; the patterns of the sources parse (see
    [PatternFacts.patterns_parse] and its companions). *)
Definition never : regex := Cls false [].

Definition compile (p : str) : regex :=
  match parse p with
  | Some r => r
  | None => never
  end.

(** [re.escape]. *)
Definition special (c : ascii) : bool :=
  existsb (ascii_eqb c) (L "()[]{}?*+-|^$\.&~# ")
  || in_range 9 13 c.

Definition escape (s : str) : str :=
  flat_map (fun c => if special c then ["\"%char; c] else [c]) s.

End Re.

Import Re.

(* ================================================================== *)
(** * data_model.py *)
(* ================================================================== *)

Module DataModel.

Inductive ExtractionConfidence : Type := HIGH | MEDIUM | LOW | UNKNOWN.

Inductive EntityType : Type := PERSON | EVENT | LOCATION | DATE | ORGANIZATION.

(** The [.value] of an [ExtractionConfidence] member is its name. *)
Definition confidence_value (c : ExtractionConfidence) : string :=
  match c with
  | HIGH => "HIGH"
  | MEDIUM => "MEDIUM"
  | LOW => "LOW"
  | UNKNOWN => "UNKNOWN"
  end.

Definition ExtractionConfidence_eqb (a b : ExtractionConfidence) : bool :=
  match a, b with
  | HIGH, HIGH | MEDIUM, MEDIUM | LOW, LOW | UNKNOWN, UNKNOWN => true
  | _, _ => false
  end.

Definition EntityType_eqb (a b : EntityType) : bool :=
  match a, b with
  | PERSON, PERSON | EVENT, EVENT | LOCATION, LOCATION
  | DATE, DATE | ORGANIZATION, ORGANIZATION => true
  | _, _ => false
  end.

Record ExtractedEntity : Type := mkEntity {
  entityType : EntityType;
  value : str;
  confidence : ExtractionConfidence;
  startPosition : Z;
  endPosition : Z;
  originalText : str
}.

(** Dataclass equality: field by field. *)
Definition entity_eqb (a b : ExtractedEntity) : bool :=
  EntityType_eqb (entityType a) (entityType b)
  && str_eqb (value a) (value b)
  && ExtractionConfidence_eqb (confidence a) (confidence b)
  && (startPosition a =? startPosition b)
  && (endPosition a =? endPosition b)
  && str_eqb (originalText a) (originalText b).

(** Python is dynamically typed: the arguments given for [entityType] and
    [confidence] may be any object.  The objects that matter to
    [__post_init__] are the members of the two enums; everything else
    fails the [isinstance] tests alike. *)
Inductive pyobj : Type :=
| OEntityType (t : EntityType)
| OConfidence (c : ExtractionConfidence)
| OStr (s : str)
| OInt (z : Z)
| ONone.

Record EntityArgs : Type := mkArgs {
  a_entityType : pyobj;
  a_value : str;
  a_confidence : pyobj;
  a_startPosition : Z;
  a_endPosition : Z;
  a_originalText : str
}.

(** [ExtractedEntity(...)]: the generated [__init__] followed by
    [__post_init__]. *)
Definition new_ExtractedEntity (a : EntityArgs) : result ExtractedEntity :=
  match a_entityType a with
  | OEntityType t =>
      if negb (truthy (a_value a)) || negb (truthy (strip (a_value a)))
      then Raise (ValueError "Entity value cannot be empty")
      else if (a_startPosition a <? 0) || (a_endPosition a <? a_startPosition a)
      then Raise (ValueError "Invalid position values")
      else match a_confidence a with
           | OConfidence c =>
               Ok (mkEntity t (a_value a) c (a_startPosition a)
                     (a_endPosition a) (a_originalText a))
           | _ => Raise (ValueError "Invalid confidence level")
           end
  | _ => Raise (ValueError "Invalid entity type")
  end.

(** The constructor call as the extractor writes it, with well-typed
    enum arguments. *)
Definition ExtractedEntity_ (t : EntityType) (v : str)
    (c : ExtractionConfidence) (s e : Z) (o : str) : result ExtractedEntity :=
  new_ExtractedEntity (mkArgs (OEntityType t) v (OConfidence c) s e o).

Record EventRegistrationInfo : Type := mkInfo {
  participantName : option str;
  eventName : option str;
  location : option str;
  date : option str;
  extractedEntities : list ExtractedEntity;
  originalText_ : str;
  overallConfidence : ExtractionConfidence
}.

(** [EventRegistrationInfo(originalText=...)] with the dataclass defaults. *)
Definition EventRegistrationInfo_ (text : str) : EventRegistrationInfo :=
  mkInfo None None None None [] text UNKNOWN.

(** Python truthiness of an [Optional[str]] field. *)
Definition field_truthy (f : option str) : bool :=
  match f with
  | Some s => truthy s
  | None => false
  end.

End DataModel.
Import DataModel.

(* ================================================================== *)
(** * Name_Entity_Recogniztion.py: [HybridNamedEntityExtractor] *)
(* ================================================================== *)

Module Extractor.

(** A compiled pattern with its [re.IGNORECASE] flag. *)
Definition pattern : Type := (bool * regex)%type.
Definition IGNORECASE : bool := true.
Definition re_compile (p : string) (flags : bool) : pattern :=
  (flags, compile (L p)).
Definition re_finditer (p : pattern) (s : str) : list rmatch :=
  finditer (fst p) (snd p) s.
Definition re_search (p : pattern) (s : str) : bool :=
  match search (fst p) (snd p) s with Some _ => true | None => false end.

(** [match.group()], [match.start()], [match.end()]. *)
Definition group0 (mt : rmatch) (s : str) : str :=
  Re.slice s (m_start mt) (m_end mt).
Definition start0 (mt : rmatch) : Z := Z.of_nat (m_start mt).
Definition end0 (mt : rmatch) : Z := Z.of_nat (m_end mt).

(** ** [_initializePatterns] *)

Definition personNames : list pattern := [
  re_compile "\b[A-Z][a-z]+\s+[A-Z][a-z]+(?:\s+[A-Z][a-z]+)?\b" false;
  re_compile "\b(?:Mr|Mrs|Ms|Dr|Prof)\.?\s+[A-Z][a-z]+\s+[A-Z][a-z]+\b" false;
  re_compile "\b[A-Z][a-z]+\s+[A-Z]\.\s+[A-Z][a-z]+\b" false ].

Definition eventPatterns : list pattern := [
  re_compile "\b(?:the\s+)?[A-Z][a-z]*\s+(?:Conference|Summit|Workshop|Meetup|Expo|Convention|Symposium)\b" IGNORECASE;
  re_compile "\b[A-Z]+\s+\d{4}\b" false;
  re_compile "\b\d{4}\s+[A-Z][a-z]+\s+(?:Conference|Summit)\b" IGNORECASE ].

Definition locationPatterns : list pattern := [
  re_compile "\bin\s+([A-Z][a-z]+(?:\s+[A-Z][a-z]+)*),?\s*([A-Z]{2,3})?\b" false;
  re_compile "\bat\s+([A-Z][a-z]+(?:\s+[A-Z][a-z]+)*)\b" false;
  re_compile "\b([A-Z][a-z]+),\s*([A-Z][a-z]+)(?:,\s*([A-Z]{2,3}))?\b" false ].

Definition datePatterns : list pattern := [
  re_compile "\b(?:on\s+)?(?:Jan|Feb|Mar|Apr|May|Jun|Jul|Aug|Sep|Oct|Nov|Dec)[a-z]*\s+\d{1,2},?\s+\d{4}\b" IGNORECASE;
  re_compile "\b(?:on\s+)?\d{1,2}\s+(?:Jan|Feb|Mar|Apr|May|Jun|Jul|Aug|Sep|Oct|Nov|Dec)[a-z]*\s+\d{4}\b" IGNORECASE;
  re_compile "\b(?:on\s+)?\d{1,2}[/-]\d{1,2}[/-]\d{2,4}\b" false;
  re_compile "\b(?:on\s+)?\d{4}[/-]\d{1,2}[/-]\d{1,2}\b" false ].

(** ** [_initializeKnowledgeBases]

    The knowledge bases are Python sets; they are listed in source
    order.  Only membership is used, except for [registrationVerbs],
    which [_extractEventNamesFromContext] iterates. *)

Definition commonFirstNames : list str := map L [
  "john"; "jane"; "michael"; "sarah"; "david"; "maria"; "james"; "lisa";
  "robert"; "jennifer"; "william"; "elizabeth"; "richard"; "patricia";
  "ahmed"; "fatima"; "muhammad"; "aisha"; "ali"; "zainab"; "omar"; "sara" ]%string.

Definition commonLastNames : list str := map L [
  "smith"; "johnson"; "brown"; "taylor"; "miller"; "davis"; "garcia";
  "rodriguez"; "wilson"; "martinez"; "anderson"; "jackson"; "white"; "khan";
  "ahmed"; "ali"; "shah"; "malik"; "hussain"; "abbas" ]%string.

Definition eventTypeIndicators : list str := map L [
  "conference"; "summit"; "workshop"; "seminar"; "meetup"; "expo";
  "convention"; "symposium"; "forum"; "congress"; "festival"; "competition";
  "tournament"; "championship"; "ceremony" ]%string.

Definition domainKeywords : list str := map L [
  "tech"; "technology"; "ai"; "artificial intelligence"; "ml";
  "machine learning"; "data science"; "blockchain"; "cybersecurity"; "cloud";
  "mobile"; "web"; "software"; "hardware"; "iot"; "robotics"; "fintech";
  "healthtech" ]%string.

Definition majorCities : list str := map L [
  "new york"; "london"; "tokyo"; "paris"; "berlin"; "sydney"; "toronto";
  "mumbai"; "delhi"; "bangalore"; "karachi"; "lahore"; "islamabad"; "dubai";
  "singapore"; "hong kong"; "san francisco"; "los angeles" ]%string.

Definition registrationVerbs : list string := [
  "registered"; "signed up"; "enrolled"; "joined"; "participated";
  "attended"; "booked"; "reserved"; "confirmed"; "applied"; "subscribed" ]%string.

(** ** [_initializeContextualRules] *)

Definition personNameContext : list string := [
  "\b(?:Mr|Mrs|Ms|Dr|Prof)\.?\s+";
  "\b(?:registered|signed up|enrolled)\s+(?:for|to)\s+.*?\s+(?:by|participant|attendee)\s+";
  "\bparticipant\s+(?:name\s*:\s*)?";
  "\battendee\s+(?:name\s*:\s*)?" ]%string.

(** ** Validation and scoring helpers *)

(** [word[0].isupper()] for a word of [str.split()], which is never
    empty. *)
Definition first_isupper (w : str) : bool :=
  match w with
  | c :: _ => is_upper c
  | [] => false
  end.

Definition nonNameWords : list str := map L [
  "conference"; "summit"; "workshop"; "meeting"; "event"; "the"; "and"; "or" ]%string.

Definition _validatePersonName (name : str) : bool :=
  if negb (truthy name) || (Z.of_nat (List.length (split name)) <? 2) then false
  else
    let words := map lower (split name) in
    let hasFirstName := existsb (fun w => str_in w commonFirstNames) words in
    let hasLastName := existsb (fun w => str_in w commonLastNames) words in
    let hasValidPattern :=
      forallb (fun w => isalpha w && first_isupper w) (split name) in
    let hasNonNameWords :=
      existsb (fun w => str_in (lower w) nonNameWords) (split name) in
    (hasFirstName || hasLastName || hasValidPattern) && negb hasNonNameWords.

Definition year_20xx : pattern := re_compile "\b20\d{2}\b" false.

Definition _validateEventName (eventName : str) : bool :=
  if negb (truthy eventName) || (len (strip eventName) <? 3) then false
  else
    let eventLower := lower eventName in
    let hasEventIndicator :=
      existsb (fun i => contains i eventLower) eventTypeIndicators in
    let hasDomainKeyword :=
      existsb (fun k => contains k eventLower) domainKeywords in
    let hasYear := re_search year_20xx eventName in
    hasEventIndicator || hasDomainKeyword || hasYear.

Definition nonLocationWords : list str := map L [
  "conference"; "summit"; "workshop"; "meeting"; "event"; "the"; "and"; "or" ]%string.

Definition location_shape : pattern :=
  re_compile "^[A-Z][a-z]+(?:\s+[A-Z][a-z]+)*(?:,\s*[A-Z]{2,})?" false.

Definition _validateLocation (location : str) : bool :=
  if negb (truthy location) || (len (strip location) <? 2) then false
  else
    let locationLower := lower location in
    let isKnownCity := str_in locationLower majorCities in
    let hasLocationPattern := re_search location_shape location in
    let hasNonLocationWords :=
      existsb (fun w => str_in (lower w) nonLocationWords) (split location) in
    (isKnownCity || hasLocationPattern) && negb hasNonLocationWords.

Definition validDatePatterns : list pattern := [
  re_compile "\b(?:Jan|Feb|Mar|Apr|May|Jun|Jul|Aug|Sep|Oct|Nov|Dec)[a-z]*\s+\d{1,2},?\s+\d{4}\b" IGNORECASE;
  re_compile "\b\d{1,2}\s+(?:Jan|Feb|Mar|Apr|May|Jun|Jul|Aug|Sep|Oct|Nov|Dec)[a-z]*\s+\d{4}\b" IGNORECASE;
  re_compile "\b\d{1,2}[/-]\d{1,2}[/-]\d{2,4}\b" IGNORECASE;
  re_compile "\b\d{4}[/-]\d{1,2}[/-]\d{1,2}\b" IGNORECASE ].

Definition _validateDate (date : str) : bool :=
  if negb (truthy date) then false
  else existsb (fun p => re_search p date) validDatePatterns.

Definition tier (score : Z) (high medium : Z) : ExtractionConfidence :=
  if high <=? score then HIGH
  else if medium <=? score then MEDIUM
  else LOW.

Definition _calculatePersonNameConfidence (name : str) : ExtractionConfidence :=
  let words := map lower (split name) in
  let score := 0 in
  let score :=
    if existsb (fun w => str_in w commonFirstNames) words
    then score + 3 else score in
  let score :=
    if existsb (fun w => str_in w commonLastNames) words
    then score + 3 else score in
  let score :=
    if forallb (fun w => first_isupper w && islower (tl w)) (split name)
    then score + 2 else score in
  let score :=
    if Nat.eqb (List.length words) 2 then score + 2
    else if Nat.ltb 4 (List.length words) then score - 1
    else score in
  tier score 5 3.

Definition _calculateEventNameConfidence (eventName fullText : str)
    : ExtractionConfidence :=
  let score := 0 in
  let eventLower := lower eventName in
  let score :=
    if existsb (fun i => contains i eventLower) eventTypeIndicators
    then score + 4 else score in
  let score :=
    if existsb (fun k => contains k eventLower) domainKeywords
    then score + 3 else score in
  let score := if re_search year_20xx eventName then score + 2 else score in
  let score :=
    if existsb (fun v => contains (L v) (lower fullText)) registrationVerbs
    then score + 2 else score in
  let score :=
    if truthy eventName && first_isupper eventName then score + 1 else score in
  tier score 6 3.

Definition _calculateLocationConfidence (location : str)
    : ExtractionConfidence :=
  let score := 0 in
  let locationLower := lower location in
  let score := if str_in locationLower majorCities then score + 4 else score in
  let score := if re_search location_shape location then score + 3 else score in
  let score :=
    if (3 <=? len location) && (len location <=? 30) then score + 1 else score in
  tier score 4 2.

Definition month_prefix : pattern :=
  re_compile "\b(?:Jan|Feb|Mar|Apr|May|Jun|Jul|Aug|Sep|Oct|Nov|Dec)" IGNORECASE.
Definition four_digits : pattern := re_compile "\d{4}" false.

Definition _calculateDateConfidence (date : str) : ExtractionConfidence :=
  if re_search month_prefix date then HIGH
  else if re_search four_digits date then MEDIUM
  else LOW.

Definition _cleanLocationText (locationText : str) : str :=
  strip (sub true (compile (L "^\s*(?:in|at|near)\s+")) [] locationText).

Definition _cleanDateText (dateText : str) : str :=
  strip (sub true (compile (L "^\s*(?:on|date|scheduled for)\s+")) [] dateText).

(** ** Candidate generation *)

(** A [for] loop whose body appends to one list and may raise. *)
Fixpoint for_each {A B : Type} (l : list A) (body : A -> result (list B))
    : result (list B) :=
  match l with
  | [] => Ok []
  | x :: t =>
      ys <- body x ;;
      zs <- for_each t body ;;
      Ok (ys ++ zs)
  end.

(** [match.group(1)] is [None] when the group took no part; calling
    [.strip()] on it raises. *)
Definition group1 (mt : rmatch) (s : str) : result (str * (nat * nat)) :=
  match span 1 mt with
  | Some (a, b) => Ok (Re.slice s a b, (a, b))
  | None => Raise (AttributeError "'NoneType' object has no attribute 'strip'")
  end.

Definition _extractPersonNamesFromContext (text : str)
    : result (list ExtractedEntity) :=
  for_each personNameContext (fun contextPattern =>
    let pattern :=
      re_compile (contextPattern ++ "([A-Z][a-z]+(?:\s+[A-Z][a-z]+)*)")
        IGNORECASE in
    for_each (re_finditer pattern text) (fun mt =>
      g <- group1 mt text ;;
      let name := strip (fst g) in
      if _validatePersonName name then
        entity <- ExtractedEntity_ PERSON name HIGH
                    (Z.of_nat (fst (snd g))) (Z.of_nat (snd (snd g))) name ;;
        Ok [entity]
      else Ok [])).

Definition _extractPersonNames (text : str) : result (list ExtractedEntity) :=
  entities <- for_each personNames (fun pattern =>
    for_each (re_finditer pattern text) (fun mt =>
      let name := strip (group0 mt text) in
      if _validatePersonName name then
        entity <- ExtractedEntity_ PERSON name
                    (_calculatePersonNameConfidence name)
                    (start0 mt) (end0 mt) (group0 mt text) ;;
        Ok [entity]
      else Ok [])) ;;
  more <- _extractPersonNamesFromContext text ;;
  Ok (entities ++ more).

Definition _extractEventNamesFromContext (text : str)
    : result (list ExtractedEntity) :=
  for_each registrationVerbs (fun verb =>
    let pattern :=
      re_compile ("\b" ++ verb ++ "\s+(?:for\s+)?(?:the\s+)?([A-Z][^.!?]*?(?:conference|summit|workshop|meetup|expo|convention|symposium))")
        IGNORECASE in
    for_each (re_finditer pattern text) (fun mt =>
      g <- group1 mt text ;;
      let eventName := strip (fst g) in
      if _validateEventName eventName then
        entity <- ExtractedEntity_ EVENT eventName HIGH
                    (Z.of_nat (fst (snd g))) (Z.of_nat (snd (snd g)))
                    eventName ;;
        Ok [entity]
      else Ok [])).

Definition _extractEventNames (text : str) : result (list ExtractedEntity) :=
  entities <- for_each eventPatterns (fun pattern =>
    for_each (re_finditer pattern text) (fun mt =>
      let eventName := strip (group0 mt text) in
      if _validateEventName eventName then
        entity <- ExtractedEntity_ EVENT eventName
                    (_calculateEventNameConfidence eventName text)
                    (start0 mt) (end0 mt) (group0 mt text) ;;
        Ok [entity]
      else Ok [])) ;;
  more <- _extractEventNamesFromContext text ;;
  Ok (entities ++ more).

Definition _extractLocations (text : str) : result (list ExtractedEntity) :=
  for_each locationPatterns (fun pattern =>
    for_each (re_finditer pattern text) (fun mt =>
      let location := _cleanLocationText (group0 mt text) in
      if truthy location && _validateLocation location then
        entity <- ExtractedEntity_ LOCATION location
                    (_calculateLocationConfidence location)
                    (start0 mt) (end0 mt) (group0 mt text) ;;
        Ok [entity]
      else Ok [])).

Definition _extractDates (text : str) : result (list ExtractedEntity) :=
  for_each datePatterns (fun pattern =>
    for_each (re_finditer pattern text) (fun mt =>
      let dateText := strip (group0 mt text) in
      let cleanedDate := _cleanDateText dateText in
      if truthy cleanedDate && _validateDate cleanedDate then
        entity <- ExtractedEntity_ DATE cleanedDate
                    (_calculateDateConfidence cleanedDate)
                    (start0 mt) (end0 mt) (group0 mt text) ;;
        Ok [entity]
      else Ok [])).

(** ** [_removeDuplicatesAndOverlaps] *)

(** [entities.sort(key=lambda x: x.startPosition)]: Python's sort is
    stable; so is this insertion sort. *)
Fixpoint insert_by_start (x : ExtractedEntity) (l : list ExtractedEntity)
    : list ExtractedEntity :=
  match l with
  | [] => [x]
  | y :: t =>
      if startPosition x <=? startPosition y then x :: l
      else y :: insert_by_start x t
  end.

Definition sort_by_start (l : list ExtractedEntity) : list ExtractedEntity :=
  fold_right insert_by_start [] l.

Definition overlaps (entity existingEntity : ExtractedEntity) : bool :=
  (startPosition entity <? endPosition existingEntity)
  && (endPosition entity >? startPosition existingEntity).

(** [n_conf > e_conf]: the operands are the [.value] of the enum
    members, which are strings, and Python compares strings
    lexicographically by code point. *)
Definition conf_gt (n_conf e_conf : string) : bool := String.ltb e_conf n_conf.

(** [cleaned.remove(x)]: drops the first element equal to [x]. *)
Fixpoint list_remove (x : ExtractedEntity) (l : list ExtractedEntity)
    : list ExtractedEntity :=
  match l with
  | [] => []
  | y :: t => if entity_eqb y x then t else y :: list_remove x t
  end.

(** The body of the outer loop for one [entity]. *)
Definition resolve_step (cleaned : list ExtractedEntity)
    (entity : ExtractedEntity) : list ExtractedEntity :=
  match find (overlaps entity) cleaned with
  | Some existingEntity =>
      let e_conf := confidence_value (confidence existingEntity) in
      let n_conf := confidence_value (confidence entity) in
      if conf_gt n_conf e_conf
      then list_remove existingEntity cleaned ++ [entity]
      else cleaned
  | None => cleaned ++ [entity]
  end.

Definition _removeDuplicatesAndOverlaps (entities : list ExtractedEntity)
    : list ExtractedEntity :=
  match entities with
  | [] => entities
  | _ => fold_left resolve_step (sort_by_start entities) []
  end.

(** ** [_analyzeEntityContext] and [_enhanceWithContext] *)

Definition personContextKeywords : list str :=
  map L ["registered"; "participant"; "attendee"; "mr"; "mrs"; "dr"]%string.
Definition eventContextKeywords : list str :=
  map L ["registered for"; "attending"; "conference"; "summit"]%string.
Definition locationContextKeywords : list str :=
  map L ["in"; "at"; "held in"; "located"]%string.
Definition dateContextKeywords : list str :=
  map L ["on"; "scheduled"; "happening"]%string.

(** [sum(1 for keyword in keywords if keyword in context)]. *)
Definition count_keywords (keywords : list str) (context : str) : Z :=
  Z.of_nat (List.length (filter (fun k => contains k context) keywords)).

Definition _analyzeEntityContext (entity : ExtractedEntity) (text : str) : Z :=
  let contextWindow := 50 in
  let start := Z.max 0 (startPosition entity - contextWindow) in
  let end_ := Z.min (len text) (endPosition entity + contextWindow) in
  let context := lower (PyStr.slice text start end_) in
  match entityType entity with
  | PERSON => count_keywords personContextKeywords context
  | EVENT => count_keywords eventContextKeywords context
  | LOCATION => count_keywords locationContextKeywords context
  | DATE => count_keywords dateContextKeywords context
  | ORGANIZATION => 0
  end.

Definition set_confidence (c : ExtractionConfidence) (e : ExtractedEntity)
    : ExtractedEntity :=
  mkEntity (entityType e) (value e) c (startPosition e) (endPosition e)
    (originalText e).

(** The body of the loop of [_enhanceWithContext] for one entity
    object. *)
Definition enhance_entity (text : str) (entity : ExtractedEntity)
    : ExtractedEntity :=
  let contextScore := _analyzeEntityContext entity text in
  if 0 <? contextScore then
    match confidence entity with
    | LOW => set_confidence MEDIUM entity
    | MEDIUM => set_confidence HIGH entity
    | _ => entity
    end
  else entity.

(** Entities are mutable objects and the scorer assigns to their
    [confidence] in place.  The objects live in a heap, addressed by
    their index, and an entity list is a list of references: a list
    that holds the same object twice updates it twice. *)
Definition heap : Type := list ExtractedEntity.
Definition ref : Type := nat.

Fixpoint heap_update (h : heap) (r : ref)
    (f : ExtractedEntity -> ExtractedEntity) : heap :=
  match h, r with
  | [], _ => []
  | e :: t, O => f e :: t
  | e :: t, S r' => e :: heap_update t r' f
  end.

Fixpoint _enhanceWithContext (entities : list ref) (text : str) (h : heap)
    : heap :=
  match entities with
  | [] => h
  | r :: t => _enhanceWithContext t text (heap_update h r (enhance_entity text))
  end.

(** ** [extractEntities] *)

Record ExtractorState : Type := mkExtractor {
  _lastError : option string;
  _extractionCount : Z;
  _successfulExtractions : Z
}.

(** The body of the [try] block.  The resolver returns a list of
    distinct objects; they are the heap the scorer works on. *)
Definition extract_body (text : str) : result (list ExtractedEntity) :=
  persons <- _extractPersonNames text ;;
  events <- _extractEventNames text ;;
  locations <- _extractLocations text ;;
  dates <- _extractDates text ;;
  let extractedEntities :=
    _removeDuplicatesAndOverlaps (persons ++ events ++ locations ++ dates) in
  Ok (_enhanceWithContext (seq 0 (List.length extractedEntities)) text
        extractedEntities).

(** [extractEntities] around the statements of its [try] block: the
    counter, the test of the text and the [try ... except Exception].
    [body] stands for the statements between [try:] and the metrics;
    in the code it is [extract_body]. *)
Definition extractEntities_around
    (body : str -> result (list ExtractedEntity))
    (self : ExtractorState) (text : str)
    : list ExtractedEntity * ExtractorState :=
  let self :=
    mkExtractor (_lastError self) (_extractionCount self + 1)
      (_successfulExtractions self) in
  if negb (truthy text) || negb (truthy (strip text)) then ([], self)
  else
    match body text with
    | inr extractedEntities =>
        (extractedEntities,
         mkExtractor None (_extractionCount self)
           (_successfulExtractions self + 1))
    | inl exc =>
        ([],
         mkExtractor (Some ("Extraction error: " ++ exn_message exc)%string)
           (_extractionCount self) (_successfulExtractions self))
    end.

Definition extractEntities (self : ExtractorState) (text : str)
    : list ExtractedEntity * ExtractorState :=
  extractEntities_around extract_body self text.

End Extractor.
Import Extractor.

(* ================================================================== *)
(** * info_processing.py: [AdvancedInformationProcessor] *)
(* ================================================================== *)

Module Processor.

(** A Python [dict] whose values are lists, in insertion order:
    [if k not in d: d[k] = []] followed by [d[k].append(v)]. *)
Fixpoint dict_append {K V : Type} (eqb : K -> K -> bool) (k : K) (v : V)
    (d : list (K * list V)) : list (K * list V) :=
  match d with
  | [] => [(k, [v])]
  | (k', vs) :: t =>
      if eqb k' k then (k', vs ++ [v]) :: t
      else (k', vs) :: dict_append eqb k v t
  end.

Fixpoint dict_get {K V : Type} (eqb : K -> K -> bool) (k : K)
    (d : list (K * V)) : option V :=
  match d with
  | [] => None
  | (k', v) :: t => if eqb k' k then Some v else dict_get eqb k t
  end.

(** ** [_confidenceToScore], [mergeEntities] *)

Definition _confidenceToScore (confidence : ExtractionConfidence) : Z :=
  match confidence with
  | HIGH => 3
  | MEDIUM => 2
  | LOW => 1
  | UNKNOWN => 0
  end.

(** [max(l, key=...)] for a non-empty list: the first element whose key
    is maximal. *)
Fixpoint max_by {A : Type} (key : A -> Z) (best : A) (l : list A) : A :=
  match l with
  | [] => best
  | x :: t => max_by key (if key best <? key x then x else best) t
  end.

Definition merge_key : Type := (EntityType * str)%type.
Definition merge_key_eqb (a b : merge_key) : bool :=
  EntityType_eqb (fst a) (fst b) && str_eqb (snd a) (snd b).
Definition key_of (entity : ExtractedEntity) : merge_key :=
  (entityType entity, lower (value entity)).

Definition group_by_key (entities : list ExtractedEntity)
    : list (merge_key * list ExtractedEntity) :=
  fold_left (fun grouped entity =>
               dict_append merge_key_eqb (key_of entity) entity grouped)
    entities [].

Definition merge_group (entity_list : list ExtractedEntity)
    : list ExtractedEntity :=
  match entity_list with
  | [] => []                 (* a group is never empty *)
  | [e] => [e]
  | e :: t => [max_by (fun x => _confidenceToScore (confidence x)) e t]
  end.

Definition mergeEntities (entities : list ExtractedEntity)
    : list ExtractedEntity :=
  match entities with
  | [] => []
  | _ => flat_map (fun kv => merge_group (snd kv)) (group_by_key entities)
  end.

(** ** [_initializeValidationRules] *)

Definition minimumNameLength : Z := 3.
Definition maximumNameLength : Z := 100.
Definition minimumEventNameLength : Z := 5.
Definition maximumEventNameLength : Z := 200.
Definition minimumLocationLength : Z := 2.
Definition maximumLocationLength : Z := 100.

(** The patterns of [invalidPatterns] are always searched with
    [re.IGNORECASE]. *)
Definition invalid_personName : list pattern := [
  re_compile "\b(?:conference|summit|workshop|event|meeting)\b" IGNORECASE;
  re_compile "\b(?:january|february|march|april|may|june|july|august|september|october|november|december)\b" IGNORECASE;
  re_compile "\d{4}" IGNORECASE;
  re_compile "@" IGNORECASE ].

Definition invalid_eventName : list pattern := [
  re_compile "^\d+$" IGNORECASE;
  re_compile "^[a-z\s]+$" IGNORECASE ].

Definition invalid_location : list pattern := [
  re_compile "\b(?:registered|signed up|enrolled)\b" IGNORECASE;
  re_compile "^\d+$" IGNORECASE ].

(** ** Validators *)

Definition re_match (p : pattern) (s : str) : bool :=
  match match_ (fst p) (snd p) s with Some _ => true | None => false end.

Definition name_charset : pattern := re_compile "^[A-Za-z\s\.\-\']+$" false.

Definition _validatePersonName (name : str) : bool :=
  if negb (truthy name) || (len (strip name) <? minimumNameLength) then false
  else if len name >? maximumNameLength then false
  else if existsb (fun p => re_search p name) invalid_personName then false
  else if negb (re_match name_charset name) then false
  else if negb (has_char " " (strip name)) then false
  else true.

Definition _validateEventName (eventName : str) : bool :=
  if negb (truthy eventName)
     || (len (strip eventName) <? minimumEventNameLength) then false
  else if len eventName >? maximumEventNameLength then false
  else if existsb (fun p => re_search p eventName) invalid_eventName then false
  else true.

Definition _validateLocationName (location : str) : bool :=
  if negb (truthy location)
     || (len (strip location) <? minimumLocationLength) then false
  else if len location >? maximumLocationLength then false
  else if existsb (fun p => re_search p location) invalid_location then false
  else true.

Definition _validateDateFormat (date : str) : bool :=
  if negb (truthy date) || negb (truthy (strip date)) then false
  else existsb (fun p => re_search p date) validDatePatterns.

(** ** Formatters *)

Definition nameSuffixes : list str := map L ["II"; "III"; "IV"; "JR"; "SR"]%string.

Definition format_name_word (word : str) : str :=
  if str_in (upper word) nameSuffixes then upper word
  else if has_char "." word then upper word
  else capitalize word.

Definition _cleanAndFormatPersonName (name : str) : str :=
  let cleaned := join (L " ") (split (strip name)) in
  let words := split cleaned in
  join (L " ") (map format_name_word words).

Definition capitalize_words (part : str) : str :=
  join (L " ") (map capitalize (split part)).

Definition _cleanAndFormatLocationName (location : str) : str :=
  let cleaned := join (L " ") (split (strip location)) in
  if has_char "," cleaned then
    let parts := map strip (split_on "," cleaned) in
    join (L ", ") (map capitalize_words parts)
  else capitalize_words cleaned.

Definition monthReplacements : list (string * string) := [
  ("january", "January"); ("jan", "January");
  ("february", "February"); ("feb", "February");
  ("march", "March"); ("mar", "March");
  ("april", "April"); ("apr", "April");
  ("may", "May");
  ("june", "June"); ("jun", "June");
  ("july", "July"); ("jul", "July");
  ("august", "August"); ("aug", "August");
  ("september", "September"); ("sep", "September");
  ("october", "October"); ("oct", "October");
  ("november", "November"); ("nov", "November");
  ("december", "December"); ("dec", "December") ]%string.

Definition date_prefix : regex := compile (L "^\s*(?:on|date|scheduled for)\s+").

Definition _cleanAndFormatDate (date : str) : str :=
  let cleaned := strip (sub true date_prefix [] date) in
  fold_left (fun cleaned kv =>
               sub true (compile (L ("\b" ++ fst kv ++ "\b"))) (L (snd kv))
                 cleaned)
    monthReplacements cleaned.

Definition lowercaseWords : list str := map L [
  "and"; "or"; "of"; "the"; "in"; "on"; "at"; "for"; "with"; "by" ]%string.

(** [for i, word in enumerate(words)]: [first] tells whether [i = 0]. *)
Fixpoint format_event_words (first : bool) (words : list str) : list str :=
  match words with
  | [] => []
  | word :: t =>
      (if str_in (lower word) lowercaseWords && negb first
       then lower word else capitalize word)
      :: format_event_words false t
  end.

Definition _cleanAndFormatEventName (eventName : str) : str :=
  let cleaned := join (L " ") (split (strip eventName)) in
  let words := split cleaned in
  join (L " ") (format_event_words true words).

(** ** Selection scores.  The scores are Python floats with integral
    values; they are computed in [Z]. *)

Definition confidenceScores (c : ExtractionConfidence) : Z :=
  match c with
  | HIGH => 10
  | MEDIUM => 6
  | LOW => 2
  | UNKNOWN => 0
  end.

Definition between (lo hi x : Z) : bool := (lo <=? x) && (x <=? hi).

Definition _scorePersonEntity (entity : ExtractedEntity) : Z :=
  let score := 0 in
  let score := score + confidenceScores (confidence entity) in
  let words := split (value entity) in
  let score :=
    if Nat.eqb (List.length words) 2 then score + 5
    else if Nat.eqb (List.length words) 3 then score + 3
    else score - 1 in
  let score :=
    if forallb (fun w => first_isupper w && islower (tl w))
         (filter truthy words)
    then score + 3 else score in
  let score :=
    if between 5 50 (len (value entity)) then score + 2 else score in
  score.

Definition event_keywords : list str := map L [
  "conference"; "summit"; "workshop"; "meeting"; "seminar"; "expo"; "forum" ]%string.

Definition _scoreEventEntity (entity : ExtractedEntity) : Z :=
  let score := 0 in
  let score := score + confidenceScores (confidence entity) in
  let score :=
    if existsb (fun k => contains k (lower (value entity))) event_keywords
    then score + 5 else score in
  let score :=
    if between 10 100 (len (value entity)) then score + 3 else score in
  let words := split (value entity) in
  let score :=
    match words with
    | w :: _ => if first_isupper w then score + 2 else score
    | [] => score
    end in
  score.

Definition _scoreLocationEntity (entity : ExtractedEntity) : Z :=
  let score := 0 in
  let score := score + confidenceScores (confidence entity) in
  let score := if has_char "," (value entity) then score + 5 else score in
  let score :=
    if between 3 50 (len (value entity)) then score + 3 else score in
  let words := split (value entity) in
  let score :=
    if forallb first_isupper (filter truthy words) then score + 2 else score in
  score.

Definition date_shape : pattern :=
  re_compile "(\d{1,2}[/-]\d{1,2}[/-]\d{2,4})|([A-Za-z]+ \d{1,2},? \d{4})" false.

(** [current_year] is [datetime.now().year]. *)
Definition _scoreDateEntity (current_year : Z) (entity : ExtractedEntity) : Z :=
  let score := 0 in
  let score := score + confidenceScores (confidence entity) in
  let score :=
    if re_search four_digits (value entity) then score + 5 else score in
  let score :=
    if contains (str_of_int current_year) (value entity)
       || contains (str_of_int (current_year + 1)) (value entity)
    then score + 3 else score in
  let score := if re_search date_shape (value entity) then score + 2 else score in
  score.

(** [scoredEntities.sort(key=lambda x: x[1], reverse=True)]: stable,
    highest score first. *)
Fixpoint insert_by_score {A : Type} (x : A * Z) (l : list (A * Z))
    : list (A * Z) :=
  match l with
  | [] => [x]
  | y :: t =>
      if snd y <=? snd x then x :: l
      else y :: insert_by_score x t
  end.

Definition select_best (score : ExtractedEntity -> Z)
    (entities : list ExtractedEntity) : option ExtractedEntity :=
  match entities with
  | [] => None
  | _ =>
      let scoredEntities := map (fun e => (e, score e)) entities in
      let scoredEntities := fold_right insert_by_score [] scoredEntities in
      option_map fst (hd_error scoredEntities)
  end.

Definition _selectBestPersonEntity := select_best _scorePersonEntity.
Definition _selectBestEventEntity := select_best _scoreEventEntity.
Definition _selectBestLocationEntity := select_best _scoreLocationEntity.
Definition _selectBestDateEntity (current_year : Z) :=
  select_best (_scoreDateEntity current_year).

(** ** Primary pass *)

Definition process_entities
    (select : list ExtractedEntity -> option ExtractedEntity)
    (validate : str -> bool) (format : str -> str)
    (entities : list ExtractedEntity) : option str :=
  match entities with
  | [] => None
  | _ =>
      match select entities with
      | Some bestEntity =>
          if validate (value bestEntity) then Some (format (value bestEntity))
          else None
      | None => None
      end
  end.

Definition _processPersonEntities :=
  process_entities _selectBestPersonEntity _validatePersonName
    _cleanAndFormatPersonName.
Definition _processEventEntities :=
  process_entities _selectBestEventEntity _validateEventName
    _cleanAndFormatEventName.
Definition _processLocationEntities :=
  process_entities _selectBestLocationEntity _validateLocationName
    _cleanAndFormatLocationName.
Definition _processDateEntities (current_year : Z) :=
  process_entities (_selectBestDateEntity current_year) _validateDateFormat
    _cleanAndFormatDate.

Definition _groupEntitiesByType (entities : list ExtractedEntity)
    : list (EntityType * list ExtractedEntity) :=
  fold_left (fun grouped entity =>
               dict_append EntityType_eqb (entityType entity) entity grouped)
    entities [].

(** ** [_calculateOverallConfidence]

    [averageConfidence] is the quotient of two ints; it is kept as an
    exact rational.  (The float quotient compares with 2.5, 2.0 and 1.5
    as the rational does for every list shorter than 2^51.) *)

Definition confidenceValues := _confidenceToScore.

Definition filledFields (info : EventRegistrationInfo) : Z :=
  (if field_truthy (participantName info) then 1 else 0)
  + (if field_truthy (eventName info) then 1 else 0)
  + (if field_truthy (location info) then 1 else 0)
  + (if field_truthy (date info) then 1 else 0).

Definition totalConfidence (entities : list ExtractedEntity) : Z :=
  fold_right Z.add 0 (map (fun e => confidenceValues (confidence e)) entities).

Definition averageConfidence (entities : list ExtractedEntity) : Q :=
  match entities with
  | [] => 0
  | _ => Qmake (totalConfidence entities) (Pos.of_nat (List.length entities))
  end.

Definition _calculateOverallConfidence (info : EventRegistrationInfo)
    : ExtractionConfidence :=
  match extractedEntities info with
  | [] => UNKNOWN
  | _ =>
      let filledFields := filledFields info in
      let averageConfidence := averageConfidence (extractedEntities info) in
      if (filledFields =? 4) && Qle_bool (5 # 2) averageConfidence then HIGH
      else if (3 <=? filledFields) && Qle_bool (2 # 1) averageConfidence
      then HIGH
      else if (2 <=? filledFields) && Qle_bool (3 # 2) averageConfidence
      then MEDIUM
      else if 1 <=? filledFields then LOW
      else UNKNOWN
  end.

(** ** Fallback extraction *)

Definition dq : ascii := "034"%char.

Definition re_compile_str (p : str) (flags : bool) : pattern :=
  (flags, compile p).

(** [re.search(pattern, text)] followed by [match.group(1).strip()];
    [None] for no match. *)
Definition search_group1 (p : pattern) (text : str) : result (option str) :=
  match search (fst p) (snd p) text with
  | None => Ok None
  | Some mt =>
      g <- group1 mt text ;;
      Ok (Some (strip (fst g)))
  end.

(** The loop [for pattern in patterns] of the four fallback methods:
    [clean] is applied to the stripped group, the first value that
    validates is formatted and returned. *)
Fixpoint fallback_loop (patterns : list pattern) (clean : str -> str)
    (validate : str -> bool) (format : str -> str) (text : str)
    : result (option str) :=
  match patterns with
  | [] => Ok None
  | p :: t =>
      found <- search_group1 p text ;;
      match found with
      | Some v =>
          if validate (clean v) then Ok (Some (format (clean v)))
          else fallback_loop t clean validate format text
      | None => fallback_loop t clean validate format text
      end
  end.

Definition name_fallback_patterns : list pattern := [
  re_compile "(?:name|participant|attendee)\s*:\s*([A-Z][a-z]+\s+[A-Z][a-z]+)" IGNORECASE;
  re_compile "\b([A-Z][a-z]+\s+[A-Z][a-z]+)\s+(?:registered|signed up|enrolled)" IGNORECASE;
  re_compile "(?:Mr|Mrs|Ms|Dr)\.?\s+([A-Z][a-z]+\s+[A-Z][a-z]+)" IGNORECASE ].

Definition _extractNameFallback (text : str) : result (option str) :=
  fallback_loop name_fallback_patterns (fun v => v) _validatePersonName
    _cleanAndFormatPersonName text.

Definition event_fallback_patterns : list pattern := [
  re_compile_str
    ([dq] ++ L "([^" ++ [dq]
     ++ L "]*(?:conference|summit|workshop|meetup|expo|convention)[^"
     ++ [dq] ++ L "]*)" ++ [dq]) IGNORECASE;
  re_compile "(?:event|conference|summit)\s*:\s*([A-Z][^.!?]*?)(?:\.|$)" IGNORECASE;
  re_compile "(?:attending|joining)\s+(?:the\s+)?([A-Z][^.!?]*?(?:conference|summit|workshop|meetup|expo))" IGNORECASE ].

Definition _extractEventFallback (text : str) : result (option str) :=
  fallback_loop event_fallback_patterns (fun v => v) _validateEventName
    _cleanAndFormatEventName text.

Definition trailing_punctuation : regex := compile (L "[.!?]+$").
Definition drop_trailing_punctuation (s : str) : str :=
  sub false trailing_punctuation [] s.

Definition location_fallback_patterns : list pattern := [
  re_compile "(?:location|venue|city|place)\s*:\s*([A-Z][a-zA-Z\s,]+)" false;
  re_compile "(?:held|taking place|happening|located)\s+(?:in|at)\s+([A-Z][a-zA-Z\s,]+)" false;
  re_compile "\b([A-Z][a-z]+,\s*[A-Z][a-z]+)\b" false ].

Definition _extractLocationFallback (text : str) : result (option str) :=
  fallback_loop location_fallback_patterns drop_trailing_punctuation
    _validateLocationName _cleanAndFormatLocationName text.

Definition date_fallback_patterns : list pattern := [
  re_compile "(?:date|when|scheduled|happening)\s*:\s*([A-Za-z0-9\s,/-]+)" IGNORECASE;
  re_compile "(?:starts|begins|commences)\s+(?:on\s+)?([A-Za-z0-9\s,/-]+)" IGNORECASE;
  re_compile "\b((?:Jan|Feb|Mar|Apr|May|Jun|Jul|Aug|Sep|Oct|Nov|Dec)[a-z]*\s+\d{1,2},?\s+\d{4})\b" IGNORECASE ].

Definition _extractDateFallback (text : str) : result (option str) :=
  fallback_loop date_fallback_patterns drop_trailing_punctuation
    _validateDateFormat _cleanAndFormatDate text.

(** ** [_postProcessInformation] *)

Definition set_participantName (v : option str) (i : EventRegistrationInfo) :=
  mkInfo v (eventName i) (location i) (date i) (extractedEntities i)
    (originalText_ i) (overallConfidence i).
Definition set_eventName (v : option str) (i : EventRegistrationInfo) :=
  mkInfo (participantName i) v (location i) (date i) (extractedEntities i)
    (originalText_ i) (overallConfidence i).
Definition set_location (v : option str) (i : EventRegistrationInfo) :=
  mkInfo (participantName i) (eventName i) v (date i) (extractedEntities i)
    (originalText_ i) (overallConfidence i).
Definition set_date (v : option str) (i : EventRegistrationInfo) :=
  mkInfo (participantName i) (eventName i) (location i) v (extractedEntities i)
    (originalText_ i) (overallConfidence i).
Definition set_extractedEntities (v : list ExtractedEntity)
    (i : EventRegistrationInfo) :=
  mkInfo (participantName i) (eventName i) (location i) (date i) v
    (originalText_ i) (overallConfidence i).
Definition set_overallConfidence (v : ExtractionConfidence)
    (i : EventRegistrationInfo) :=
  mkInfo (participantName i) (eventName i) (location i) (date i)
    (extractedEntities i) (originalText_ i) v.

Definition _postProcessInformation (info : EventRegistrationInfo)
    (originalText : str) : result EventRegistrationInfo :=
  info <- (if negb (field_truthy (participantName info))
           then v <- _extractNameFallback originalText ;;
                Ok (set_participantName v info)
           else Ok info) ;;
  info <- (if negb (field_truthy (eventName info))
           then v <- _extractEventFallback originalText ;;
                Ok (set_eventName v info)
           else Ok info) ;;
  info <- (if negb (field_truthy (location info))
           then v <- _extractLocationFallback originalText ;;
                Ok (set_location v info)
           else Ok info) ;;
  info <- (if negb (field_truthy (date info))
           then v <- _extractDateFallback originalText ;;
                Ok (set_date v info)
           else Ok info) ;;
  Ok (set_overallConfidence (_calculateOverallConfidence info) info).

(** ** [processExtractedEntities] *)

(** The primary pass: everything before [_postProcessInformation]. *)
Definition primary_pass (current_year : Z) (entities : list ExtractedEntity)
    (originalText : str) : EventRegistrationInfo :=
  let entitiesByType := _groupEntitiesByType entities in
  let registrationInfo := EventRegistrationInfo_ originalText in
  let registrationInfo := set_extractedEntities entities registrationInfo in
  let registrationInfo :=
    match dict_get EntityType_eqb PERSON entitiesByType with
    | Some l => set_participantName (_processPersonEntities l) registrationInfo
    | None => registrationInfo
    end in
  let registrationInfo :=
    match dict_get EntityType_eqb EVENT entitiesByType with
    | Some l => set_eventName (_processEventEntities l) registrationInfo
    | None => registrationInfo
    end in
  let registrationInfo :=
    match dict_get EntityType_eqb LOCATION entitiesByType with
    | Some l => set_location (_processLocationEntities l) registrationInfo
    | None => registrationInfo
    end in
  let registrationInfo :=
    match dict_get EntityType_eqb DATE entitiesByType with
    | Some l =>
        set_date (_processDateEntities current_year l) registrationInfo
    | None => registrationInfo
    end in
  set_overallConfidence (_calculateOverallConfidence registrationInfo)
    registrationInfo.

Definition processExtractedEntities (current_year : Z)
    (entities : list ExtractedEntity) (originalText : str)
    : result EventRegistrationInfo :=
  match entities with
  | [] => Ok (EventRegistrationInfo_ originalText)
  | _ =>
      _postProcessInformation (primary_pass current_year entities originalText)
        originalText
  end.

(** ** [validateExtractedInfo] *)

Definition validateExtractedInfo (info : EventRegistrationInfo) : bool :=
  let hasAnyInfo :=
    field_truthy (participantName info) || field_truthy (eventName info)
    || field_truthy (location info) || field_truthy (date info) in
  if negb hasAnyInfo then false
  else
    let check (f : option str) (validate : str -> bool) : list bool :=
      match f with
      | Some v => if truthy v then [validate v] else []
      | None => []
      end in
    let validations :=
      check (participantName info) _validatePersonName
      ++ check (eventName info) _validateEventName
      ++ check (location info) _validateLocationName
      ++ check (date info) _validateDateFormat in
    match validations with
    | [] => false
    | _ => forallb (fun b => b) validations
    end.

End Processor.

(* ================================================================== *)
(** * text_process.py: [AdvancedTextPreprocessor] *)
(* ================================================================== *)

Module Preprocessor.

(** [re.sub(pattern, repl, text)] and [re.sub(..., flags=re.IGNORECASE)]
    with the pattern and the template given as in the source. *)
Definition re_sub (p : string) (repl : string) (text : str) : str :=
  sub false (compile (L p)) (L repl) text.
Definition re_sub_i (p : str) (repl : str) (text : str) : str :=
  sub true (compile p) repl text.

(** ** [_initializePatterns] (the patterns [preprocessText] uses) *)

Definition extraWhitespace : regex := compile (L "\s+").
Definition emailPattern : regex :=
  compile (L "\b[A-Za-z0-9._%+-]+@[A-Za-z0-9.-]+\.[A-Z|a-z]{2,}\b").
Definition phonePattern : regex :=
  compile (L "(\+\d{1,3}\s?)?\(?\d{3}\)?[\s.-]?\d{3}[\s.-]?\d{4}").
Definition urlPattern : regex :=
  compile (L "http[s]?://(?:[a-zA-Z]|[0-9]|[$-_@.&+]|[!*\\(\\),]|(?:%[0-9a-fA-F][0-9a-fA-F]))+").

(** ** [_initializeReplacementMaps]

    The entries of [commonReplacements] whose key is not an ASCII
    character (currency and trademark signs) cannot occur in the texts
    modelled here and are left out. *)

Definition commonReplacements : list (string * string) := [
  ("&amp;", "and"); ("&", "and"); ("@", "at"); ("#", "number");
  ("%", "percent"); ("$", "dollar") ]%string.

Definition eventKeywords : list string := [
  "conference"; "summit"; "workshop"; "seminar"; "meetup"; "symposium";
  "expo"; "convention"; "forum"; "congress"; "festival"; "competition";
  "tournament"; "championship"; "ceremony"; "celebration"; "gathering";
  "webinar"; "training"; "lecture"; "session"; "event"; "show" ]%string.

Definition registrationKeywords : list string := [
  "registered"; "signed up"; "enrolled"; "joined"; "participated";
  "attended"; "booked"; "reserved"; "confirmed"; "applied"; "registered for";
  "signed up for"; "enrolled in"; "joined the"; "participated in" ]%string.

(** ** [_initializeConfiguration] *)

Record Config : Type := mkConfig {
  preserveCaseForEntities : bool;
  normalizeDates : bool;
  normalizeLocations : bool;
  enhanceContext : bool;
  fixCommonErrors : bool;
  removeUrls : bool;
  removeEmails : bool;
  removePhones : bool;
  minTextLength : Z;
  maxTextLength : Z
}.

Definition config : Config :=
  mkConfig true true true true true true false false 10 10000.

(** [config.get('normalizeEventTerms')]: the key is absent. *)
Definition normalizeEventTerms : bool := false.

(** ** [cleanText] *)

(** [unicodedata.normalize('NFKD', s)] leaves ASCII text as it is. *)
Definition normalize_NFKD (s : str) : str := s.

Definition cleanText (text : str) : str :=
  if negb (truthy text) then []
  else
    let cleaned :=
      if removeUrls config then sub false urlPattern (L "[URL]") text
      else text in
    let cleaned :=
      if removeEmails config then sub false emailPattern (L "[EMAIL]") cleaned
      else cleaned in
    let cleaned :=
      if removePhones config then sub false phonePattern (L "[PHONE]") cleaned
      else cleaned in
    let cleaned := normalize_NFKD cleaned in
    let cleaned :=
      fold_left (fun cleaned kv => replace (L (fst kv)) (L (snd kv)) cleaned)
        commonReplacements cleaned in
    let cleaned := re_sub "([.!?]){2,}" "\1" cleaned in
    let cleaned := re_sub "([,:;]){2,}" "\1" cleaned in
    let cleaned := sub false extraWhitespace (L " ") cleaned in
    strip cleaned.

(** ** [normalizeText] *)

Definition eventReplacements : list (string * string) := [
  ("tech conference", "technology conference");
  ("ai summit", "artificial intelligence summit");
  ("ml workshop", "machine learning workshop");
  ("dev meetup", "developer meetup");
  ("startup expo", "startup exposition");
  ("data sci", "data science");
  ("web dev", "web development");
  ("ux/ui", "user experience user interface");
  ("iot", "internet of things") ]%string.

Definition _normalizeEventTerms (text : str) : str :=
  fold_left (fun text kv => replace (L (fst kv)) (L (snd kv)) text)
    eventReplacements text.

Definition locationReplacements : list (string * string) := [
  ("nyc", "new york city"); ("sf", "san francisco"); ("la", "los angeles");
  ("uk", "united kingdom"); ("usa", "united states");
  ("uae", "united arab emirates"); ("u.s.", "united states");
  ("u.s.a.", "united states"); ("ny", "new york"); ("ca", "california");
  ("tx", "texas"); ("fl", "florida") ]%string.

Definition _normalizeLocationTerms (text : str) : str :=
  fold_left (fun text kv =>
               re_sub_i (L "\b" ++ escape (L (fst kv)) ++ L "\b") (L (snd kv))
                 text)
    locationReplacements text.

Definition monthAbbreviations : list (string * string) := [
  ("january", "jan"); ("february", "feb"); ("march", "mar");
  ("april", "apr"); ("may", "may"); ("june", "jun");
  ("july", "jul"); ("august", "aug"); ("september", "sep");
  ("october", "oct"); ("november", "nov"); ("december", "dec") ]%string.

Definition _normalizeDateTerms (text : str) : str :=
  let text :=
    fold_left (fun text kv =>
                 re_sub_i (L ("\b" ++ fst kv ++ "\b")) (L (snd kv)) text)
      monthAbbreviations text in
  let text := re_sub "(\d{1,2})/(\d{1,2})/(\d{4})" "\1-\2-\3" text in
  let text := re_sub "(\d{4})/(\d{1,2})/(\d{1,2})" "\1-\2-\3" text in
  text.

Definition normalizeText (text : str) : str :=
  if negb (truthy text) then []
  else
    let normalized := lower text in
    let normalized :=
      if normalizeEventTerms then _normalizeEventTerms normalized
      else normalized in
    let normalized :=
      if normalizeLocations config then _normalizeLocationTerms normalized
      else normalized in
    let normalized :=
      if normalizeDates config then _normalizeDateTerms normalized
      else normalized in
    let normalized := re_sub "\s*([,.!?;:])\s*" "\1 " normalized in
    let normalized := re_sub "\s+" " " normalized in
    strip normalized.

(** ** [_applyAdvancedPreprocessing] *)

Definition _enhanceKeywordContext (text : str) : str :=
  let text :=
    fold_left (fun text keyword =>
                 re_sub_i (L "\b" ++ escape (L keyword) ++ L "\b")
                   (L ("[REG_ACTION]" ++ keyword ++ "[/REG_ACTION]")) text)
      registrationKeywords text in
  fold_left (fun text keyword =>
               re_sub_i (L "\b" ++ escape (L keyword) ++ L "\b")
                 (L ("[EVENT_TYPE]" ++ keyword ++ "[/EVENT_TYPE]")) text)
    eventKeywords text.

Definition commonErrors : list (string * string) := [
  ("\bl\b", "I"); ("\bO\b", "0"); ("rneetup", "meetup");
  ("conferenoe", "conference"); ("reglstered", "registered");
  ("symposlum", "symposium"); ("partlclpated", "participated");
  ("technlcal", "technical"); ("lnformatlon", "information") ]%string.

Definition _fixCommonErrors (text : str) : str :=
  fold_left (fun text kv => re_sub_i (L (fst kv)) (L (snd kv)) text)
    commonErrors text.

Definition _standardizeFormatting (text : str) : str :=
  let text := re_sub "([.!?])\s*([A-Z])" "\1 \2" text in
  let text := re_sub "([,:;])\s*" "\1 " text in
  let text := re_sub "\s*\(\s*" " (" text in
  let text := re_sub "\s*\)\s*" ") " text in
  let text :=
    sub false (compile (L "\s*" ++ [Processor.dq] ++ L "\s*")) [Processor.dq]
      text in
  let text := re_sub "\s*'\s*" "'" text in
  let text := re_sub "\s+" " " text in
  strip text.

Definition _applyAdvancedPreprocessing (text : str) : str :=
  let text :=
    if enhanceContext config then _enhanceKeywordContext text else text in
  let text := if fixCommonErrors config then _fixCommonErrors text else text in
  _standardizeFormatting text.

(** ** [preprocessText] *)

Definition preprocessText (text : str) : result str :=
  if negb (truthy text)
  then Raise (ValueError "Input text must be a non-empty string")
  else
    let text := strip text in
    if len text <? minTextLength config
    then Raise (ValueError "Text too short (minimum 10 characters required)")
    else if len text >? maxTextLength config
    then Raise (ValueError "Text too long (maximum 10000 characters allowed)")
    else
      let processed := cleanText text in
      let processed := normalizeText processed in
      let processed := _applyAdvancedPreprocessing processed in
      Ok (strip processed).

End Preprocessor.

(* ================================================================== *)
(** * extraction_engine.py: [ComprehensiveExtractionEngine] *)
(* ================================================================== *)

Module Engine.

(** [ExtractionResult] without [processingTimeMs] and
    [extractionMethod], which no field of the record depends on. *)
Record ExtractionResult : Type := mkResult {
  registrationInfo : EventRegistrationInfo;
  errorMessages : list string;
  warnings : list string
}.

Record PipelineConfig : Type := mkPipeline {
  enablePreprocessing : bool;
  enableValidation : bool
}.

Definition pipelineConfig : PipelineConfig := mkPipeline true true.

Definition _preprocessText (text : str) : str :=
  if negb (enablePreprocessing pipelineConfig) then text
  else
    match Preprocessor.preprocessText text with
    | inr preprocessed => preprocessed
    | inl _ => text
    end.

(** [entities if entities else []] is [entities]; the extractor catches
    its own exceptions. *)
Definition _extractEntities (extractor : ExtractorState) (text : str)
    : list ExtractedEntity * ExtractorState :=
  extractEntities extractor text.

Definition _processInformation (current_year : Z)
    (entities : list ExtractedEntity) (originalText : str)
    : EventRegistrationInfo :=
  match Processor.processExtractedEntities current_year entities originalText with
  | inr info => info
  | inl _ => EventRegistrationInfo_ originalText
  end.

(** [field and field.strip()] *)
Definition field_filled (f : option str) : bool :=
  match f with
  | Some s => truthy s && truthy (strip s)
  | None => false
  end.

(** [getCompletionPercentage] is 25 times the number of filled fields. *)
Definition getCompletionPercentage (info : EventRegistrationInfo) : Z :=
  25 * ((if field_filled (participantName info) then 1 else 0)
        + (if field_filled (eventName info) then 1 else 0)
        + (if field_filled (location info) then 1 else 0)
        + (if field_filled (date info) then 1 else 0)).

Definition _finalizeResult (info : EventRegistrationInfo) : ExtractionResult :=
  let isValid :=
    if enableValidation pipelineConfig
    then Processor.validateExtractedInfo info else true in
  let completion_percentage := getCompletionPercentage info in
  let warnings :=
    if completion_percentage <? 80
    then [("Extraction incomplete: "
           ++ string_of_list_ascii (str_of_int completion_percentage)
           ++ ".0% complete")%string]
    else [] in
  let warnings :=
    if negb isValid
    then warnings ++ ["Some extracted information may not be accurate"%string]
    else warnings in
  mkResult info [] warnings.

Definition _createErrorResult (errorMessage : string) : ExtractionResult :=
  mkResult (EventRegistrationInfo_ []) [errorMessage]
    ["Extraction process encountered errors"%string].

(** [extractInformation].  The engine's metrics do not flow into the
    result and are not modelled; [current_year] is
    [datetime.now().year], read by the date scorer. *)
Definition extractInformation (current_year : Z) (extractor : ExtractorState)
    (text : str) : ExtractionResult * ExtractorState :=
  if negb (truthy text) || negb (truthy (strip text))
  then (_createErrorResult "Input text cannot be empty", extractor)
  else
    let preprocessedText := _preprocessText text in
    let '(extractedEntities, extractor) :=
      _extractEntities extractor preprocessedText in
    let registrationInfo :=
      _processInformation current_year extractedEntities text in
    (_finalizeResult registrationInfo, extractor).

End Engine.

(* ================================================================== *)
(** * data_model.py: the methods of the records *)
(* ================================================================== *)

Module Records.

(** ** [EventRegistrationInfo] *)

(** [all([f and f.strip() for the four fields])]. *)
Definition isComplete (info : EventRegistrationInfo) : bool :=
  forallb (fun b => b)
    [ Engine.field_filled (participantName info);
      Engine.field_filled (eventName info);
      Engine.field_filled (location info);
      Engine.field_filled (date info) ].

(** [not f or not f.strip()] *)
Definition field_missing (f : option str) : bool :=
  match f with
  | Some s => negb (truthy s) || negb (truthy (strip s))
  | None => true
  end.

Definition getMissingFields (info : EventRegistrationInfo) : list string :=
  let missing := [] in
  let missing :=
    if field_missing (participantName info)
    then missing ++ ["participantName"%string] else missing in
  let missing :=
    if field_missing (eventName info)
    then missing ++ ["eventName"%string] else missing in
  let missing :=
    if field_missing (location info)
    then missing ++ ["location"%string] else missing in
  let missing :=
    if field_missing (date info)
    then missing ++ ["date"%string] else missing in
  missing.

(** [f or 'N/A'] *)
Definition or_na (f : option str) : str :=
  if field_truthy f then match f with Some s => s | None => [] end
  else L "N/A".

Definition nl : str := ["010"%char].

Definition toTemplateFormat (info : EventRegistrationInfo) : str :=
  L "Event Registration Confirmation" ++ nl ++ nl
  ++ L "Participant Name: " ++ or_na (participantName info) ++ nl
  ++ L "Event: " ++ or_na (eventName info) ++ nl
  ++ L "Location: " ++ or_na (location info) ++ nl
  ++ L "Date: " ++ or_na (date info).

(** ** [ExtractionResult] *)

Definition isSuccessful (r : Engine.ExtractionResult) : bool :=
  Nat.eqb (List.length (Engine.errorMessages r)) 0
  && (0 <? Engine.getCompletionPercentage (Engine.registrationInfo r)).

Definition hasHighConfidence (r : Engine.ExtractionResult) : bool :=
  ExtractionConfidence_eqb
    (overallConfidence (Engine.registrationInfo r)) HIGH.

(** ** [ExtractionRequest] *)

Record ExtractionRequest : Type := mkRequest {
  text : str;
  requireHighConfidence : bool;
  timeoutMs : Z
}.

(** [ExtractionRequest(...)]: the generated [__init__] followed by
    [__post_init__]. *)
Definition new_ExtractionRequest (text : str) (requireHighConfidence : bool)
    (timeoutMs : Z) : result ExtractionRequest :=
  if negb (truthy text) || negb (truthy (strip text))
  then Raise (ValueError "Text cannot be empty")
  else if timeoutMs <=? 0
  then Raise (ValueError "Timeout must be positive")
  else Ok (mkRequest text requireHighConfidence timeoutMs).

(** ** [ProcessingMetrics]

    The counters of the record.  Its two running averages are floats
    fed by the clock; no counter depends on them and they are left
    out. *)

Record ProcessingMetrics : Type := mkMetrics {
  totalProcessed : Z;
  successfulExtractions : Z;
  confidenceDistribution : list (string * Z)
}.

(** [ProcessingMetrics()] *)
Definition ProcessingMetrics_ : ProcessingMetrics := mkMetrics 0 0 [].

(** [d.get(k, 0)] *)
Fixpoint dict_get_or_0 (k : string) (d : list (string * Z)) : Z :=
  match d with
  | [] => 0
  | (k', v) :: t => if String.eqb k' k then v else dict_get_or_0 k t
  end.

(** [d[k] = v] on a dict in insertion order. *)
Fixpoint dict_set (k : string) (v : Z) (d : list (string * Z))
    : list (string * Z) :=
  match d with
  | [] => [(k, v)]
  | (k', v') :: t =>
      if String.eqb k' k then (k', v) :: t else (k', v') :: dict_set k v t
  end.

Definition updateMetrics (self : ProcessingMetrics)
    (result : Engine.ExtractionResult) : ProcessingMetrics :=
  let total := totalProcessed self + 1 in
  let successful :=
    if isSuccessful result then successfulExtractions self + 1
    else successfulExtractions self in
  let confidence :=
    confidence_value (overallConfidence (Engine.registrationInfo result)) in
  let distribution :=
    dict_set confidence
      (dict_get_or_0 confidence (confidenceDistribution self) + 1)
      (confidenceDistribution self) in
  mkMetrics total successful distribution.

End Records.

(* ================================================================== *)
(** * Name_Entity_Recogniztion.py: the informational methods *)
(* ================================================================== *)

Module ExtractorInfo.

(** [e.name] of a member of [EntityType]. *)
Definition EntityType_name (t : EntityType) : string :=
  match t with
  | PERSON => "PERSON"
  | EVENT => "EVENT"
  | LOCATION => "LOCATION"
  | DATE => "DATE"
  | ORGANIZATION => "ORGANIZATION"
  end.

(** [{e.name.upper() for e in EntityType}]; only membership is used. *)
Definition _supportedEntityTypes : list str :=
  map (fun t => upper (L (EntityType_name t)))
    [PERSON; EVENT; LOCATION; DATE; ORGANIZATION].

Definition isEntityTypeSupported (entityType : str) : bool :=
  if negb (truthy entityType) then false
  else
    let normalized := upper (strip entityType) in
    str_in normalized _supportedEntityTypes.

Definition getLastError (self : ExtractorState) : option string :=
  _lastError self.

Definition clearErrors (self : ExtractorState) : ExtractorState :=
  mkExtractor None (_extractionCount self) (_successfulExtractions self).

End ExtractorInfo.

(* ================================================================== *)
(** * info_processing.py: [calculateConfidence] and the single-entity
      processors *)
(* ================================================================== *)

Module Processing.

(** [averageScore] is the quotient of two ints, kept as an exact
    rational as in [Processor.averageConfidence]. *)
Definition calculateConfidence (entities : list ExtractedEntity)
    : ExtractionConfidence :=
  match entities with
  | [] => UNKNOWN
  | _ =>
      let totalScore :=
        fold_right Z.add 0
          (map (fun entity => Processor.confidenceValues (confidence entity))
             entities) in
      let averageScore :=
        Qmake totalScore (Pos.of_nat (List.length entities)) in
      if Qle_bool (5 # 2) averageScore then HIGH
      else if Qle_bool (3 # 2) averageScore then MEDIUM
      else if negb (Qle_bool averageScore 0) then LOW
      else UNKNOWN
  end.

Definition process_entity (validate : str -> bool) (format : str -> str)
    (entity : ExtractedEntity) : option str :=
  if validate (value entity) then Some (format (value entity)) else None.

Definition _processPersonEntity :=
  process_entity Processor._validatePersonName
    Processor._cleanAndFormatPersonName.
Definition _processEventEntity :=
  process_entity Processor._validateEventName
    Processor._cleanAndFormatEventName.
Definition _processLocationEntity :=
  process_entity Processor._validateLocationName
    Processor._cleanAndFormatLocationName.
Definition _processDateEntity :=
  process_entity Processor._validateDateFormat Processor._cleanAndFormatDate.

End Processing.

(* ================================================================== *)
(** * text_process.py: [removeNoise] and [tokenizeText] *)
(* ================================================================== *)

Module Noise.

Definition noise : regex := compile (L "[^a-zA-Z0-9\s.,!?;:()-]").

Definition removeNoise (text : str) : str := strip (sub false noise [] text).

Definition tokenizeText (text : str) : list str := split text.

End Noise.

(* ================================================================== *)
(** * extraction_engine.py: batches and the metrics *)
(* ================================================================== *)

Module Batch.

(** [batchExtractInformation]: one [extractInformation] per text, in
    order, on the engine's one extractor. *)
Fixpoint batchExtractInformation (current_year : Z) (extractor : ExtractorState)
    (texts : list str) : list Engine.ExtractionResult * ExtractorState :=
  match texts with
  | [] => ([], extractor)
  | text :: t =>
      let '(result, extractor) :=
        Engine.extractInformation current_year extractor text in
      let '(results, extractor) :=
        batchExtractInformation current_year extractor t in
      (result :: results, extractor)
  end.

(** A record of [processingHistory], without its two clock readings
    ([timestamp], [processingTime]). *)
Record HistoryRecord : Type := mkHistory {
  completionPercentage : Z;
  h_confidence : string;
  successful : bool;
  entitiesExtracted : Z
}.

Record EngineMetrics : Type := mkEngineMetrics {
  metrics : Records.ProcessingMetrics;
  processingHistory : list HistoryRecord
}.

(** [_initializeMetrics], [resetMetrics] *)
Definition _initializeMetrics : EngineMetrics :=
  mkEngineMetrics Records.ProcessingMetrics_ [].

(** [l[-100:]] *)
Definition last_100 {A : Type} (l : list A) : list A :=
  skipn (List.length l - 100) l.

Definition _updateMetrics (self : EngineMetrics)
    (result : Engine.ExtractionResult) : EngineMetrics :=
  let metrics := Records.updateMetrics (metrics self) result in
  let info := Engine.registrationInfo result in
  let confidence_value := confidence_value (overallConfidence info) in
  let history :=
    processingHistory self
    ++ [ mkHistory (Engine.getCompletionPercentage info) confidence_value
           (Records.isSuccessful result)
           (match extractedEntities info with
            | [] => 0
            | l => Z.of_nat (List.length l)
            end) ] in
  let history :=
    if Nat.ltb 100 (List.length history) then last_100 history else history in
  mkEngineMetrics metrics history.

End Batch.

(* ================================================================== *)
(** * template_generation.py: the value formatters *)
(* ================================================================== *)

Module Templates.

(** [value if value else default] *)
Definition or_default (f : option str) (default : str) : str :=
  match f with
  | Some s => if truthy s then s else default
  | None => default
  end.

Definition _formatParticipantName (name : option str) : str :=
  or_default name (L "[Name Not Extracted]").
Definition _formatEventName (eventName : option str) : str :=
  or_default eventName (L "[Event Name Not Extracted]").
Definition _formatLocation (location : option str) : str :=
  or_default location (L "[Location Not Extracted]").
Definition _formatDate (date : option str) : str :=
  or_default date (L "[Date Not Extracted]").

Definition _formatStatus (info : EventRegistrationInfo) : str :=
  let completion := Engine.getCompletionPercentage info in
  if completion >=? 90 then L "COMPLETE"
  else if completion >=? 70 then L "MOSTLY COMPLETE"
  else if completion >=? 50 then L "PARTIALLY COMPLETE"
  else if completion >? 0 then L "INCOMPLETE"
  else L "EXTRACTION FAILED".

Definition _getStatusClass (info : EventRegistrationInfo) : str :=
  let completion := Engine.getCompletionPercentage info in
  if completion >=? 90 then L "complete"
  else if completion >=? 70 then L "partial"
  else if completion >=? 50 then L "partial"
  else L "incomplete".

End Templates.

(* ================================================================== *)
(** * extraction_service.py: input check, XML escaping, the cache *)
(* ================================================================== *)

Module Service.

Definition _validateInput (text : str) : bool :=
  if negb (truthy text) then false
  else if negb (truthy (strip text)) then false
  else if len (strip text) <? 10 then false
  else true.

Definition _escapeXml (text : str) : str :=
  if negb (truthy text) then []
  else
    replace (L "'") (L "&apos;")
      (replace [Processor.dq] (L "&quot;")
         (replace (L ">") (L "&gt;")
            (replace (L "<") (L "&lt;")
               (replace (L "&") (L "&amp;") text)))).

(** ** [resultCache]

    A dict in insertion order, from the cache key to the response. *)

Section Cache.
Variable V : Type.

(** [d.get(k)] *)
Fixpoint cache_get (k : str) (d : list (str * V)) : option V :=
  match d with
  | [] => None
  | (k', v) :: t => if str_eqb k' k then Some v else cache_get k t
  end.

(** [d[k] = v]: an existing key keeps its place. *)
Fixpoint cache_set (k : str) (v : V) (d : list (str * V)) : list (str * V) :=
  match d with
  | [] => [(k, v)]
  | (k', v') :: t =>
      if str_eqb k' k then (k', v) :: t else (k', v') :: cache_set k v t
  end.

Definition cacheMaxSize : Z := 50.

(** [del d[next(iter(d))]].  [next] raises on an empty dict; a dict
    that has reached [cacheMaxSize] is not empty. *)
Definition del_oldest (d : list (str * V)) : list (str * V) := tl d.

Definition _cacheResult (resultCache : list (str * V)) (key : str)
    (result : V) : list (str * V) :=
  let resultCache :=
    if Z.of_nat (List.length resultCache) >=? cacheMaxSize
    then del_oldest resultCache
    else resultCache in
  cache_set key result resultCache.

End Cache.

End Service.

(* ================================================================== *)
(** * The decision table of the specification

    These definitions follow the words of the specification, not the
    code; the aggregator of the code is compared with them. *)
(* ================================================================== *)

Module Spec.

(** A field is filled when it holds a non-empty string. *)
Definition non_empty (f : option str) : bool :=
  match f with
  | Some (_ :: _) => true
  | _ => false
  end.

(** The number of the four fields that are non-empty. *)
Definition filledCount (info : EventRegistrationInfo) : Z :=
  Z.of_nat (List.length (filter non_empty
    [participantName info; eventName info; location info; date info])).

(** HIGH:3, MEDIUM:2, LOW:1, UNKNOWN:0. *)
Definition tier_score (c : ExtractionConfidence) : Z :=
  match c with
  | HIGH => 3
  | MEDIUM => 2
  | LOW => 1
  | UNKNOWN => 0
  end.

(** The mean of the tier scores of a non-empty entity list. *)
Definition meanEntityScore (entities : list ExtractedEntity) : Q :=
  Qmake (fold_right Z.add 0 (map (fun e => tier_score (confidence e)) entities))
        (Pos.of_nat (List.length entities)).

(** The rows of the table, first match wins. *)
Definition decision_table (filledCount : Z) (mean : Q) : ExtractionConfidence :=
  if (filledCount =? 4) && Qle_bool (5 # 2) mean then HIGH
  else if (3 <=? filledCount) && Qle_bool (2 # 1) mean then HIGH
  else if (2 <=? filledCount) && Qle_bool (3 # 2) mean then MEDIUM
  else if 1 <=? filledCount then LOW
  else UNKNOWN.

(** Promotion by one tier. *)
Definition promote (c : ExtractionConfidence) : ExtractionConfidence :=
  match c with
  | LOW => MEDIUM
  | MEDIUM => HIGH
  | HIGH => HIGH
  | UNKNOWN => UNKNOWN
  end.

End Spec.

(* ================================================================== *)
(** * Properties of the data model *)
(* ================================================================== *)

Module DataModelFacts.

(** A string of whitespace only; the empty string is one. *)
Definition blank (s : str) : Prop := Forall (fun c => is_space c = true) s.

Lemma lstrip_nil_iff (s : str) : lstrip s = [] <-> blank s.
Proof.
  unfold blank. induction s as [|c s IH]; simpl.
  - split; [constructor | reflexivity].
  - destruct (is_space c) eqn:Hc.
    + rewrite IH. split; intro H.
      * constructor; assumption.
      * inversion H; assumption.
    + split; intro H; [discriminate|].
      inversion H; subst. congruence.
Qed.

Lemma lstrip_head (s : str) c t : lstrip s = c :: t -> is_space c = false.
Proof.
  induction s as [|x s IH]; simpl; [discriminate|].
  destruct (is_space x) eqn:Hx; [exact IH|].
  intros H; inversion H; subst; assumption.
Qed.

Lemma blank_rev (s : str) : blank (rev s) <-> blank s.
Proof.
  unfold blank. rewrite !Forall_forall.
  split; intros H x Hx; apply H.
  - apply (proj1 (in_rev s x)); assumption.
  - apply (proj2 (in_rev s x)); assumption.
Qed.

Lemma strip_nil_iff (s : str) : strip s = [] <-> blank s.
Proof.
  unfold strip, rstrip. split.
  - intro H.
    assert (Hl : lstrip (rev (lstrip s)) = []).
    { destruct (lstrip (rev (lstrip s))) as [|x l]; [reflexivity|].
      apply (f_equal (@List.length ascii)) in H.
      rewrite length_rev in H. discriminate. }
    apply (proj1 (lstrip_nil_iff _)) in Hl.
    apply (proj1 (blank_rev _)) in Hl.
    destruct (lstrip s) as [|c t] eqn:E.
    + apply lstrip_nil_iff; assumption.
    + apply lstrip_head in E. unfold blank in Hl.
      inversion Hl; subst; congruence.
  - intro H. apply lstrip_nil_iff in H. rewrite H. reflexivity.
Qed.

Lemma truthy_false_iff (s : str) : truthy s = false <-> s = [].
Proof. destruct s; simpl; split; congruence. Qed.

(** The test [not self.value or not self.value.strip()]. *)
Lemma value_test_blank (v : str) :
  negb (truthy v) || negb (truthy (strip v)) = true <-> blank v.
Proof.
  rewrite orb_true_iff, !negb_true_iff, !truthy_false_iff, strip_nil_iff.
  split.
  - intros [-> | H]; [constructor | assumption].
  - intro H; right; assumption.
Qed.

Lemma value_test_not_blank (v : str) :
  negb (truthy v) || negb (truthy (strip v)) = false <-> ~ blank v.
Proof.
  rewrite <- value_test_blank.
  destruct (negb (truthy v) || negb (truthy (strip v))); split; congruence.
Qed.

(** C10.  The constructor of [ExtractedEntity] raises, and then a
    [ValueError], exactly when the entity type is not a member of
    [EntityType], the value is empty or whitespace-only, the start
    position is negative, the end position is below the start position,
    or the confidence is not a member of [ExtractionConfidence].  In
    particular a zero-width span ([endPosition = startPosition]) of a
    non-blank value at a non-negative position is accepted. *)
Theorem new_ExtractedEntity_raises_iff :
  (forall a : EntityArgs,
      ((exists e, new_ExtractedEntity a = inl e) <->
       (~ (exists t, a_entityType a = OEntityType t)
        \/ blank (a_value a)
        \/ a_startPosition a < 0
        \/ a_endPosition a < a_startPosition a
        \/ ~ (exists c, a_confidence a = OConfidence c)))
      /\ (forall e, new_ExtractedEntity a = inl e ->
                    exists msg, e = ValueError msg))
  /\ (forall t v c s o,
         ~ blank v -> 0 <= s ->
         ExtractedEntity_ t v c s s o = Ok (mkEntity t v c s s o)).
Proof.
  split.
  - intro a. unfold new_ExtractedEntity.
    destruct (a_entityType a) as [t| | | |] eqn:Et;
      try (split;
           [ split; [intros _; left; intros [t' Ht']; discriminate
                    | intros _; eexists; reflexivity]
           | intros e He; inversion He; eexists; reflexivity ]).
    destruct (negb (truthy (a_value a)) || negb (truthy (strip (a_value a))))
      eqn:Ev.
    { apply value_test_blank in Ev. split.
      - split; [intros _; right; left; assumption
               | intros _; eexists; reflexivity].
      - intros e He; inversion He; eexists; reflexivity. }
    apply value_test_not_blank in Ev.
    destruct ((a_startPosition a <? 0) || (a_endPosition a <? a_startPosition a))
      eqn:Ep.
    { apply orb_true_iff in Ep. rewrite !Z.ltb_lt in Ep. split.
      - split; [intros _; right; right; tauto
               | intros _; eexists; reflexivity].
      - intros e He; inversion He; eexists; reflexivity. }
    apply orb_false_iff in Ep. rewrite !Z.ltb_ge in Ep.
    destruct (a_confidence a) as [|c| | |] eqn:Ec;
      try (split;
           [ split; [intros _; do 4 right; intros [c' Hc']; discriminate
                    | intros _; eexists; reflexivity]
           | intros e He; inversion He; eexists; reflexivity ]).
    split.
    + split.
      * intros [e He]; discriminate.
      * intros [H | [H | [H | [H | H]]]].
        -- exfalso; apply H; eexists; reflexivity.
        -- contradiction.
        -- lia.
        -- lia.
        -- exfalso; apply H; eexists; reflexivity.
    + intros e He; discriminate.
  - intros t v c s o Hv Hs.
    unfold ExtractedEntity_, new_ExtractedEntity; simpl.
    apply value_test_not_blank in Hv. rewrite Hv.
    assert (Hp : (s <? 0) || (s <? s) = false).
    { apply orb_false_iff; rewrite !Z.ltb_ge; lia. }
    rewrite Hp. reflexivity.
Qed.

Lemma not_blank_x : ~ blank (L "x").
Proof. intro H; inversion H; discriminate. Qed.

(** The zero-width entity ["x"] at position 5 is constructed. *)
Lemma new_ExtractedEntity_raises_iff_witness :
  ExtractedEntity_ PERSON (L "x") HIGH 5 5 (L "x")
  = Ok (mkEntity PERSON (L "x") HIGH 5 5 (L "x")).
Proof.
  apply (proj2 new_ExtractedEntity_raises_iff).
  - exact not_blank_x.
  - lia.
Defined.

End DataModelFacts.

(* ================================================================== *)
(** * The overlap resolver *)
(* ================================================================== *)

Module ResolverFacts.

(** ** Equality of entities *)

Lemma str_eqb_eq (a b : str) : str_eqb a b = true <-> a = b.
Proof.
  revert b; induction a as [|x a IH]; intros [|y b]; simpl;
    try (split; congruence).
  rewrite andb_true_iff, IH, Ascii.eqb_eq.
  split; [intros [-> ->]; reflexivity | intros H; inversion H; auto].
Qed.

Lemma EntityType_eqb_eq a b : EntityType_eqb a b = true <-> a = b.
Proof. destruct a, b; simpl; split; congruence. Qed.

Lemma ExtractionConfidence_eqb_eq a b :
  ExtractionConfidence_eqb a b = true <-> a = b.
Proof. destruct a, b; simpl; split; congruence. Qed.

Lemma entity_eqb_eq (a b : ExtractedEntity) : entity_eqb a b = true <-> a = b.
Proof.
  unfold entity_eqb.
  rewrite !andb_true_iff, EntityType_eqb_eq, !str_eqb_eq,
    ExtractionConfidence_eqb_eq, !Z.eqb_eq.
  destruct a, b; simpl. split.
  - intros [[[[[-> ->] ->] ->] ->] ->]; reflexivity.
  - intros H; inversion H; subst; tauto.
Qed.

(** ** Sorting by start position *)

Definition le_start (a b : ExtractedEntity) : Prop :=
  startPosition a <= startPosition b.

Definition sorted (l : list ExtractedEntity) : Prop :=
  ForallOrdPairs le_start l.

Lemma insert_by_start_In x l y :
  In y (insert_by_start x l) <-> y = x \/ In y l.
Proof.
  induction l as [|z l IH]; simpl.
  - intuition.
  - destruct (startPosition x <=? startPosition z); simpl.
    + intuition.
    + rewrite IH. intuition.
Qed.

Lemma insert_by_start_sorted x l : sorted l -> sorted (insert_by_start x l).
Proof.
  unfold sorted. induction l as [|z l IH]; simpl; intro H.
  - repeat constructor.
  - inversion H as [|? ? Hz Hl]; subst.
    destruct (startPosition x <=? startPosition z) eqn:E.
    + apply Z.leb_le in E. constructor; [|assumption].
      constructor; [exact E|].
      rewrite Forall_forall in *. intros y Hy. specialize (Hz y Hy).
      unfold le_start in *. lia.
    + apply Z.leb_gt in E. constructor; [|apply IH; assumption].
      rewrite Forall_forall in *. intros y Hy.
      apply insert_by_start_In in Hy. destruct Hy as [-> | Hy].
      * unfold le_start; lia.
      * apply Hz; assumption.
Qed.

Lemma sort_by_start_sorted l : sorted (sort_by_start l).
Proof.
  induction l as [|x l IH]; simpl.
  - constructor.
  - apply insert_by_start_sorted; assumption.
Qed.

Lemma sort_by_start_In l y : In y (sort_by_start l) <-> In y l.
Proof.
  induction l as [|x l IH]; simpl; [tauto|].
  rewrite insert_by_start_In, IH. intuition.
Qed.


(** ** The invariant of the accepted list *)

(** [a] was accepted before [b]: its start is not after the start of
    [b] and the two spans do not overlap. *)
Definition apart (a b : ExtractedEntity) : Prop :=
  le_start a b /\ overlaps b a = false.

Definition accepted_ok (cleaned : list ExtractedEntity) : Prop :=
  ForallOrdPairs apart cleaned.

Lemma overlaps_sym a b : overlaps a b = overlaps b a.
Proof.
  unfold overlaps.
  destruct (startPosition a <? endPosition b) eqn:E1,
           (endPosition a >? startPosition b) eqn:E2,
           (startPosition b <? endPosition a) eqn:E3,
           (endPosition b >? startPosition a) eqn:E4; simpl; try reflexivity;
    rewrite ?Z.ltb_lt, ?Z.ltb_ge, ?Z.gtb_gt in *;
    try (apply Z.gtb_lt in E2); try (apply Z.gtb_lt in E4);
    try (rewrite Z.gtb_ltb in E2; apply Z.ltb_ge in E2);
    try (rewrite Z.gtb_ltb in E4; apply Z.ltb_ge in E4); lia.
Qed.

Lemma overlaps_true a b :
  overlaps a b = true <->
  startPosition a < endPosition b /\ startPosition b < endPosition a.
Proof.
  unfold overlaps. rewrite andb_true_iff, Z.ltb_lt, Z.gtb_ltb, Z.ltb_lt.
  tauto.
Qed.

Lemma overlaps_false a b :
  overlaps a b = false <->
  endPosition b <= startPosition a \/ endPosition a <= startPosition b.
Proof.
  unfold overlaps. rewrite andb_false_iff, Z.ltb_ge, Z.gtb_ltb, Z.ltb_ge.
  tauto.
Qed.

Lemma FOP_snoc {A : Type} (R : A -> A -> Prop) l x :
  ForallOrdPairs R (l ++ [x]) <->
  ForallOrdPairs R l /\ Forall (fun a => R a x) l.
Proof.
  induction l as [|y l IH]; simpl.
  - split; [intros _; split; constructor | intros _; repeat constructor].
  - split.
    + intro H. inversion H as [|? ? Hy Hl]; subst.
      apply IH in Hl. destruct Hl as [Hl Hx].
      apply Forall_app in Hy. destruct Hy as [Hy Hyx].
      inversion Hyx; subst.
      split; constructor; assumption.
    + intros [H Hx]. inversion H as [|? ? Hy Hl]; subst.
      inversion Hx; subst.
      constructor.
      * apply Forall_app; split; [assumption | repeat constructor; assumption].
      * apply IH; split; assumption.
Qed.


Lemma list_remove_In x l y : In y (list_remove x l) -> In y l.
Proof.
  induction l as [|z l IH]; simpl; [tauto|].
  destruct (entity_eqb z x); simpl; intuition.
Qed.

Lemma list_remove_FOP (R : ExtractedEntity -> ExtractedEntity -> Prop) x l :
  ForallOrdPairs R l -> ForallOrdPairs R (list_remove x l).
Proof.
  induction l as [|z l IH]; simpl; intro H; [constructor|].
  inversion H as [|? ? Hz Hl]; subst.
  destruct (entity_eqb z x); [assumption|].
  constructor; [|apply IH; assumption].
  rewrite Forall_forall in *. intros y Hy. apply Hz.
  eapply list_remove_In; eassumption.
Qed.

(** What stays after [cleaned.remove(x)] stood at another place of the
    list than the removed [x]. *)
Lemma list_remove_related (R : ExtractedEntity -> ExtractedEntity -> Prop)
    x l y :
  ForallOrdPairs R l -> In x l -> In y (list_remove x l) -> R y x \/ R x y.
Proof.
  induction l as [|z l IH]; simpl; intros H Hx Hy; [contradiction|].
  inversion H as [|? ? Hz Hl]; subst.
  rewrite Forall_forall in Hz.
  destruct (entity_eqb z x) eqn:E.
  - apply entity_eqb_eq in E; subst z. right. apply Hz; assumption.
  - destruct Hx as [-> | Hx].
    { assert (entity_eqb x x = true) by (apply entity_eqb_eq; reflexivity).
      congruence. }
    destruct Hy as [-> | Hy].
    + left. apply Hz; assumption.
    + apply IH; assumption.
Qed.

Lemma resolve_step_In cleaned e x :
  In x (resolve_step cleaned e) -> In x cleaned \/ x = e.
Proof.
  unfold resolve_step.
  destruct (find (overlaps e) cleaned) as [ex|].
  - destruct (conf_gt _ _); [|tauto].
    rewrite in_app_iff. simpl. intros [H | [H | []]]; [|auto].
    left. eapply list_remove_In; eassumption.
  - rewrite in_app_iff. simpl. intuition.
Qed.

(** One iteration of the outer loop keeps the invariant, whatever the
    confidence comparison says. *)
Lemma resolve_step_ok cleaned e :
  accepted_ok cleaned ->
  Forall (fun c => le_start c e) cleaned ->
  accepted_ok (resolve_step cleaned e).
Proof.
  unfold accepted_ok, resolve_step. intros Hok Hle.
  destruct (find (overlaps e) cleaned) as [ex|] eqn:F.
  - destruct (conf_gt _ _); [|assumption].
    apply find_some in F. destruct F as [Hin Hov].
    apply FOP_snoc. split; [apply list_remove_FOP; assumption|].
    rewrite Forall_forall in *. intros c Hc.
    assert (Hc' := list_remove_In _ _ _ Hc).
    split; [apply Hle; assumption|].
    pose proof (Hle c Hc') as Hce. pose proof (Hle ex Hin) as Hexe.
    apply overlaps_true in Hov. apply overlaps_false.
    destruct (@list_remove_related apart ex cleaned c Hok Hin Hc) as [[_ H] | [_ H]];
      apply overlaps_false in H; unfold le_start in *; lia.
  - apply FOP_snoc. split; [assumption|].
    rewrite Forall_forall in *. intros c Hc.
    split; [apply Hle; assumption|].
    exact (find_none _ _ F c Hc).
Qed.

Lemma resolve_fold_ok l : forall cleaned,
  sorted l ->
  accepted_ok cleaned ->
  Forall (fun c => Forall (le_start c) l) cleaned ->
  accepted_ok (fold_left resolve_step l cleaned).
Proof.
  induction l as [|e l IH]; simpl; intros cleaned Hs Hok Hle; [assumption|].
  inversion Hs as [|? ? He Hl]; subst.
  apply IH; [assumption| |].
  - apply resolve_step_ok; [assumption|].
    apply Forall_forall. intros c Hc.
    pose proof (proj1 (Forall_forall _ _) Hle c Hc) as H.
    inversion H; assumption.
  - apply Forall_forall. intros c Hc.
    apply resolve_step_In in Hc. destruct Hc as [Hc | ->]; [|assumption].
    pose proof (proj1 (Forall_forall _ _) Hle c Hc) as H.
    inversion H; assumption.
Qed.

Lemma resolver_accepted_ok entities :
  accepted_ok (_removeDuplicatesAndOverlaps entities).
Proof.
  unfold _removeDuplicatesAndOverlaps.
  destruct entities as [|e l]; [constructor|].
  apply resolve_fold_ok; [apply sort_by_start_sorted | constructor | constructor].
Qed.


Lemma accepted_ok_sorted l : accepted_ok l -> sorted l.
Proof.
  unfold accepted_ok, sorted. induction 1 as [|a l Ha Hl IH]; constructor.
  - rewrite Forall_forall in *. intros x Hx. apply Ha; assumption.
  - assumption.
Qed.




Definition sample_medium : ExtractedEntity :=
  mkEntity PERSON (L "San Francisco") MEDIUM 86 99 (L "San Francisco").
Definition sample_high : ExtractedEntity :=
  mkEntity LOCATION (L "Francisco, California") HIGH 90 111
    (L "Francisco, California").


(** The comparison [n_conf > e_conf] orders the tiers by their names:
    ["HIGH" < "LOW" < "MEDIUM" < "UNKNOWN"]. *)
Lemma conf_gt_table (n e : ExtractionConfidence) :
  conf_gt (confidence_value n) (confidence_value e)
  = match e, n with
    | HIGH, (LOW | MEDIUM | UNKNOWN) => true
    | LOW, (MEDIUM | UNKNOWN) => true
    | MEDIUM, UNKNOWN => true
    | _, _ => false
    end.
Proof. destruct n, e; reflexivity. Qed.

(** C1 (the code departs from the claim).  Of two overlapping
    candidates with confidences MEDIUM and HIGH the resolver keeps the
    MEDIUM one and drops the HIGH one, in whichever order the two are
    given. *)
Theorem resolver_keeps_medium_over_high (a b : ExtractedEntity) :
  overlaps a b = true ->
  confidence a = MEDIUM ->
  confidence b = HIGH ->
  _removeDuplicatesAndOverlaps [a; b] = [a]
  /\ _removeDuplicatesAndOverlaps [b; a] = [a].
Proof.
  intros Hov Ha Hb.
  assert (Hov' : overlaps b a = true) by (rewrite overlaps_sym; assumption).
  assert (Hbb : entity_eqb b b = true) by (apply entity_eqb_eq; reflexivity).
  unfold _removeDuplicatesAndOverlaps, sort_by_start; simpl.
  split.
  - destruct (startPosition a <=? startPosition b); simpl;
      unfold resolve_step; simpl; rewrite ?Hov, ?Hov', Ha, Hb; simpl;
      rewrite ?Hbb; reflexivity.
  - destruct (startPosition b <=? startPosition a); simpl;
      unfold resolve_step; simpl; rewrite ?Hov, ?Hov', Ha, Hb; simpl;
      rewrite ?Hbb; reflexivity.
Qed.

Lemma resolver_keeps_medium_over_high_witness :
  _removeDuplicatesAndOverlaps [sample_medium; sample_high] = [sample_medium]
  /\ _removeDuplicatesAndOverlaps [sample_high; sample_medium]
     = [sample_medium].
Proof.
  apply resolver_keeps_medium_over_high; reflexivity.
Defined.

End ResolverFacts.

(* ================================================================== *)
(** * Properties of the matcher *)
(* ================================================================== *)

Module ReFacts.

(** [good_for r] holds of a recorded span when it respects every
    length bound that [grp_ok] grants for [r]. *)
Definition good_for (r : regex) (c : nat * (nat * nat)) : Prop :=
  forall len, grp_ok (fst c) len r = true -> (fst (snd c) + len <= snd (snd c))%nat.

(** [grows d must good st st']: from [st] to [st'] the position moved
    forward by at least [d] and the spans recorded in between include
    the groups of [must] and are all [good]. *)
Definition grows (d : nat) (must : nat -> bool)
    (good : nat * (nat * nat) -> Prop) (st st' : mstate) : Prop :=
  (pos st + d <= pos st')%nat
  /\ exists l, caps st' = l ++ caps st
       /\ (forall n, must n = true -> In n (map fst l))
       /\ Forall good l.

Lemma grows_refl good st : grows 0 (fun _ => false) good st st.
Proof.
  split; [lia|]. exists []. repeat split; [discriminate | constructor].
Qed.

Lemma grows_trans d1 d2 m1 m2 good st st1 st2 :
  grows d1 m1 good st st1 -> grows d2 m2 good st1 st2 ->
  grows (d1 + d2) (fun n => m1 n || m2 n) good st st2.
Proof.
  intros [Hp1 (l1 & Hc1 & Hm1 & Hg1)] [Hp2 (l2 & Hc2 & Hm2 & Hg2)].
  split; [lia|]. exists (l2 ++ l1). repeat split.
  - rewrite Hc2, Hc1, app_assoc. reflexivity.
  - intros n Hn. rewrite map_app, in_app_iff.
    apply orb_true_iff in Hn. destruct Hn; [right | left]; auto.
  - apply Forall_app; split; assumption.
Qed.

Lemma grows_weaken d d' (m1 m2 : nat -> bool)
    (g1 g2 : nat * (nat * nat) -> Prop) st st' :
  (d' <= d)%nat ->
  (forall n, m2 n = true -> m1 n = true) ->
  (forall c, g1 c -> g2 c) ->
  grows d m1 g1 st st' -> grows d' m2 g2 st st'.
Proof.
  intros Hd Hm Hg [Hp (l & Hc & Hm1 & Hg1)].
  split; [lia|]. exists l. repeat split; auto.
  eapply Forall_impl; eassumption.
Qed.

Lemma grows_advance good st x t :
  grows 1 (fun _ => false) good st (advance st x t).
Proof.
  split; [simpl; lia|]. exists []. repeat split; [discriminate | constructor].
Qed.

(** What a matcher [body] for [a] guarantees to its continuation. *)
Definition sound_for (a : regex)
    (body : mstate -> (mstate -> option mstate) -> option mstate) : Prop :=
  forall st k res,
    body st k = Some res ->
    exists st', k st' = Some res
      /\ grows (minlen a) (fun n => sets n a) (good_for a) st st'.

Lemma rep_loop_sound a body lo hi greedy k :
  sound_for a body ->
  forall fuel i st res,
    rep_loop body lo hi greedy k fuel i st = Some res ->
    exists st', k st' = Some res
      /\ grows ((lo - i) * minlen a) (fun n => Nat.ltb i lo && sets n a)
           (good_for a) st st'.
Proof.
  intros Hbody. induction fuel as [|f IH]; intros i st res H; [discriminate|].
  simpl in H.
  assert (Hmore :
    body st (fun st' =>
      if Nat.ltb i lo || Nat.ltb (pos st) (pos st')
      then rep_loop body lo hi greedy k f (S i) st' else None) = Some res ->
    exists st', k st' = Some res
      /\ grows ((lo - i) * minlen a) (fun n => Nat.ltb i lo && sets n a)
           (good_for a) st st').
  { intro Hm. apply Hbody in Hm. destruct Hm as (st1 & Hk1 & G1).
    destruct (Nat.ltb i lo || Nat.ltb (pos st) (pos st1)); [|discriminate].
    apply IH in Hk1. destruct Hk1 as (st2 & Hk2 & G2).
    exists st2. split; [assumption|].
    pose proof (grows_trans G1 G2) as G.
    eapply grows_weaken; [| | |exact G].
    - destruct (Nat.ltb i lo) eqn:E.
      + apply Nat.ltb_lt in E.
        replace (lo - i)%nat with (S (lo - S i)) by lia. simpl. lia.
      + apply Nat.ltb_ge in E. replace (lo - i)%nat with O by lia. simpl. lia.
    - intros n Hn. apply andb_true_iff in Hn. destruct Hn as [_ Hn].
      rewrite Hn. reflexivity.
    - auto. }
  assert (Hstop :
    Nat.ltb i lo = false -> k st = Some res ->
    exists st', k st' = Some res
      /\ grows ((lo - i) * minlen a) (fun n => Nat.ltb i lo && sets n a)
           (good_for a) st st').
  { intros E Hk. exists st. split; [assumption|].
    apply Nat.ltb_ge in E. replace (lo - i)%nat with O by lia. simpl.
    eapply grows_weaken; [| | |apply (grows_refl (good_for a))].
    - lia.
    - intros n Hn. apply andb_true_iff in Hn. destruct Hn as [Hn _].
      apply Nat.ltb_lt in Hn. lia.
    - auto. }
  destruct (Nat.ltb i lo) eqn:E; [auto|].
  destruct (reached i hi); [auto|].
  destruct greedy.
  - destruct (body st _) eqn:Eb; [inversion H; subst; auto | auto].
  - destruct (k st) eqn:Ek; [inversion H; subst; auto | auto].
Qed.

Lemma good_for_sub (a r : regex) :
  (forall n len, grp_ok n len r = true -> grp_ok n len a = true) ->
  forall c, good_for a c -> good_for r c.
Proof. intros H c Hc len Hl. apply Hc, H, Hl. Qed.

(** The matcher calls its continuation on a state that lies at least
    [minlen r] further on, with the spans of [r] recorded. *)
Theorem m_sound ic r : sound_for r (m ic r).
Proof.
  unfold sound_for. induction r as
    [ | c | | neg items | a IHa b IHb | a IHa b IHb | lo hi greedy a IHa
    | g a IHa | | | ]; intros st k res H; simpl in H.
  - exists st. split; [assumption | apply grows_refl].
  - destruct (rest st) as [|x t]; [discriminate|].
    destruct (chr_match ic c x); [|discriminate].
    eexists; split; [eassumption | apply grows_advance].
  - destruct (rest st) as [|x t]; [discriminate|].
    destruct (ascii_eqb x newline); [discriminate|].
    eexists; split; [eassumption | apply grows_advance].
  - destruct (rest st) as [|x t]; [discriminate|].
    destruct (cls_match ic neg items x); [|discriminate].
    eexists; split; [eassumption | apply grows_advance].
  - apply IHa in H. destruct H as (st1 & H & G1).
    apply IHb in H. destruct H as (st2 & H & G2).
    exists st2. split; [assumption|]. simpl.
    eapply grows_trans; eapply grows_weaken; try eassumption; auto;
      apply good_for_sub; simpl; intros n len Hn;
      apply andb_true_iff in Hn; tauto.
  - assert (Ha : m ic a st k = Some res \/ m ic b st k = Some res).
    { destruct (m ic a st k); [left; assumption | right; assumption]. }
    destruct Ha as [Ha | Hb].
    + apply IHa in Ha. destruct Ha as (st1 & Hk & G).
      exists st1. split; [assumption|]. simpl.
      eapply grows_weaken; [| | |exact G].
      * apply Nat.le_min_l.
      * intros n Hn. apply andb_true_iff in Hn; tauto.
      * apply good_for_sub; simpl; intros n len Hn.
        apply andb_true_iff in Hn; tauto.
    + apply IHb in Hb. destruct Hb as (st1 & Hk & G).
      exists st1. split; [assumption|]. simpl.
      eapply grows_weaken; [| | |exact G].
      * apply Nat.le_min_r.
      * intros n Hn. apply andb_true_iff in Hn; tauto.
      * apply good_for_sub; simpl; intros n len Hn.
        apply andb_true_iff in Hn; tauto.
  - apply (@rep_loop_sound a (m ic a) lo hi greedy k IHa) in H. destruct H as (st1 & Hk & G).
    exists st1. split; [assumption|]. simpl.
    eapply grows_weaken; [| | |exact G].
    + rewrite Nat.sub_0_r. lia.
    + auto.
    + apply good_for_sub; simpl; auto.
  - apply IHa in H. destruct H as (st1 & Hk & [Hp (l & Hc & Hm & Hg)]).
    eexists; split; [exact Hk|]. simpl.
    split; [simpl; lia|].
    exists ((g, (pos st, pos st1)) :: l). simpl. repeat split.
    + rewrite Hc. reflexivity.
    + intros n Hn. apply orb_true_iff in Hn. destruct Hn as [Hn | Hn].
      * left. apply Nat.eqb_eq in Hn. assumption.
      * right. auto.
    + constructor.
      * intros len Hl. simpl in *. rewrite Nat.eqb_refl in Hl. simpl in Hl.
        apply andb_true_iff in Hl. destruct Hl as [Hl _].
        apply Nat.leb_le in Hl. lia.
      * eapply Forall_impl; [|exact Hg].
        apply good_for_sub; simpl; intros n len Hn.
        apply andb_true_iff in Hn; tauto.
  - destruct (at_boundary st); [|discriminate].
    exists st. split; [assumption | apply grows_refl].
  - destruct (Nat.eqb (pos st) 0); [|discriminate].
    exists st. split; [assumption | apply grows_refl].
  - exists st. split; [|apply grows_refl].
    destruct (rest st) as [|x [|y t]]; [assumption | | discriminate].
    destruct (ascii_eqb x newline); [assumption | discriminate].
Qed.

(** ** Match objects *)

(** A match of [r]: at least [minlen r] long, with a span for every
    group that [r] always sets, each span as long as [grp_ok] grants. *)
Definition match_ok (r : regex) (mt : rmatch) : Prop :=
  (m_start mt + minlen r <= m_end mt)%nat
  /\ (forall n, sets n r = true -> exists se, lookup_cap n (m_caps mt) = Some se)
  /\ (forall n s e len,
         lookup_cap n (m_caps mt) = Some (s, e) ->
         grp_ok n len r = true -> (s + len <= e)%nat).

Lemma lookup_cap_In n l se : lookup_cap n l = Some se -> In (n, se) l.
Proof.
  induction l as [|[k v] l IH]; simpl; [discriminate|].
  destruct (Nat.eqb k n) eqn:E.
  - apply Nat.eqb_eq in E. intros H; inversion H; subst. left; reflexivity.
  - intro H. right. auto.
Qed.

Lemma In_lookup_cap n l :
  In n (map fst l) -> exists se, lookup_cap n l = Some se.
Proof.
  induction l as [|[k v] l IH]; simpl; [contradiction|].
  destruct (Nat.eqb k n) eqn:E.
  - intros _. eexists; reflexivity.
  - intros [H | H]; [subst; rewrite Nat.eqb_refl in E; discriminate | auto].
Qed.

Lemma run_ok ic r st st' :
  run ic r st = Some st' ->
  match_ok r (mkMatch (pos st) (pos st') (caps st')).
Proof.
  unfold run. intro H. apply m_sound in H.
  destruct H as (st1 & Hk & [Hp (l & Hc & Hm & Hg)]).
  inversion Hk; subst st1. simpl in *. rewrite app_nil_r in Hc.
  unfold match_ok; simpl. rewrite Hc. repeat split.
  - assumption.
  - intros n Hn. apply In_lookup_cap, Hm, Hn.
  - intros n s e len Hl Hok. apply lookup_cap_In in Hl.
    rewrite Forall_forall in Hg. exact (Hg _ Hl len Hok).
Qed.

Lemma scan_ok ic r s : forall p pv mt st',
  scan ic r p pv s = Some (mt, st') -> match_ok r mt.
Proof.
  induction s as [|x t IH]; intros p pv mt st' H; simpl in H.
  - destruct (run ic r _) as [st1|] eqn:E; [|discriminate].
    inversion H; subst. apply (run_ok _ _ _ E).
  - destruct (run ic r _) as [st1|] eqn:E.
    + inversion H; subst. apply (run_ok _ _ _ E).
    + eapply IH; eassumption.
Qed.

Lemma search_ok ic r s mt : search ic r s = Some mt -> match_ok r mt.
Proof.
  unfold search. destruct (scan ic r 0 None s) as [[mt' st']|] eqn:E;
    simpl; [|discriminate].
  intro H; inversion H; subst. eapply scan_ok; eassumption.
Qed.

Lemma finditer_from_ok ic r : forall fuel p pv s,
  Forall (match_ok r) (finditer_from fuel ic r p pv s).
Proof.
  induction fuel as [|f IH]; intros p pv s; simpl; [constructor|].
  destruct (scan ic r p pv s) as [[mt st']|] eqn:E; [|constructor].
  pose proof (scan_ok _ _ _ _ _ E) as Hok.
  destruct (Nat.ltb (m_start mt) (m_end mt)).
  - constructor; [assumption | apply IH].
  - destruct (rest st'); constructor; try assumption; [constructor | apply IH].
Qed.

Lemma finditer_ok ic r s : Forall (match_ok r) (finditer ic r s).
Proof. apply finditer_from_ok. Qed.

End ReFacts.

(* ================================================================== *)
(** * The confidence aggregator *)
(* ================================================================== *)

Module AggregatorFacts.
Import Processor.

Lemma filledFields_filledCount info : filledFields info = Spec.filledCount info.
Proof.
  unfold filledFields, Spec.filledCount, field_truthy. simpl.
  destruct (participantName info) as [[|? ?]|], (eventName info) as [[|? ?]|],
    (location info) as [[|? ?]|], (date info) as [[|? ?]|]; reflexivity.
Qed.

Lemma averageConfidence_mean entities :
  entities <> [] -> averageConfidence entities = Spec.meanEntityScore entities.
Proof. destruct entities; [congruence | reflexivity]. Qed.

(** On a record that holds an entity the aggregator computes the table
    of the specification. *)
Lemma table_on_entities info :
  extractedEntities info <> [] ->
  _calculateOverallConfidence info
  = Spec.decision_table (Spec.filledCount info)
      (Spec.meanEntityScore (extractedEntities info)).
Proof.
  intro H. unfold _calculateOverallConfidence.
  rewrite filledFields_filledCount, averageConfidence_mean by assumption.
  destruct (extractedEntities info); [congruence | reflexivity].
Qed.

(** Setting the confidence changes neither the fields nor the
    entities that the table reads. *)
Lemma table_ignores_confidence c info :
  Spec.decision_table (Spec.filledCount (set_overallConfidence c info))
    (Spec.meanEntityScore (extractedEntities (set_overallConfidence c info)))
  = Spec.decision_table (Spec.filledCount info)
      (Spec.meanEntityScore (extractedEntities info)).
Proof. reflexivity. Qed.

End AggregatorFacts.

(* ================================================================== *)
(** * The entity merger *)
(* ================================================================== *)

Module MergerFacts.
Import Processor.

Lemma merge_key_eqb_eq (a b : merge_key) : merge_key_eqb a b = true <-> a = b.
Proof.
  unfold merge_key_eqb. destruct a as [t v], b as [t' v']; simpl.
  rewrite andb_true_iff, ResolverFacts.EntityType_eqb_eq,
    ResolverFacts.str_eqb_eq.
  split; [intros [-> ->]; reflexivity | intros H; inversion H; auto].
Qed.

Section Dict.
Variables (K V : Type) (eqb : K -> K -> bool).
Hypothesis eqb_eq : forall a b, eqb a b = true <-> a = b.

Lemma dict_append_keys k v (d : list (K * list V)) x :
  In x (map fst (dict_append eqb k v d)) <-> x = k \/ In x (map fst d).
Proof.
  induction d as [|[k' vs] d IH]; simpl.
  - intuition.
  - destruct (eqb k' k) eqn:E; simpl.
    + apply eqb_eq in E; subst. intuition.
    + rewrite IH. intuition.
Qed.

Lemma dict_append_NoDup k v (d : list (K * list V)) :
  NoDup (map fst d) -> NoDup (map fst (dict_append eqb k v d)).
Proof.
  induction d as [|[k' vs] d IH]; simpl; intro H.
  - repeat constructor. intros [].
  - inversion H as [|? ? Hk Hd]; subst.
    destruct (eqb k' k) eqn:E; simpl.
    + constructor; assumption.
    + constructor; [|auto].
      rewrite dict_append_keys. intros [-> | Hin]; [|contradiction].
      assert (eqb k k = true) by (apply eqb_eq; reflexivity). congruence.
Qed.

(** A property of the groups that holds of a fresh group and survives
    an append holds after [dict_append]. *)
Lemma dict_append_Forall (Q : K -> list V -> Prop) k v
    (d : list (K * list V)) :
  Q k [v] ->
  (forall vs, Q k vs -> Q k (vs ++ [v])) ->
  Forall (fun kv => Q (fst kv) (snd kv)) d ->
  Forall (fun kv => Q (fst kv) (snd kv)) (dict_append eqb k v d).
Proof.
  intros Hnew Happ. induction d as [|[k' vs] d IH]; simpl; intro H.
  - repeat constructor. assumption.
  - inversion H as [|? ? Hkv Hd]; subst. simpl in Hkv.
    destruct (eqb k' k) eqn:E.
    + apply eqb_eq in E; subst. constructor; [simpl; auto | assumption].
    + constructor; [assumption | auto].
Qed.

(** Membership in a group: [v] is filed under [k]. *)
Definition filed (d : list (K * list V)) (k : K) (v : V) : Prop :=
  exists vs, In (k, vs) d /\ In v vs.

Lemma dict_append_filed_new k v (d : list (K * list V)) :
  filed (dict_append eqb k v d) k v.
Proof.
  induction d as [|[k' vs] d IH]; simpl.
  - exists [v]. simpl; auto.
  - destruct (eqb k' k) eqn:E.
    + apply eqb_eq in E; subst. exists (vs ++ [v]). split.
      * left; reflexivity.
      * apply in_or_app; right; left; reflexivity.
    + destruct IH as (vs' & H1 & H2). exists vs'. simpl; auto.
Qed.

Lemma dict_append_filed_old k v (d : list (K * list V)) k0 v0 :
  filed d k0 v0 -> filed (dict_append eqb k v d) k0 v0.
Proof.
  intros (vs0 & Hin & Hv). induction d as [|[k' vs] d IH]; simpl.
  - contradiction.
  - destruct Hin as [Heq | Hin].
    + inversion Heq; subst. destruct (eqb k0 k) eqn:E.
      * exists (vs0 ++ [v]). split; [left; reflexivity|].
        apply in_or_app; left; assumption.
      * exists vs0. split; [left; reflexivity | assumption].
    + destruct (eqb k' k) eqn:E.
      * exists vs0. split; [right; assumption | assumption].
      * destruct (IH Hin) as (vs' & H1 & H2). exists vs'. simpl; auto.
Qed.
End Dict.

(** ** Grouping *)

(** What holds of every group built from the entities of [src]. *)
Definition group_ok (src : list ExtractedEntity) (k : merge_key)
    (vs : list ExtractedEntity) : Prop :=
  vs <> [] /\ forall v, In v vs -> key_of v = k /\ In v src.

Definition grouping (grouped : list (merge_key * list ExtractedEntity))
    (entity : ExtractedEntity) :=
  dict_append merge_key_eqb (key_of entity) entity grouped.

Lemma group_fold src l : forall d,
  incl l src ->
  NoDup (map fst d) ->
  Forall (fun kv => group_ok src (fst kv) (snd kv)) d ->
  let d' := fold_left grouping l d in
  NoDup (map fst d')
  /\ Forall (fun kv => group_ok src (fst kv) (snd kv)) d'
  /\ (forall k v, filed d k v -> filed d' k v)
  /\ (forall e, In e l -> filed d' (key_of e) e).
Proof.
  induction l as [|e l IH]; simpl; intros d Hincl Hnd Hok.
  - repeat split; auto. intros e [].
  - assert (He : In e src) by (apply Hincl; left; reflexivity).
    assert (Hl : incl l src) by (intros x Hx; apply Hincl; right; assumption).
    destruct (IH (grouping d e) Hl) as (H1 & H2 & H3 & H4).
    + apply dict_append_NoDup; [exact merge_key_eqb_eq | assumption].
    + apply dict_append_Forall; [exact merge_key_eqb_eq | | | assumption].
      * split; [discriminate|]. intros v [<- | []]. auto.
      * intros vs [Hne Hvs]. split.
        -- destruct vs; discriminate.
        -- intros v Hv. apply in_app_or in Hv.
           destruct Hv as [Hv | [<- | []]]; auto.
    + repeat split; auto.
      * intros k v Hf. apply H3.
        apply dict_append_filed_old; assumption.
      * intros x [<- | Hx]; [|auto].
        apply H3. apply dict_append_filed_new. exact merge_key_eqb_eq.
Qed.

(** ** The best entity of a group *)

Definition score_of (x : ExtractedEntity) : Z :=
  _confidenceToScore (confidence x).

Lemma max_by_spec (l : list ExtractedEntity) : forall best,
  In (max_by score_of best l) (best :: l)
  /\ forall x, In x (best :: l) -> score_of x <= score_of (max_by score_of best l).
Proof.
  induction l as [|y l IH]; simpl; intros best.
  - split; [left; reflexivity|]. intros x [<- | []]. lia.
  - destruct (score_of best <? score_of y) eqn:E.
    + apply Z.ltb_lt in E. destruct (IH y) as [Hin Hmax]. split.
      * simpl in Hin. tauto.
      * intros x [<- | Hx]; [|auto].
        specialize (Hmax y (or_introl eq_refl)). lia.
    + apply Z.ltb_ge in E. destruct (IH best) as [Hin Hmax]. split.
      * simpl in Hin. tauto.
      * intros x [<- | [<- | Hx]].
        -- apply Hmax. left; reflexivity.
        -- specialize (Hmax best (or_introl eq_refl)). lia.
        -- apply Hmax. right; assumption.
Qed.

Lemma merge_group_spec vs :
  vs <> [] ->
  exists b, merge_group vs = [b] /\ In b vs
    /\ forall x, In x vs -> score_of x <= score_of b.
Proof.
  destruct vs as [|e t]; [congruence|]. intros _.
  exists (max_by score_of e t).
  destruct (max_by_spec t e) as [Hin Hmax].
  repeat split; try assumption.
  destruct t; reflexivity.
Qed.

Lemma merged_of_groups src (d : list (merge_key * list ExtractedEntity)) :
  Forall (fun kv => group_ok src (fst kv) (snd kv)) d ->
  map key_of (flat_map (fun kv => merge_group (snd kv)) d) = map fst d.
Proof.
  induction 1 as [|[k vs] d [Hne Hvs] Hd IH]; simpl; [reflexivity|].
  simpl in *. destruct (merge_group_spec Hne) as (b & -> & Hb & _).
  simpl. rewrite IH. f_equal. apply Hvs; assumption.
Qed.

(** ** The groups

    Two entities belong to one group when they have the same type and
    the same value up to case. *)
Definition same_group (a b : ExtractedEntity) : Prop :=
  entityType a = entityType b /\ lower (value a) = lower (value b).

Lemma key_of_same_group a b : key_of a = key_of b <-> same_group a b.
Proof.
  unfold key_of, same_group. split.
  - intro H. inversion H. split; reflexivity.
  - intros [Ht Hv]. rewrite Ht, Hv. reflexivity.
Qed.

Lemma NoDup_map_eq {A B : Type} (f : A -> B) (l : list A) a b :
  NoDup (map f l) -> In a l -> In b l -> f a = f b -> a = b.
Proof.
  induction l as [|x l IH]; simpl; intros Hnd Ha Hb E; [contradiction|].
  inversion Hnd as [|? ? Hx Hl]; subst.
  destruct Ha as [<- | Ha], Hb as [<- | Hb].
  - reflexivity.
  - exfalso. apply Hx. rewrite E. apply in_map. assumption.
  - exfalso. apply Hx. rewrite <- E. apply in_map. assumption.
  - apply IH; assumption.
Qed.

Lemma merged_keys_NoDup entities :
  NoDup (map key_of (mergeEntities entities)).
Proof.
  assert (Hm : mergeEntities entities
               = flat_map (fun kv => merge_group (snd kv))
                   (group_by_key entities)).
  { destruct entities; reflexivity. }
  rewrite Hm. unfold group_by_key.
  destruct (@group_fold entities entities [] (incl_refl _)
              (NoDup_nil _) (Forall_nil _)) as (Hnd & Hok & _ & _).
  fold grouping.
  rewrite (merged_of_groups Hok). assumption.
Qed.

Lemma merged_from_input entities b :
  In b (mergeEntities entities) -> In b entities.
Proof.
  assert (Hm : mergeEntities entities
               = flat_map (fun kv => merge_group (snd kv))
                   (group_by_key entities)).
  { destruct entities; reflexivity. }
  rewrite Hm. unfold group_by_key.
  destruct (@group_fold entities entities [] (incl_refl _)
              (NoDup_nil _) (Forall_nil _)) as (_ & Hok & _ & _).
  fold grouping.
  intro Hb. apply in_flat_map in Hb. destruct Hb as ([k vs] & Hkv & Hb).
  rewrite Forall_forall in Hok. destruct (Hok _ Hkv) as [Hne Hvs].
  simpl in *. destruct (merge_group_spec Hne) as (b' & E & Hin & _).
  rewrite E in Hb. destruct Hb as [<- | []]. apply Hvs; assumption.
Qed.

Lemma merged_best entities e :
  In e entities ->
  exists b, In b (mergeEntities entities)
    /\ key_of b = key_of e
    /\ _confidenceToScore (confidence e)
       <= _confidenceToScore (confidence b).
Proof.
  assert (Hm : mergeEntities entities
               = flat_map (fun kv => merge_group (snd kv))
                   (group_by_key entities)).
  { destruct entities; reflexivity. }
  rewrite Hm. unfold group_by_key.
  destruct (@group_fold entities entities [] (incl_refl _)
              (NoDup_nil _) (Forall_nil _)) as (_ & Hok & _ & Hall).
  fold grouping.
  intro He. destruct (Hall e He) as (vs & Hkv & Hev).
  rewrite Forall_forall in Hok. destruct (Hok _ Hkv) as [Hne Hvs].
  simpl in *. destruct (merge_group_spec Hne) as (b & E & Hin & Hmax).
  exists b. repeat split.
  - apply in_flat_map. exists (key_of e, vs). split; [assumption|].
    simpl. rewrite E. left; reflexivity.
  - apply Hvs; assumption.
  - apply (Hmax e Hev).
Qed.

(** C7.  The merger partitions its input by type and lower-cased value
    and keeps exactly one entity of every group: every entity it
    returns is an input entity; for every input entity the output
    holds one entity of the same type and the same lower-cased value,
    whose confidence is at least that of every input entity of the
    group, and holds no other entity of that group; and no two places
    of the output have the same type and lower-cased value. *)
Theorem mergeEntities_one_best_per_group (entities : list ExtractedEntity) :
  (forall b, In b (mergeEntities entities) -> In b entities)
  /\ (forall e, In e entities ->
        exists b, In b (mergeEntities entities)
          /\ entityType b = entityType e
          /\ lower (value b) = lower (value e)
          /\ (forall e', In e' entities ->
                entityType e' = entityType e ->
                lower (value e') = lower (value e) ->
                _confidenceToScore (confidence e')
                <= _confidenceToScore (confidence b))
          /\ (forall b', In b' (mergeEntities entities) ->
                entityType b' = entityType e ->
                lower (value b') = lower (value e) ->
                b' = b))
  /\ NoDup (map (fun e => (entityType e, lower (value e)))
              (mergeEntities entities)).
Proof.
  split; [intro b; apply merged_from_input|]. split.
  - intros e He. destruct (merged_best entities e He) as (b & Hb & Hk & _).
    exists b. apply key_of_same_group in Hk. destruct Hk as [Ht Hv].
    split; [exact Hb|]. split; [exact Ht|]. split; [exact Hv|]. split.
    + intros e' He' Ht' Hv'.
      destruct (merged_best entities e' He') as (b' & Hb' & Hk' & Hs').
      assert (b' = b); [|subst b'; exact Hs'].
      apply (NoDup_map_eq key_of (mergeEntities entities));
        [apply merged_keys_NoDup | assumption | assumption |].
      rewrite Hk'. apply key_of_same_group. split; congruence.
    + intros b' Hb' Ht' Hv'.
      apply (NoDup_map_eq key_of (mergeEntities entities));
        [apply merged_keys_NoDup | assumption | assumption |].
      apply key_of_same_group. split; congruence.
  - exact (merged_keys_NoDup entities).
Qed.

Definition dup_low : ExtractedEntity :=
  mkEntity PERSON (L "sarah johnson") LOW 4 17 (L "sarah johnson").
Definition dup_high : ExtractedEntity :=
  mkEntity PERSON (L "Sarah Johnson") HIGH 40 53 (L "Sarah Johnson").
Definition same_name_event : ExtractedEntity :=
  mkEntity EVENT (L "Sarah Johnson") MEDIUM 60 73 (L "Sarah Johnson").

(** Two spellings of one name and an event of the same name: of the
    two persons the HIGH one is kept and the LOW one is dropped. *)
Lemma mergeEntities_one_best_per_group_witness :
  In dup_high (mergeEntities [dup_low; dup_high; same_name_event])
  /\ ~ In dup_low (mergeEntities [dup_low; dup_high; same_name_event]).
Proof.
  destruct (mergeEntities_one_best_per_group
              [dup_low; dup_high; same_name_event]) as (Hin & Hbest & _).
  destruct (Hbest dup_low (or_introl eq_refl))
    as (b & Hb & Ht & Hv & Hmax & Huniq).
  assert (E : b = dup_high).
  { specialize (Hmax dup_high (or_intror (or_introl eq_refl))
                  eq_refl eq_refl).
    destruct (Hin b Hb) as [<- | [<- | [<- | []]]].
    - exfalso. apply Hmax. reflexivity.
    - reflexivity.
    - discriminate Ht. }
  subst b. split; [exact Hb|].
  intro H. specialize (Huniq dup_low H eq_refl eq_refl). discriminate Huniq.
Defined.

End MergerFacts.

(* ================================================================== *)
(** * The context scorer *)
(* ================================================================== *)

Module ScorerFacts.

(** The keyword list of an entity type. *)
Definition keywords_of (t : EntityType) : list str :=
  match t with
  | PERSON => personContextKeywords
  | EVENT => eventContextKeywords
  | LOCATION => locationContextKeywords
  | DATE => dateContextKeywords
  | ORGANIZATION => []
  end.

(** The score is the number of keywords of the entity's type found in
    the lower-cased window
    [text[max(0, start - 50) : min(len(text), end + 50)]]. *)
Lemma _analyzeEntityContext_window (e : ExtractedEntity) (text : str) :
  _analyzeEntityContext e text
  = count_keywords (keywords_of (entityType e))
      (lower (PyStr.slice text (Z.max 0 (startPosition e - 50))
                (Z.min (len text) (endPosition e + 50)))).
Proof. unfold _analyzeEntityContext. destruct (entityType e); reflexivity. Qed.

(** The score does not read the confidence. *)
Lemma _analyzeEntityContext_set_confidence c e text :
  _analyzeEntityContext (set_confidence c e) text = _analyzeEntityContext e text.
Proof. reflexivity. Qed.

Lemma set_confidence_same e : set_confidence (confidence e) e = e.
Proof. destruct e; reflexivity. Qed.

(** One entity: promoted by one tier when the score is positive. *)
Lemma enhance_entity_spec text e :
  enhance_entity text e
  = set_confidence
      (if 0 <? _analyzeEntityContext e text
       then Spec.promote (confidence e) else confidence e) e.
Proof.
  unfold enhance_entity.
  destruct (0 <? _analyzeEntityContext e text);
    [destruct (confidence e) eqn:E; simpl; try reflexivity; rewrite <- E |];
    symmetry; apply set_confidence_same.
Qed.

Lemma promote_not_lower c : Spec.tier_score c <= Spec.tier_score (Spec.promote c).
Proof. destruct c; simpl; lia. Qed.

Lemma enhance_entity_twice text e :
  confidence e <> LOW \/ _analyzeEntityContext e text <= 0 ->
  enhance_entity text (enhance_entity text e) = enhance_entity text e.
Proof.
  intros H. rewrite (enhance_entity_spec text e).
  rewrite enhance_entity_spec, _analyzeEntityContext_set_confidence.
  destruct (0 <? _analyzeEntityContext e text) eqn:E; simpl.
  - apply Z.ltb_lt in E. destruct H as [H | H]; [|lia].
    destruct e as [t v c s en o]; simpl in *.
    destruct c; try reflexivity. exfalso; apply H; reflexivity.
  - destruct e; reflexivity.
Qed.

Lemma enhance_entity_thrice text e :
  enhance_entity text (enhance_entity text (enhance_entity text e))
  = enhance_entity text (enhance_entity text e).
Proof.
  rewrite (enhance_entity_spec text e).
  rewrite !enhance_entity_spec, !_analyzeEntityContext_set_confidence.
  destruct (0 <? _analyzeEntityContext e text); simpl;
    destruct e as [t v c s en o]; simpl; destruct c; reflexivity.
Qed.

(** ** The heap *)

Lemma heap_update_nth h : forall r f r',
  nth_error (heap_update h r f) r'
  = if Nat.eqb r r' then option_map f (nth_error h r') else nth_error h r'.
Proof.
  induction h as [|e h IH]; intros r f r'; simpl.
  - destruct (Nat.eqb r r'), r'; reflexivity.
  - destruct r as [|r], r' as [|r']; simpl; try reflexivity. apply IH.
Qed.

(** Every object is updated once for each of its occurrences in the
    list. *)
Lemma enhance_nth text entities : forall h r,
  nth_error (_enhanceWithContext entities text h) r
  = option_map
      (Nat.iter (count_occ Nat.eq_dec entities r) (enhance_entity text))
      (nth_error h r).
Proof.
  induction entities as [|a t IH]; intros h r; simpl.
  - destruct (nth_error h r); reflexivity.
  - rewrite IH, heap_update_nth.
    destruct (Nat.eq_dec a r) as [->|Hne].
    + rewrite Nat.eqb_refl. destruct (nth_error h r); simpl; [|reflexivity].
      rewrite <- Nat.iter_succ_r. reflexivity.
    + apply Nat.eqb_neq in Hne. rewrite Hne. reflexivity.
Qed.

Lemma count_occ_NoDup entities r :
  NoDup entities ->
  count_occ Nat.eq_dec entities r = if in_dec Nat.eq_dec r entities then 1%nat else 0%nat.
Proof.
  intro Hnd. destruct (in_dec Nat.eq_dec r entities) as [Hin | Hnin].
  - apply NoDup_count_occ'; assumption.
  - apply count_occ_not_In; assumption.
Qed.

(** On the list of all objects of the heap, each once, the scorer is a
    [map]. *)
Lemma enhance_all text h :
  _enhanceWithContext (seq 0 (List.length h)) text h
  = map (enhance_entity text) h.
Proof.
  apply nth_error_ext. intro r.
  rewrite enhance_nth, nth_error_map.
  rewrite count_occ_NoDup by apply seq_NoDup.
  destruct (in_dec Nat.eq_dec r (seq 0 (List.length h))) as [Hin | Hnin].
  - reflexivity.
  - rewrite in_seq in Hnin.
    assert (Hr : (List.length h <= r)%nat) by lia.
    apply nth_error_None in Hr. rewrite Hr. reflexivity.
Qed.

Definition low_person : ExtractedEntity :=
  mkEntity PERSON (L "Omar Farouk") LOW 0 11 (L "Omar Farouk").
Definition low_person_text : str := L "Omar Farouk registered yesterday.".

(** The second application promotes again: LOW became MEDIUM, and
    MEDIUM becomes HIGH. *)
Lemma scorer_second_pass_counterexample :
  _enhanceWithContext [0%nat] low_person_text
    (_enhanceWithContext [0%nat] low_person_text [low_person])
  <> _enhanceWithContext [0%nat] low_person_text [low_person].
Proof. vm_compute. discriminate. Qed.

(** A list that holds the same object twice promotes it twice in one
    application. *)
Remark scorer_aliasing :
  _enhanceWithContext [0%nat; 0%nat] low_person_text [low_person]
  = [set_confidence HIGH low_person].
Proof. vm_compute. reflexivity. Qed.

(** C5 (amended).  For every text, heap and list of distinct entity
    objects: an application of the scorer changes nothing but
    confidences; a listed entity whose keyword count is positive is
    promoted by exactly one tier (LOW to MEDIUM, MEDIUM to HIGH, HIGH
    stays), any other entity keeps its confidence, and no confidence is
    lowered.  A second application changes no entity but those that were
    LOW with a positive count before the first, and a third application
    changes nothing. *)
Theorem scorer_promotes_one_tier (text : str) (h : heap) (entities : list ref) :
  NoDup entities ->
  let once := _enhanceWithContext entities text h in
  let twice := _enhanceWithContext entities text once in
  (forall r e, nth_error h r = Some e ->
     exists e',
       nth_error once r = Some e'
       /\ e' = set_confidence (confidence e') e
       /\ (In r entities -> 0 < _analyzeEntityContext e text ->
           confidence e' = Spec.promote (confidence e))
       /\ (~ In r entities \/ _analyzeEntityContext e text <= 0 ->
           confidence e' = confidence e)
       /\ Spec.tier_score (confidence e) <= Spec.tier_score (confidence e'))
  /\ (forall r e, nth_error h r = Some e ->
        confidence e <> LOW \/ _analyzeEntityContext e text <= 0 ->
        nth_error twice r = nth_error once r)
  /\ _enhanceWithContext entities text twice = twice.
Proof.
  intros Hnd once twice. subst once twice. repeat split.
  - intros r e Hr. rewrite enhance_nth, Hr, count_occ_NoDup by assumption.
    destruct (in_dec Nat.eq_dec r entities) as [Hin | Hnin]; simpl.
    + exists (enhance_entity text e). rewrite enhance_entity_spec. simpl.
      repeat split.
      * intros _ Hpos. apply Z.ltb_lt in Hpos. rewrite Hpos. reflexivity.
      * intros [Hn | Hz]; [contradiction|].
        apply Z.ltb_ge in Hz. rewrite Hz. reflexivity.
      * destruct (0 <? _analyzeEntityContext e text);
          [apply promote_not_lower | lia].
    + exists e. repeat split.
      * symmetry; apply set_confidence_same.
      * intros Hin; contradiction.
      * lia.
  - intros r e Hr Hc. rewrite !enhance_nth, Hr, count_occ_NoDup by assumption.
    destruct (in_dec Nat.eq_dec r entities); simpl; [|reflexivity].
    rewrite enhance_entity_twice by assumption. reflexivity.
  - apply nth_error_ext. intro r.
    rewrite !enhance_nth, count_occ_NoDup by assumption.
    destruct (in_dec Nat.eq_dec r entities); simpl;
      destruct (nth_error h r); simpl; try reflexivity.
    rewrite enhance_entity_thrice. reflexivity.
Qed.

Lemma scorer_promotes_one_tier_witness :
  _enhanceWithContext [0%nat] low_person_text
    (_enhanceWithContext [0%nat] low_person_text
       (_enhanceWithContext [0%nat] low_person_text [low_person]))
  = _enhanceWithContext [0%nat] low_person_text
      (_enhanceWithContext [0%nat] low_person_text [low_person]).
Proof.
  apply (proj2 (proj2 (@scorer_promotes_one_tier low_person_text [low_person]
                         [0%nat] (NoDup_cons 0%nat (@in_nil nat 0%nat)
                                    (NoDup_nil nat))))).
Defined.

End ScorerFacts.

(* ================================================================== *)
(** * The fallback pass *)
(* ================================================================== *)

Module FallbackFacts.
Import Processor.

(** A pattern whose group 1 takes part in every match. *)
Definition has_group1 (p : pattern) : bool := sets 1 (snd p).

Lemma search_group1_total (p : pattern) (text : str) :
  has_group1 p = true -> exists v, search_group1 p text = Ok v.
Proof.
  unfold has_group1, search_group1. intro Hp.
  destruct (search (fst p) (snd p) text) as [mt|] eqn:E.
  - apply ReFacts.search_ok in E. destruct E as (_ & Hsets & _).
    destruct (Hsets 1%nat Hp) as ([a b] & Hse).
    unfold group1, span. rewrite Hse. simpl. eexists; reflexivity.
  - eexists; reflexivity.
Qed.

Lemma fallback_loop_total patterns clean validate format text :
  forallb has_group1 patterns = true ->
  exists v, fallback_loop patterns clean validate format text = Ok v.
Proof.
  induction patterns as [|p t IH]; simpl; intro H.
  - eexists; reflexivity.
  - apply andb_true_iff in H. destruct H as [Hp Ht].
    destruct (search_group1_total p text Hp) as (found & ->). simpl.
    destruct found as [v|]; [|auto].
    destruct (validate (clean v)); [eexists; reflexivity | auto].
Qed.

Lemma _extractNameFallback_total text :
  exists v, _extractNameFallback text = Ok v.
Proof. apply fallback_loop_total. vm_compute. reflexivity. Qed.

Lemma _extractEventFallback_total text :
  exists v, _extractEventFallback text = Ok v.
Proof. apply fallback_loop_total. vm_compute. reflexivity. Qed.

Lemma _extractLocationFallback_total text :
  exists v, _extractLocationFallback text = Ok v.
Proof. apply fallback_loop_total. vm_compute. reflexivity. Qed.

Lemma _extractDateFallback_total text :
  exists v, _extractDateFallback text = Ok v.
Proof. apply fallback_loop_total. vm_compute. reflexivity. Qed.

(** What was set before the fallback pass is kept by it. *)
Lemma postprocess_set_fields (info : EventRegistrationInfo)
    (originalText : str) :
  exists info',
    _postProcessInformation info originalText = Ok info'
    /\ (field_truthy (participantName info) = true ->
        participantName info' = participantName info)
    /\ (field_truthy (eventName info) = true ->
        eventName info' = eventName info)
    /\ (field_truthy (location info) = true ->
        location info' = location info)
    /\ (field_truthy (date info) = true -> date info' = date info).
Proof.
  unfold _postProcessInformation.
  destruct (_extractNameFallback_total originalText) as (n & Hn).
  destruct (_extractEventFallback_total originalText) as (ev & Hev).
  destruct (_extractLocationFallback_total originalText) as (lo & Hlo).
  destruct (_extractDateFallback_total originalText) as (da & Hda).
  rewrite Hn, Hev, Hlo, Hda.
  destruct info as [pn en ln dn es ot oc]; simpl.
  destruct (field_truthy pn) eqn:E1; simpl;
    destruct (field_truthy en) eqn:E2; simpl;
    destruct (field_truthy ln) eqn:E3; simpl;
    destruct (field_truthy dn) eqn:E4; simpl;
    eexists; (split; [reflexivity|]); simpl;
    repeat split; intros; try reflexivity; try discriminate.
Qed.

(** C8.  The fallback pass returns, and in the record it returns every
    one of the four fields that was set (a non-empty string) before the
    pass has the value it had; a field that was not set has the value
    of its fallback extractor on the original text.  So a field is
    given a value by the primary pass or by the fallback pass, never by
    both. *)
Theorem postprocess_keeps_set_fields (info : EventRegistrationInfo)
    (originalText : str) :
  exists info',
    _postProcessInformation info originalText = Ok info'
    /\ (field_truthy (participantName info) = true ->
        participantName info' = participantName info)
    /\ (field_truthy (eventName info) = true ->
        eventName info' = eventName info)
    /\ (field_truthy (location info) = true ->
        location info' = location info)
    /\ (field_truthy (date info) = true -> date info' = date info)
    /\ (field_truthy (participantName info) = false ->
        _extractNameFallback originalText = Ok (participantName info'))
    /\ (field_truthy (eventName info) = false ->
        _extractEventFallback originalText = Ok (eventName info'))
    /\ (field_truthy (location info) = false ->
        _extractLocationFallback originalText = Ok (location info'))
    /\ (field_truthy (date info) = false ->
        _extractDateFallback originalText = Ok (date info')).
Proof.
  unfold _postProcessInformation.
  destruct (_extractNameFallback_total originalText) as (n & Hn).
  destruct (_extractEventFallback_total originalText) as (ev & Hev).
  destruct (_extractLocationFallback_total originalText) as (lo & Hlo).
  destruct (_extractDateFallback_total originalText) as (da & Hda).
  rewrite Hn, Hev, Hlo, Hda.
  destruct info as [pn en ln dn es ot oc]; simpl.
  destruct (field_truthy pn) eqn:E1; simpl;
    destruct (field_truthy en) eqn:E2; simpl;
    destruct (field_truthy ln) eqn:E3; simpl;
    destruct (field_truthy dn) eqn:E4; simpl;
    eexists; (split; [reflexivity|]); simpl;
    repeat split; intros; try reflexivity; try discriminate.
Qed.

(** The same for the whole of [processExtractedEntities]: what the
    primary pass has set is what the caller gets. *)
Corollary processExtractedEntities_primary_wins current_year entities text :
  exists info',
    processExtractedEntities current_year entities text = Ok info'
    /\ let primary := primary_pass current_year entities text in
       entities <> [] ->
       (field_truthy (participantName primary) = true ->
        participantName info' = participantName primary)
       /\ (field_truthy (eventName primary) = true ->
           eventName info' = eventName primary)
       /\ (field_truthy (location primary) = true ->
           location info' = location primary)
       /\ (field_truthy (date primary) = true -> date info' = date primary).
Proof.
  unfold processExtractedEntities. destruct entities as [|e l].
  - eexists; split; [reflexivity|]. intros H; congruence.
  - destruct (postprocess_set_fields
                (primary_pass current_year (e :: l) text) text)
      as (info' & Hp & H1 & H2 & H3 & H4).
    exists info'. split; [assumption|]. intros _. tauto.
Qed.

Definition date_only : EventRegistrationInfo :=
  mkInfo None None None (Some (L "March 15, 2025")) [] [] UNKNOWN.

(** A record whose date is set keeps it, whatever the text offers. *)
Lemma postprocess_keeps_set_fields_witness :
  exists info',
    _postProcessInformation date_only (L "Date: April 1, 2030") = Ok info'
    /\ date info' = Some (L "March 15, 2025").
Proof.
  destruct (postprocess_keeps_set_fields date_only (L "Date: April 1, 2030"))
    as (info' & Hp & _ & _ & _ & Hd & _).
  exists info'. split; [exact Hp | exact (Hd eq_refl)].
Defined.

End FallbackFacts.

(* ================================================================== *)
(** * The candidate generator *)
(* ================================================================== *)

Module ExtractorFacts.

(** What the specification asks of every entity the generator returns. *)
Definition well_formed (e : ExtractedEntity) : Prop :=
  startPosition e < endPosition e
  /\ value e <> []
  /\ In (confidence e) [HIGH; MEDIUM; LOW; UNKNOWN].

Lemma confidence_valid c : In c [HIGH; MEDIUM; LOW; UNKNOWN].
Proof. destruct c; simpl; tauto. Qed.

Lemma ExtractedEntity__Ok t v c s e o x :
  ExtractedEntity_ t v c s e o = Ok x -> x = mkEntity t v c s e o /\ v <> [].
Proof.
  unfold ExtractedEntity_, new_ExtractedEntity; simpl.
  destruct (negb (truthy v) || negb (truthy (strip v))) eqn:Ev; [discriminate|].
  destruct ((s <? 0) || (e <? s)); [discriminate|].
  intro H; inversion H; subst. split; [reflexivity|].
  apply DataModelFacts.value_test_not_blank in Ev.
  intros ->. apply Ev. constructor.
Qed.

(** The body of the inner loops: at most one entity, built on the span
    [s], [e]. *)
Lemma emit_well_formed (cond : bool) t v c s e o ys :
  s < e ->
  (if cond then entity <- ExtractedEntity_ t v c s e o ;; Ok [entity]
   else Ok []) = Ok ys ->
  Forall well_formed ys.
Proof.
  intros Hse H. destruct cond.
  - destruct (ExtractedEntity_ t v c s e o) as [exc|x] eqn:E; [discriminate|].
    simpl in H. inversion H; subst.
    apply ExtractedEntity__Ok in E. destruct E as [-> Hv].
    constructor; [|constructor].
    unfold well_formed; simpl.
    repeat split; try assumption. apply (confidence_valid c).
  - inversion H; subst. constructor.
Qed.

Lemma for_each_Forall {A B : Type} (P : B -> Prop) (l : list A)
    (body : A -> result (list B)) :
  forall out,
    (forall x ys, In x l -> body x = Ok ys -> Forall P ys) ->
    for_each l body = Ok out -> Forall P out.
Proof.
  induction l as [|x t IH]; simpl; intros out Hbody H.
  - inversion H; subst. constructor.
  - destruct (body x) as [exc|ys] eqn:Ex; [discriminate|]. simpl in H.
    destruct (for_each t body) as [exc|zs] eqn:Et; [discriminate|].
    simpl in H. inversion H; subst. apply Forall_app. split.
    + eapply Hbody; [left; reflexivity | eassumption].
    + apply IH; [|reflexivity]. intros y ws Hy. apply Hbody. right; assumption.
Qed.

(** ** Spans of the matches *)

Definition nonempty_match (p : pattern) : bool := Nat.leb 1 (minlen (snd p)).
Definition nonempty_group1 (p : pattern) : bool := grp_ok 1 1 (snd p).

Lemma finditer_span (p : pattern) (text : str) (mt : rmatch) :
  nonempty_match p = true ->
  In mt (re_finditer p text) -> start0 mt < end0 mt.
Proof.
  unfold nonempty_match, re_finditer, start0, end0. intros Hp Hin.
  apply Nat.leb_le in Hp.
  pose proof (ReFacts.finditer_ok (fst p) (snd p) text) as Hok.
  rewrite Forall_forall in Hok. destruct (Hok mt Hin) as (Hlen & _). lia.
Qed.

Lemma group1_span (p : pattern) (text : str) (mt : rmatch) g :
  nonempty_group1 p = true ->
  In mt (re_finditer p text) ->
  group1 mt text = Ok g ->
  Z.of_nat (fst (snd g)) < Z.of_nat (snd (snd g)).
Proof.
  unfold nonempty_group1, re_finditer, group1, span. intros Hp Hin Hg.
  pose proof (ReFacts.finditer_ok (fst p) (snd p) text) as Hok.
  rewrite Forall_forall in Hok. destruct (Hok mt Hin) as (_ & _ & Hgrp).
  destruct (lookup_cap 1 (m_caps mt)) as [[a b]|] eqn:E; [|discriminate].
  inversion Hg; subst; simpl.
  specialize (Hgrp 1%nat a b 1%nat E Hp). lia.
Qed.

Lemma forallb_In {A : Type} (f : A -> bool) l x :
  forallb f l = true -> In x l -> f x = true.
Proof. intros H Hin. rewrite forallb_forall in H. auto. Qed.

(** ** The four generators *)

Lemma _extractPersonNamesFromContext_wf text out :
  _extractPersonNamesFromContext text = Ok out -> Forall well_formed out.
Proof.
  unfold _extractPersonNamesFromContext.
  assert (H : forallb (fun cp =>
                nonempty_group1
                  (re_compile (cp ++ "([A-Z][a-z]+(?:\s+[A-Z][a-z]+)*)")
                     IGNORECASE)) personNameContext = true)
    by (vm_compute; reflexivity).
  apply for_each_Forall. intros cp ys Hcp.
  apply for_each_Forall. intros mt zs Hmt Hbody.
  destruct (group1 mt text) as [exc|g] eqn:Eg; [discriminate|].
  simpl in Hbody. eapply emit_well_formed; [|exact Hbody].
  eapply group1_span; [|exact Hmt|exact Eg].
  exact (forallb_In _ _ _ H Hcp).
Qed.

Lemma _extractPersonNames_wf text out :
  _extractPersonNames text = Ok out -> Forall well_formed out.
Proof.
  unfold _extractPersonNames. intro H.
  destruct (for_each personNames _) as [exc|ys] eqn:E1; [discriminate|].
  simpl in H.
  destruct (_extractPersonNamesFromContext text) as [exc|zs] eqn:E2;
    [discriminate|].
  simpl in H. inversion H; subst. apply Forall_app. split.
  - revert E1. apply for_each_Forall. intros p ws Hp.
    apply for_each_Forall. intros mt vs Hmt.
    apply emit_well_formed. apply (finditer_span p text); [|assumption].
    assert (Hall : forallb nonempty_match personNames = true)
      by (vm_compute; reflexivity).
    exact (forallb_In _ _ _ Hall Hp).
  - apply _extractPersonNamesFromContext_wf with (text := text); assumption.
Qed.

Lemma _extractEventNamesFromContext_wf text out :
  _extractEventNamesFromContext text = Ok out -> Forall well_formed out.
Proof.
  unfold _extractEventNamesFromContext.
  assert (H : forallb (fun verb =>
                nonempty_group1
                  (re_compile ("\b" ++ verb ++ "\s+(?:for\s+)?(?:the\s+)?([A-Z][^.!?]*?(?:conference|summit|workshop|meetup|expo|convention|symposium))")
                     IGNORECASE)) registrationVerbs = true)
    by (vm_compute; reflexivity).
  apply for_each_Forall. intros verb ys Hverb.
  apply for_each_Forall. intros mt zs Hmt Hbody.
  destruct (group1 mt text) as [exc|g] eqn:Eg; [discriminate|].
  simpl in Hbody. eapply emit_well_formed; [|exact Hbody].
  eapply group1_span; [|exact Hmt|exact Eg].
  exact (forallb_In _ _ _ H Hverb).
Qed.

Lemma _extractEventNames_wf text out :
  _extractEventNames text = Ok out -> Forall well_formed out.
Proof.
  unfold _extractEventNames. intro H.
  destruct (for_each eventPatterns _) as [exc|ys] eqn:E1; [discriminate|].
  simpl in H.
  destruct (_extractEventNamesFromContext text) as [exc|zs] eqn:E2;
    [discriminate|].
  simpl in H. inversion H; subst. apply Forall_app. split.
  - revert E1. apply for_each_Forall. intros p ws Hp.
    apply for_each_Forall. intros mt vs Hmt.
    apply emit_well_formed. apply (finditer_span p text); [|assumption].
    assert (Hall : forallb nonempty_match eventPatterns = true)
      by (vm_compute; reflexivity).
    exact (forallb_In _ _ _ Hall Hp).
  - apply _extractEventNamesFromContext_wf with (text := text); assumption.
Qed.

Lemma _extractLocations_wf text out :
  _extractLocations text = Ok out -> Forall well_formed out.
Proof.
  unfold _extractLocations.
  apply for_each_Forall. intros p ws Hp.
  apply for_each_Forall. intros mt vs Hmt.
  apply emit_well_formed. apply (finditer_span p text); [|assumption].
  assert (Hall : forallb nonempty_match locationPatterns = true)
    by (vm_compute; reflexivity).
  exact (forallb_In _ _ _ Hall Hp).
Qed.

Lemma _extractDates_wf text out :
  _extractDates text = Ok out -> Forall well_formed out.
Proof.
  unfold _extractDates.
  apply for_each_Forall. intros p ws Hp.
  apply for_each_Forall. intros mt vs Hmt.
  apply emit_well_formed. apply (finditer_span p text); [|assumption].
  assert (Hall : forallb nonempty_match datePatterns = true)
    by (vm_compute; reflexivity).
  exact (forallb_In _ _ _ Hall Hp).
Qed.

(** ** The resolver and the scorer keep what they are given *)

Lemma resolve_fold_In l : forall cleaned x,
  In x (fold_left resolve_step l cleaned) -> In x cleaned \/ In x l.
Proof.
  induction l as [|e l IH]; simpl; intros cleaned x H; [auto|].
  apply IH in H. destruct H as [H | H]; [|auto].
  apply ResolverFacts.resolve_step_In in H. intuition.
Qed.

Lemma resolver_In entities x :
  In x (_removeDuplicatesAndOverlaps entities) -> In x entities.
Proof.
  unfold _removeDuplicatesAndOverlaps. destruct entities as [|e l]; [auto|].
  intro H. apply resolve_fold_In in H. destruct H as [[] | H].
  apply (proj1 (ResolverFacts.sort_by_start_In _ _)) in H. assumption.
Qed.

Lemma enhance_entity_wf text e :
  well_formed e -> well_formed (enhance_entity text e).
Proof.
  rewrite ScorerFacts.enhance_entity_spec. unfold well_formed. simpl.
  intros (H1 & H2 & _). repeat split; try assumption.
  apply confidence_valid.
Qed.

Lemma extract_body_wf text out :
  extract_body text = Ok out -> Forall well_formed out.
Proof.
  unfold extract_body. intro H.
  destruct (_extractPersonNames text) as [exc|ps] eqn:E1; [discriminate|].
  destruct (_extractEventNames text) as [exc|es] eqn:E2; [discriminate|].
  destruct (_extractLocations text) as [exc|ls] eqn:E3; [discriminate|].
  destruct (_extractDates text) as [exc|ds] eqn:E4; [discriminate|].
  simpl in H. inversion H; subst. clear H.
  rewrite ScorerFacts.enhance_all.
  apply Forall_forall. intros x Hx. apply in_map_iff in Hx.
  destruct Hx as (e & <- & He). apply enhance_entity_wf.
  apply resolver_In in He.
  apply _extractPersonNames_wf in E1. apply _extractEventNames_wf in E2.
  apply _extractLocations_wf in E3. apply _extractDates_wf in E4.
  rewrite Forall_forall in *.
  repeat (apply in_app_or in He; destruct He as [He | He]); auto.
Qed.

(** C6.  [extractEntities] is a total function of the extractor's state
    and the text: no exception leaves it.  Every entity it returns has
    [start < end], a non-empty value and one of the four confidence
    tiers, and for an empty or whitespace-only text it returns the
    empty list.  Its [try ... except Exception] turns a failure of the
    statements it encloses, whatever they are and whatever exception
    they raise, into the empty list and the error string
    ["Extraction error: " + str(exc)] in [_lastError], with the run
    counted and no success counted; [extractEntities] is this handler
    around [extract_body]. *)
Theorem extractEntities_total_well_formed (self : ExtractorState) (text : str) :
  Forall well_formed (fst (extractEntities self text))
  /\ (DataModelFacts.blank text -> fst (extractEntities self text) = [])
  /\ (forall body exc,
        ~ DataModelFacts.blank text ->
        body text = inl exc ->
        extractEntities_around body self text
        = ([], mkExtractor
                 (Some ("Extraction error: " ++ exn_message exc)%string)
                 (_extractionCount self + 1) (_successfulExtractions self)))
  /\ extractEntities self text = extractEntities_around extract_body self text.
Proof.
  split; [|split; [|split; [|reflexivity]]].
  - unfold extractEntities, extractEntities_around.
    destruct (negb (truthy text) || negb (truthy (strip text))) eqn:Eb;
      [constructor|].
    apply DataModelFacts.value_test_not_blank in Eb.
    destruct (extract_body text) as [exc|out] eqn:E; cbn [fst];
      [constructor|].
    apply extract_body_wf with (text := text); assumption.
  - intro Hb. unfold extractEntities, extractEntities_around.
    destruct (negb (truthy text) || negb (truthy (strip text))) eqn:Eb;
      [reflexivity|].
    apply DataModelFacts.value_test_not_blank in Eb. contradiction.
  - intros body exc Hnb Hexc. unfold extractEntities_around.
    destruct (negb (truthy text) || negb (truthy (strip text))) eqn:Eb.
    + apply DataModelFacts.value_test_blank in Eb. contradiction.
    + rewrite Hexc. reflexivity.
Qed.

(** Statements that fail: they build an entity with an empty value,
    which the constructor refuses. *)
Definition failing_body (text : str) : result (list ExtractedEntity) :=
  entity <- ExtractedEntity_ PERSON [] HIGH 0 1 text ;;
  Ok [entity].

Lemma not_blank_Ann : ~ DataModelFacts.blank (L "Ann").
Proof. intro H; inversion H; discriminate. Qed.

(** The failure is recorded, not raised. *)
Lemma extractEntities_total_well_formed_witness :
  extractEntities_around failing_body (mkExtractor None 0 0) (L "Ann")
  = ([], mkExtractor
           (Some "Extraction error: Entity value cannot be empty"%string)
           1 0).
Proof.
  apply (proj1 (proj2 (proj2 (extractEntities_total_well_formed
                                (mkExtractor None 0 0) (L "Ann"))))
           failing_body (ValueError "Entity value cannot be empty")).
  - exact not_blank_Ann.
  - reflexivity.
Defined.

End ExtractorFacts.

(* ================================================================== *)
(** * The pipeline on the sample sentence *)
(* ================================================================== *)

Module PipelineFacts.
Import Engine.

Definition sample_text : str :=
  L "Dr. Sarah Johnson registered for the International AI Conference 2025 taking place in San Francisco, California on March 15, 2025.".

(** [sub in field] for an optional field; an unset field contains
    nothing. *)
Definition field_contains (f : option str) (sub : string) : bool :=
  match f with
  | Some s => contains (L sub) s
  | None => false
  end.

(** The text the extractor is given: lower-cased, with the keyword
    markers of the preprocessor. *)
Lemma sample_preprocessed :
  _preprocessText sample_text
  = L "dr. sarah johnson [REG_ACTION]registered[/REG_ACTION] for the international ai [EVENT_TYPE]conference[/EVENT_TYPE] 2025 taking place in san francisco, california on mar 15, 2025.".
Proof. vm_compute. reflexivity. Qed.

(** The entities found in it: a person and a date, no event and no
    location. *)
Lemma sample_entities (extractor : ExtractorState) :
  fst (_extractEntities extractor (_preprocessText sample_text))
  = [mkEntity PERSON (L "sarah johnson") HIGH 4 17 (L "sarah johnson");
     mkEntity DATE (L "mar 15, 2025") HIGH 162 177 (L "on mar 15, 2025")].
Proof. vm_compute. reflexivity. Qed.

(** The sample sentence yields no event name, so the event name
    contains neither "Conference" nor "2025". *)
Lemma pipeline_sample_counterexample :
  ~ (let info :=
       registrationInfo
         (fst (extractInformation 2025 (mkExtractor None 0 0) sample_text)) in
     field_contains (participantName info) "Sarah Johnson" = true
     /\ field_contains (eventName info) "Conference" = true
     /\ field_contains (eventName info) "2025" = true
     /\ field_contains (location info) "San Francisco" = true
     /\ date info = Some (L "March 15, 2025")
     /\ overallConfidence info = HIGH).
Proof.
  intros (_ & H & _). vm_compute in H. discriminate.
Qed.

(** C2 (amended).  For the sample sentence, in whatever year and
    whatever the state of the extractor, the pipeline produces a record
    whose participantName contains "Sarah Johnson", whose location
    contains "San Francisco", whose date equals "March 15, 2025" and
    whose overallConfidence is HIGH. *)
Theorem pipeline_sample (current_year : Z) (extractor : ExtractorState) :
  let info :=
    registrationInfo
      (fst (extractInformation current_year extractor sample_text)) in
  field_contains (participantName info) "Sarah Johnson" = true
  /\ field_contains (location info) "San Francisco" = true
  /\ date info = Some (L "March 15, 2025")
  /\ overallConfidence info = HIGH.
Proof.
  vm_compute. repeat split; reflexivity.
Qed.

(** The values of the record in full. *)
Lemma pipeline_sample_fields (current_year : Z) (extractor : ExtractorState) :
  let info :=
    registrationInfo
      (fst (extractInformation current_year extractor sample_text)) in
  participantName info = Some (L "Sarah Johnson")
  /\ eventName info = None
  /\ location info = Some (L "San Francisco, California On March")
  /\ date info = Some (L "March 15, 2025").
Proof.
  vm_compute. repeat split; reflexivity.
Qed.

End PipelineFacts.

(* ================================================================== *)
(** * Properties of the string functions *)
(* ================================================================== *)

Module StrFacts.

(** ** Characters *)

Ltac by_cases_on c :=
  destruct c as [[] [] [] [] [] [] [] []]; reflexivity.

Lemma to_upper_idem c : to_upper (to_upper c) = to_upper c.
Proof. by_cases_on c. Qed.
Lemma to_lower_idem c : to_lower (to_lower c) = to_lower c.
Proof. by_cases_on c. Qed.
Lemma to_upper_lower c : to_upper (to_lower c) = to_upper c.
Proof. by_cases_on c. Qed.
Lemma to_lower_upper c : to_lower (to_upper c) = to_lower c.
Proof. by_cases_on c. Qed.
Lemma is_space_upper c : is_space (to_upper c) = is_space c.
Proof. by_cases_on c. Qed.
Lemma is_space_lower c : is_space (to_lower c) = is_space c.
Proof. by_cases_on c. Qed.
Lemma dot_upper c : ascii_eqb "." (to_upper c) = ascii_eqb "." c.
Proof. by_cases_on c. Qed.
Lemma comma_upper c : ascii_eqb "," (to_upper c) = ascii_eqb "," c.
Proof. by_cases_on c. Qed.
Lemma comma_lower c : ascii_eqb "," (to_lower c) = ascii_eqb "," c.
Proof. by_cases_on c. Qed.
Lemma comma_upper' c : ascii_eqb (to_upper c) "," = ascii_eqb c ",".
Proof. by_cases_on c. Qed.
Lemma comma_lower' c : ascii_eqb (to_lower c) "," = ascii_eqb c ",".
Proof. by_cases_on c. Qed.

(** ** Case functions on strings *)

Lemma lower_idem s : lower (lower s) = lower s.
Proof.
  unfold lower. rewrite map_map. apply map_ext. apply to_lower_idem.
Qed.
Lemma upper_idem s : upper (upper s) = upper s.
Proof.
  unfold upper. rewrite map_map. apply map_ext. apply to_upper_idem.
Qed.
Lemma lower_upper s : lower (upper s) = lower s.
Proof.
  unfold lower, upper. rewrite map_map. apply map_ext. apply to_lower_upper.
Qed.
Lemma upper_lower s : upper (lower s) = upper s.
Proof.
  unfold lower, upper. rewrite map_map. apply map_ext. apply to_upper_lower.
Qed.
Lemma capitalize_idem s : capitalize (capitalize s) = capitalize s.
Proof.
  destruct s as [|c r]; simpl; [reflexivity|].
  rewrite to_upper_idem, lower_idem. reflexivity.
Qed.
Lemma lower_capitalize s : lower (capitalize s) = lower s.
Proof.
  destruct s as [|c r]; simpl; [reflexivity|].
  rewrite to_lower_upper, lower_idem. reflexivity.
Qed.
Lemma upper_capitalize s : upper (capitalize s) = upper s.
Proof.
  destruct s as [|c r]; simpl; [reflexivity|].
  rewrite to_upper_idem, upper_lower. reflexivity.
Qed.

Lemma dot_lower c : ascii_eqb "." (to_lower c) = ascii_eqb "." c.
Proof. by_cases_on c. Qed.

Lemma has_char_cons x c s : has_char x (c :: s) = ascii_eqb x c || has_char x s.
Proof. reflexivity. Qed.

Lemma has_char_app x a b : has_char x (a ++ b) = has_char x a || has_char x b.
Proof. unfold has_char. apply existsb_app. Qed.

Lemma has_char_map x (f : ascii -> ascii) s :
  (forall c, ascii_eqb x (f c) = ascii_eqb x c) ->
  has_char x (map f s) = has_char x s.
Proof.
  intro Hf. induction s as [|c r IH]; [reflexivity|].
  cbn [map]. rewrite !has_char_cons, Hf, IH. reflexivity.
Qed.

Lemma has_dot_upper s : has_char "." (upper s) = has_char "." s.
Proof. apply has_char_map, dot_upper. Qed.

Lemma has_dot_capitalize s : has_char "." (capitalize s) = has_char "." s.
Proof.
  destruct s as [|c r]; [reflexivity|]. cbn [capitalize].
  rewrite !has_char_cons, dot_upper. f_equal. apply has_char_map, dot_lower.
Qed.

Lemma has_comma_capitalize s : has_char "," (capitalize s) = has_char "," s.
Proof.
  destruct s as [|c r]; [reflexivity|]. cbn [capitalize].
  rewrite !has_char_cons, comma_upper. f_equal. apply has_char_map, comma_lower.
Qed.

(** ** Words *)

Definition no_space (s : str) : Prop := Forall (fun c => is_space c = false) s.

(** A word of [str.split()]: not empty, no whitespace. *)
Definition wordlike (w : str) : Prop := w <> [] /\ no_space w.

Lemma no_space_rev s : no_space (rev s) <-> no_space s.
Proof.
  unfold no_space. rewrite !Forall_forall. split; intros H x Hx; apply H.
  - apply (proj1 (in_rev s x)); assumption.
  - apply (proj2 (in_rev s x)); assumption.
Qed.

Lemma no_space_map (f : ascii -> ascii) s :
  (forall c, is_space (f c) = is_space c) -> no_space s -> no_space (map f s).
Proof.
  intros Hf H. unfold no_space in *. rewrite Forall_forall in *.
  intros x Hx. apply in_map_iff in Hx. destruct Hx as (c & <- & Hc).
  rewrite Hf. auto.
Qed.

Lemma wordlike_lower w : wordlike w -> wordlike (lower w).
Proof.
  intros [Hne Hns]. split.
  - destruct w; [congruence | discriminate].
  - apply no_space_map; [apply is_space_lower | assumption].
Qed.

Lemma wordlike_upper w : wordlike w -> wordlike (upper w).
Proof.
  intros [Hne Hns]. split.
  - destruct w; [congruence | discriminate].
  - apply no_space_map; [apply is_space_upper | assumption].
Qed.

Lemma wordlike_capitalize w : wordlike w -> wordlike (capitalize w).
Proof.
  intros [Hne Hns]. destruct w as [|c r]; [congruence|]. split; [discriminate|].
  inversion Hns; subst. constructor.
  - rewrite is_space_upper. assumption.
  - apply (@no_space_map to_lower r is_space_lower). assumption.
Qed.

(** ** [split] *)

Lemma split_aux_words s : forall acc,
  no_space acc -> Forall wordlike (split_aux s acc).
Proof.
  induction s as [|c r IH]; simpl; intros acc Hacc.
  - destruct acc as [|a acc']; [constructor|].
    constructor; [|constructor].
    split; [|apply no_space_rev; assumption].
    intro H. apply (f_equal (@List.length ascii)) in H.
    rewrite length_rev in H. discriminate.
  - destruct (is_space c) eqn:Ec.
    + destruct acc as [|a acc']; [apply IH; constructor|].
      constructor; [|apply IH; constructor].
      split; [|apply no_space_rev; assumption].
      intro H. apply (f_equal (@List.length ascii)) in H.
      rewrite length_rev in H. discriminate.
    + apply IH. constructor; assumption.
Qed.

Lemma split_words s : Forall wordlike (split s).
Proof. apply split_aux_words. constructor. Qed.

(** A run without whitespace goes to the accumulator. *)
Lemma split_aux_run w : forall rest acc,
  no_space w -> split_aux (w ++ rest) acc = split_aux rest (rev w ++ acc).
Proof.
  induction w as [|c w IH]; simpl; intros rest acc H; [reflexivity|].
  inversion H as [|? ? Hc Hw]; subst. rewrite Hc.
  rewrite IH by assumption. rewrite <- app_assoc. reflexivity.
Qed.

Lemma join_cons sep (p q : str) t :
  join sep (p :: q :: t) = p ++ sep ++ join sep (q :: t).
Proof. reflexivity. Qed.

Lemma split_aux_word_end w acc :
  no_space w -> w ++ acc <> [] ->
  split_aux w acc = [rev acc ++ w].
Proof.
  intros Hw Hne. rewrite <- (app_nil_r w) at 1.
  rewrite split_aux_run by assumption. simpl.
  destruct (rev w ++ acc) as [|x y] eqn:E.
  - exfalso. apply Hne.
    apply (f_equal (@List.length ascii)) in E.
    rewrite length_app, length_rev in E. simpl in E.
    destruct w, acc; simpl in *; try lia; reflexivity.
  - rewrite <- E. rewrite rev_app_distr, rev_involutive. reflexivity.
Qed.

(** [split] undoes [" ".join] on words. *)
Lemma split_join ws : Forall wordlike ws -> split (join (L " ") ws) = ws.
Proof.
  unfold split. induction 1 as [|w ws [Hne Hns] Hws IH]; [reflexivity|].
  destruct ws as [|q t].
  - simpl. rewrite split_aux_word_end; [reflexivity | assumption |].
    rewrite app_nil_r; assumption.
  - rewrite join_cons. rewrite split_aux_run by assumption. simpl.
    rewrite app_nil_r.
    destruct (rev w) as [|x y] eqn:E.
    + exfalso. apply Hne. apply (f_equal (@rev ascii)) in E.
      rewrite rev_involutive in E. assumption.
    + rewrite <- E, rev_involutive. f_equal. exact IH.
Qed.

(** ** [strip] *)

Definition all_space (s : str) : Prop := Forall (fun c => is_space c = true) s.

Lemma lstrip_split s : exists sp, s = sp ++ lstrip s /\ all_space sp.
Proof.
  induction s as [|c r (sp & Hs & Hsp)]; simpl.
  - exists []. split; [reflexivity | constructor].
  - destruct (is_space c) eqn:Ec.
    + exists (c :: sp). split; [simpl; congruence | constructor; assumption].
    + exists []. split; [reflexivity | constructor].
Qed.

Lemma rstrip_split s : exists sp, s = rstrip s ++ sp /\ all_space sp.
Proof.
  unfold rstrip. destruct (lstrip_split (rev s)) as (sp & Hs & Hsp).
  exists (rev sp). split.
  - apply (f_equal (@rev ascii)) in Hs.
    rewrite rev_involutive, rev_app_distr in Hs. assumption.
  - unfold all_space in *. rewrite Forall_forall in *. intros x Hx.
    apply Hsp. apply (proj2 (in_rev sp x)). assumption.
Qed.

(** [strip] takes whitespace from both ends. *)
Lemma strip_split s :
  exists sp1 sp2, s = sp1 ++ strip s ++ sp2 /\ all_space sp1 /\ all_space sp2.
Proof.
  unfold strip. destruct (lstrip_split s) as (sp1 & H1 & Hsp1).
  destruct (rstrip_split (lstrip s)) as (sp2 & H2 & Hsp2).
  exists sp1, sp2. repeat split; try assumption.
  rewrite <- H2. assumption.
Qed.

Lemma split_aux_spaces sp : forall rest,
  all_space sp -> split_aux (sp ++ rest) [] = split_aux rest [].
Proof.
  induction sp as [|c sp IH]; simpl; intros rest H; [reflexivity|].
  inversion H as [|? ? Hc Hsp]; subst. rewrite Hc. apply IH; assumption.
Qed.

Lemma split_aux_all_space sp : all_space sp -> split_aux sp [] = [].
Proof.
  induction 1 as [|c sp Hc Hsp IH]; simpl; [reflexivity|].
  rewrite Hc. assumption.
Qed.

Lemma split_aux_trailing s : forall sp acc,
  all_space sp -> split_aux (s ++ sp) acc = split_aux s acc.
Proof.
  induction s as [|c r IH]; simpl; intros sp acc H.
  - destruct H as [|d sp Hd Hsp]; [reflexivity|]. simpl. rewrite Hd.
    rewrite (split_aux_all_space Hsp). destruct acc; reflexivity.
  - destruct (is_space c); [destruct acc|]; rewrite IH by assumption;
      reflexivity.
Qed.

(** The words of a string do not depend on the whitespace at its ends. *)
Lemma split_strip s : split (strip s) = split s.
Proof.
  destruct (strip_split s) as (sp1 & sp2 & Hs & H1 & H2).
  unfold split. rewrite Hs at 2.
  rewrite split_aux_spaces by assumption.
  rewrite split_aux_trailing by assumption. reflexivity.
Qed.

Lemma lstrip_id s :
  (forall c t, s = c :: t -> is_space c = false) -> lstrip s = s.
Proof.
  destruct s as [|c t]; simpl; intro H; [reflexivity|].
  rewrite (H c t eq_refl). reflexivity.
Qed.

(** A string with no whitespace at either end. *)
Definition trimmed (s : str) : Prop :=
  (forall c t, s = c :: t -> is_space c = false)
  /\ (forall c t, rev s = c :: t -> is_space c = false).

Lemma strip_trimmed s : trimmed s -> strip s = s.
Proof.
  intros [H1 H2]. unfold strip, rstrip.
  rewrite (lstrip_id H1), (lstrip_id H2). apply rev_involutive.
Qed.

Lemma wordlike_trimmed w : wordlike w -> trimmed w.
Proof.
  intros [_ Hns]. unfold no_space in Hns. rewrite Forall_forall in Hns. split.
  - intros c t ->. apply Hns. left; reflexivity.
  - intros c t E. apply Hns. apply (proj2 (in_rev w c)). rewrite E.
    left; reflexivity.
Qed.

Lemma trimmed_app a b :
  a <> [] -> b <> [] -> trimmed a -> trimmed b -> forall mid,
  trimmed (a ++ mid ++ b).
Proof.
  intros Ha Hb [Ha1 _] [_ Hb2] mid. split.
  - intros c t E. destruct a as [|x a']; [congruence|].
    simpl in E. inversion E; subst. apply (Ha1 c a' eq_refl).
  - intros c t E. rewrite !rev_app_distr in E.
    destruct (rev b) as [|x b'] eqn:Eb.
    + exfalso. apply Hb. apply (f_equal (@rev ascii)) in Eb.
      rewrite rev_involutive in Eb. assumption.
    + simpl in E. inversion E; subst. apply (Hb2 c b' eq_refl).
Qed.

Lemma join_words_nonempty sep w ws : w <> [] -> join sep (w :: ws) <> [].
Proof.
  intro H. destruct ws; simpl; [assumption|].
  destruct w; [congruence | discriminate].
Qed.

Lemma join_words_trimmed sep ws :
  Forall wordlike ws -> trimmed (join sep ws).
Proof.
  induction 1 as [|w ws Hw Hws IH].
  - split; intros c t E; discriminate.
  - destruct ws as [|q t]; [apply wordlike_trimmed; assumption|].
    rewrite join_cons. apply trimmed_app.
    + apply Hw.
    + inversion Hws as [|? ? [Hq _] _]; subst.
      apply join_words_nonempty; assumption.
    + apply wordlike_trimmed; assumption.
    + assumption.
Qed.

(** Joined words are in normal form for [" ".join(s.strip().split())]. *)
Lemma normalise_join ws :
  Forall wordlike ws ->
  split (strip (join (L " ") ws)) = ws.
Proof.
  intro H. rewrite split_strip. apply split_join; assumption.
Qed.

End StrFacts.

(* ================================================================== *)
(** * The field formatters *)
(* ================================================================== *)

Module FormatterFacts.
Import Processor StrFacts.

Local Arguments ascii_eqb : simpl never.

(** ** Person names *)

Lemma format_name_word_idem w :
  format_name_word (format_name_word w) = format_name_word w.
Proof.
  unfold format_name_word.
  destruct (str_in (upper w) nameSuffixes) eqn:E1.
  - rewrite upper_idem, E1. reflexivity.
  - destruct (has_char "." w) eqn:E2.
    + rewrite upper_idem, E1, has_dot_upper, E2. reflexivity.
    + rewrite upper_capitalize, E1, has_dot_capitalize, E2.
      apply capitalize_idem.
Qed.

Lemma format_name_word_wordlike w : wordlike w -> wordlike (format_name_word w).
Proof.
  intro H. unfold format_name_word.
  destruct (str_in (upper w) nameSuffixes); [apply wordlike_upper; assumption|].
  destruct (has_char "." w);
    [apply wordlike_upper | apply wordlike_capitalize]; assumption.
Qed.

(** The formatter works on the words of its argument. *)
Lemma _cleanAndFormatPersonName_words name :
  _cleanAndFormatPersonName name
  = join (L " ") (map format_name_word (split name)).
Proof.
  unfold _cleanAndFormatPersonName.
  rewrite split_join by apply split_words.
  rewrite split_strip. reflexivity.
Qed.

Lemma Forall_map_wordlike (f : str -> str) ws :
  (forall w, wordlike w -> wordlike (f w)) ->
  Forall wordlike ws -> Forall wordlike (map f ws).
Proof.
  intros Hf H. induction H; simpl; constructor; auto.
Qed.

Lemma _cleanAndFormatPersonName_idem name :
  _cleanAndFormatPersonName (_cleanAndFormatPersonName name)
  = _cleanAndFormatPersonName name.
Proof.
  rewrite !(_cleanAndFormatPersonName_words name).
  rewrite _cleanAndFormatPersonName_words.
  rewrite split_join
    by (apply Forall_map_wordlike;
        [apply format_name_word_wordlike | apply split_words]).
  rewrite map_map. f_equal. apply map_ext. apply format_name_word_idem.
Qed.

(** ** Event names *)

Definition format_event_word (first : bool) (word : str) : str :=
  if str_in (lower word) lowercaseWords && negb first
  then lower word else capitalize word.

Lemma format_event_word_idem first w :
  format_event_word first (format_event_word first w)
  = format_event_word first w.
Proof.
  unfold format_event_word.
  destruct (str_in (lower w) lowercaseWords && negb first) eqn:E.
  - rewrite lower_idem, E. reflexivity.
  - rewrite lower_capitalize, E. apply capitalize_idem.
Qed.

Lemma format_event_word_wordlike first w :
  wordlike w -> wordlike (format_event_word first w).
Proof.
  intro H. unfold format_event_word.
  destruct (str_in (lower w) lowercaseWords && negb first);
    [apply wordlike_lower | apply wordlike_capitalize]; assumption.
Qed.

Lemma format_event_words_cons first w ws :
  format_event_words first (w :: ws)
  = format_event_word first w :: format_event_words false ws.
Proof. reflexivity. Qed.

Lemma format_event_words_idem ws : forall first,
  format_event_words first (format_event_words first ws)
  = format_event_words first ws.
Proof.
  induction ws as [|w ws IH]; intro first; [reflexivity|].
  rewrite !format_event_words_cons, format_event_word_idem, IH. reflexivity.
Qed.

Lemma format_event_words_wordlike ws : forall first,
  Forall wordlike ws -> Forall wordlike (format_event_words first ws).
Proof.
  induction ws as [|w ws IH]; intros first H; [constructor|].
  rewrite format_event_words_cons.
  inversion H; subst. constructor; [|apply IH; assumption].
  apply (format_event_word_wordlike first); assumption.
Qed.

Lemma _cleanAndFormatEventName_words eventName :
  _cleanAndFormatEventName eventName
  = join (L " ") (format_event_words true (split eventName)).
Proof.
  unfold _cleanAndFormatEventName.
  rewrite split_join by apply split_words.
  rewrite split_strip. reflexivity.
Qed.

Lemma _cleanAndFormatEventName_idem eventName :
  _cleanAndFormatEventName (_cleanAndFormatEventName eventName)
  = _cleanAndFormatEventName eventName.
Proof.
  rewrite !(_cleanAndFormatEventName_words eventName).
  rewrite _cleanAndFormatEventName_words.
  rewrite split_join
    by (apply format_event_words_wordlike, split_words).
  rewrite format_event_words_idem. reflexivity.
Qed.

(** ** Locations

    The location formatter cuts its argument at commas and each part at
    whitespace.  [cw] does both in one pass: [w] is the current word,
    reversed, and [ws] the words of the current part, last first. *)

Definition comma : ascii := ","%char.

Definition push (w : str) (ws : list str) : list str :=
  match w with
  | [] => ws
  | _ => rev w :: ws
  end.

Fixpoint cw (s : str) (w : str) (ws : list str) : list (list str) :=
  match s with
  | [] => [rev (push w ws)]
  | c :: r =>
      if ascii_eqb c comma then rev (push w ws) :: cw r [] []
      else if is_space c then cw r [] (push w ws)
      else cw r (c :: w) ws
  end.

(** The parts [cw] has finished after [s], and its state then. *)
Fixpoint go (s : str) (w : str) (ws : list str)
    : list (list str) * (str * list str) :=
  match s with
  | [] => ([], (w, ws))
  | c :: r =>
      if ascii_eqb c comma then
        let '(ps, st) := go r [] [] in (rev (push w ws) :: ps, st)
      else if is_space c then go r [] (push w ws)
      else go r (c :: w) ws
  end.

Lemma cw_app a : forall b w ws,
  cw (a ++ b) w ws
  = fst (go a w ws) ++ cw b (fst (snd (go a w ws))) (snd (snd (go a w ws))).
Proof.
  induction a as [|c a IH]; intros b w ws; simpl; [reflexivity|].
  destruct (ascii_eqb c comma).
  - rewrite IH. destruct (go a [] []) as [ps st]. reflexivity.
  - destruct (is_space c); apply IH.
Qed.

Lemma rev_push w ws :
  rev (push w ws) = rev ws ++ match w with [] => [] | _ => [rev w] end.
Proof.
  destruct w as [|c w]; simpl; [rewrite app_nil_r|]; reflexivity.
Qed.

Lemma push_nil ws : push [] ws = ws.
Proof. reflexivity. Qed.

(** [cw] computes [map split (s.split(','))]. *)
Lemma cw_split_on_aux s : forall acc w ws,
  (forall u, split (rev acc ++ u) = rev ws ++ split_aux u w) ->
  map split (split_on_aux comma s acc) = cw s w ws.
Proof.
  induction s as [|c r IH]; intros acc w ws Hst; simpl.
  - specialize (Hst []). rewrite app_nil_r in Hst. rewrite Hst, rev_push.
    simpl. destruct w; reflexivity.
  - destruct (ascii_eqb c comma) eqn:Ec.
    + simpl. f_equal.
      * specialize (Hst []). rewrite app_nil_r in Hst. rewrite Hst, rev_push.
        simpl. destruct w; reflexivity.
      * apply IH. intro u. reflexivity.
    + destruct (is_space c) eqn:Es.
      * apply IH. intro u. simpl. rewrite <- app_assoc. simpl.
        rewrite Hst. simpl. rewrite Es, rev_push.
        destruct w; simpl; rewrite ?app_nil_r, <- ?app_assoc; reflexivity.
      * apply IH. intro u. simpl. rewrite <- app_assoc. simpl.
        rewrite Hst. simpl. rewrite Es. reflexivity.
Qed.

Lemma cw_split_on s : map split (split_on comma s) = cw s [] [].
Proof. apply cw_split_on_aux. intro u. reflexivity. Qed.

(** [cw] does not see how much whitespace separates two words. *)
Lemma cw_normalise s : forall acc ws0,
  no_space acc ->
  cw (join (L " ") (split_aux s acc)) [] ws0 = cw (rev acc ++ s) [] ws0.
Proof.
  induction s as [|c r IH]; intros acc ws0 Hacc.
  - simpl. rewrite app_nil_r. destruct acc; reflexivity.
  - cbn [split_aux]. destruct (is_space c) eqn:Es.
    + destruct acc as [|a acc'].
      * rewrite (IH [] ws0) by constructor. simpl.
        assert (Ec : ascii_eqb c comma = false).
        { destruct (ascii_eqb c comma) eqn:E; [|reflexivity].
          apply Ascii.eqb_eq in E. subst c. discriminate. }
        rewrite Ec, Es. reflexivity.
      * set (u := rev (a :: acc')).
        rewrite (cw_app u (c :: r)).
        destruct (go u [] ws0) as [ps [w1 ws1]] eqn:Eg. cbn [fst snd].
        assert (Ec : ascii_eqb c comma = false).
        { destruct (ascii_eqb c comma) eqn:E; [|reflexivity].
          apply Ascii.eqb_eq in E. subst c. discriminate. }
        cbn [cw]. rewrite Ec, Es.
        pose proof (IH [] (push w1 ws1) (Forall_nil _)) as IH'.
        simpl in IH'. rewrite <- IH'.
        destruct (split_aux r []) as [|q t].
        -- simpl. rewrite <- (app_nil_r u) at 1.
           rewrite (cw_app u []), Eg. reflexivity.
        -- rewrite join_cons, (cw_app u (L " " ++ join (L " ") (q :: t))), Eg.
           reflexivity.
    + rewrite (IH (c :: acc) ws0) by (constructor; assumption).
      simpl. rewrite <- app_assoc. reflexivity.
Qed.

Lemma cw_join_split s : cw (join (L " ") (split s)) [] [] = cw s [] [].
Proof. apply (@cw_normalise s [] []). constructor. Qed.

Lemma cw_length_pos s : forall w ws, (1 <= List.length (cw s w ws))%nat.
Proof.
  induction s as [|c r IH]; intros w ws; simpl; [lia|].
  destruct (ascii_eqb c comma); [simpl; lia|].
  destruct (is_space c); apply IH.
Qed.

(** There is a comma exactly when there is more than one part. *)
Lemma has_comma_cw s : forall w ws,
  has_char comma s = Nat.ltb 1 (List.length (cw s w ws)).
Proof.
  induction s as [|c r IH]; intros w ws; [reflexivity|].
  rewrite has_char_cons. simpl.
  replace (ascii_eqb comma c) with (ascii_eqb c comma)
    by apply Ascii.eqb_sym.
  destruct (ascii_eqb c comma) eqn:Ec.
  - simpl. pose proof (cw_length_pos r [] []) as H.
    destruct (List.length (cw r [] [])); [lia | reflexivity].
  - destruct (is_space c); apply IH.
Qed.

Lemma has_comma_join_split s :
  has_char comma (join (L " ") (split s)) = has_char comma s.
Proof.
  rewrite (has_comma_cw _ [] []), (has_comma_cw s [] []), cw_join_split.
  reflexivity.
Qed.

(** The words [cw] produces: not empty, no whitespace, no comma. *)
Definition plain (c : ascii) : Prop :=
  is_space c = false /\ ascii_eqb c comma = false.
Definition cword (w : str) : Prop := w <> [] /\ Forall plain w.

Lemma cword_wordlike w : cword w -> wordlike w.
Proof.
  intros [Hne Hp]. split; [assumption|].
  eapply Forall_impl; [|exact Hp]. intros c [H _]; assumption.
Qed.

Lemma rev_nonempty (w : str) : w <> [] -> rev w <> [].
Proof.
  intros H E. apply H. apply (f_equal (@rev ascii)) in E.
  rewrite rev_involutive in E. assumption.
Qed.

Lemma push_cwords w ws :
  Forall plain w -> Forall cword ws -> Forall cword (push w ws).
Proof.
  intros Hw Hws. destruct w as [|c w]; [assumption|].
  constructor; [|assumption]. split.
  - apply rev_nonempty. discriminate.
  - apply Forall_rev. assumption.
Qed.

Lemma cw_cwords s : forall w ws,
  Forall plain w -> Forall cword ws -> Forall (Forall cword) (cw s w ws).
Proof.
  induction s as [|c r IH]; intros w ws Hw Hws; simpl.
  - constructor; [|constructor]. apply Forall_rev, push_cwords; assumption.
  - destruct (ascii_eqb c comma) eqn:Ec.
    + constructor; [apply Forall_rev, push_cwords; assumption|].
      apply IH; constructor.
    + destruct (is_space c) eqn:Es.
      * apply IH; [constructor | apply push_cwords; assumption].
      * apply IH; [|assumption]. constructor; [split|]; assumption.
Qed.

Lemma cword_capitalize w : cword w -> cword (capitalize w).
Proof.
  intros [Hne Hp]. destruct w as [|c r]; [congruence|]. split; [discriminate|].
  inversion Hp as [|? ? [Hs Hc] Hr]; subst. constructor.
  - split; [rewrite is_space_upper; assumption|].
    unfold comma. rewrite comma_upper'. assumption.
  - unfold lower. rewrite Forall_forall in *. intros x Hx.
    apply in_map_iff in Hx. destruct Hx as (d & <- & Hd).
    destruct (Hr d Hd) as [Hds Hdc]. split.
    + rewrite is_space_lower; assumption.
    + unfold comma. rewrite comma_lower'. assumption.
Qed.

(** A word of plain characters goes to the current word. *)
Lemma cw_word w : forall t w0 ws0,
  Forall plain w -> cw (w ++ t) w0 ws0 = cw t (rev w ++ w0) ws0.
Proof.
  induction w as [|c w IH]; intros t w0 ws0 H; [reflexivity|].
  inversion H as [|? ? [Hs Hc] Hw]; subst. simpl. rewrite Hc, Hs.
  rewrite IH by assumption. rewrite <- app_assoc. reflexivity.
Qed.

(** Before a separator or the end, the current word is as good as
    pushed. *)
Definition sep_first (t : str) : Prop :=
  match t with
  | [] => True
  | c :: _ => ascii_eqb c comma = true \/ is_space c = true
  end.

Lemma cw_flush t w ws : sep_first t -> cw t w ws = cw t [] (push w ws).
Proof.
  destruct t as [|c r]; simpl; [reflexivity|].
  intros [Hc | Hs].
  - rewrite Hc. reflexivity.
  - destruct (ascii_eqb c comma); [reflexivity|]. rewrite Hs. reflexivity.
Qed.

Lemma cw_words V : forall t ws0,
  Forall cword V -> sep_first t ->
  cw (join (L " ") V ++ t) [] ws0 = cw t [] (rev V ++ ws0).
Proof.
  induction V as [|w V IH]; intros t ws0 HV Ht; [reflexivity|].
  inversion HV as [|? ? [Hne Hp] HV']; subst.
  assert (Hpush : push (rev w) ws0 = w :: ws0).
  { unfold push. destruct (rev w) eqn:E.
    - exfalso. apply (rev_nonempty Hne). assumption.
    - rewrite <- E, rev_involutive. reflexivity. }
  destruct V as [|q V'].
  - simpl join. rewrite cw_word by assumption. rewrite app_nil_r.
    rewrite cw_flush by assumption. rewrite Hpush. reflexivity.
  - rewrite join_cons, <- !app_assoc. rewrite cw_word by assumption.
    rewrite app_nil_r. simpl app at 1. cbn [cw].
    change (ascii_eqb " " comma) with false.
    change (is_space " ") with true. cbv iota.
    rewrite Hpush. rewrite IH by assumption.
    simpl rev. rewrite <- !app_assoc. reflexivity.
Qed.

(** [cw] reads back the parts and words that were joined. *)
Lemma cw_join VV :
  VV <> [] -> Forall (Forall cword) VV ->
  cw (join (L ", ") (map (join (L " ")) VV)) [] [] = VV.
Proof.
  induction VV as [|V VV IH]; intros Hne H; [congruence|].
  inversion H as [|? ? HV HVV]; subst.
  destruct VV as [|V2 VV'].
  - cbn [map].
    change (join (L ", ") [join (L " ") V]) with (join (L " ") V).
    rewrite <- (app_nil_r (join (L " ") V)).
    rewrite cw_words by (try assumption; exact I).
    cbn [cw]. rewrite push_nil, app_nil_r, rev_involutive. reflexivity.
  - cbn [map]. rewrite join_cons.
    rewrite cw_words; [|assumption|left; reflexivity].
    simpl app. cbn [cw].
    change (ascii_eqb "," comma) with true. cbv iota.
    change (ascii_eqb " " comma) with false.
    change (is_space " ") with true. cbv iota.
    rewrite push_nil, app_nil_r, rev_involutive. f_equal.
    apply IH; [discriminate | assumption].
Qed.

(** [" ".join(word.capitalize() for word in words)]. *)
Definition cap_join (ws : list str) : str :=
  join (L " ") (map capitalize ws).

Lemma capitalize_words_strip part :
  capitalize_words (strip part) = cap_join (split part).
Proof. unfold capitalize_words, cap_join. rewrite split_strip. reflexivity. Qed.

(** The formatter in terms of the parts and words of its argument. *)
Lemma _cleanAndFormatLocationName_parts location :
  _cleanAndFormatLocationName location
  = if has_char comma location
    then join (L ", ") (map cap_join (cw location [] []))
    else cap_join (split location).
Proof.
  unfold _cleanAndFormatLocationName.
  rewrite split_strip.
  change (has_char "," (join (L " ") (split location)))
    with (has_char comma (join (L " ") (split location))).
  rewrite has_comma_join_split.
  destruct (has_char comma location).
  - rewrite map_map.
    rewrite (map_ext _ (fun p => cap_join (split p)) capitalize_words_strip).
    rewrite <- (map_map split cap_join).
    change (split_on "," (join (L " ") (split location)))
      with (split_on comma (join (L " ") (split location))).
    rewrite cw_split_on, cw_join_split. reflexivity.
  - unfold capitalize_words, cap_join.
    rewrite split_join by apply split_words. reflexivity.
Qed.

Lemma has_comma_words ws :
  Forall cword ws -> has_char comma (join (L " ") ws) = false.
Proof.
  induction 1 as [|w ws [_ Hp] Hws IH]; [reflexivity|].
  assert (Hw : has_char comma w = false).
  { clear -Hp. induction Hp as [|c r [_ Hc] Hr IHr]; [reflexivity|].
    rewrite has_char_cons, IHr, Ascii.eqb_sym. fold (ascii_eqb c comma).
    rewrite Hc. reflexivity. }
  destruct ws as [|q t]; [exact Hw|].
  rewrite join_cons, !has_char_app, Hw, IH. reflexivity.
Qed.

(** Without a comma there is one part, the words of the string. *)
Lemma cw_no_comma s : forall w ws,
  has_char comma s = false -> cw s w ws = [rev ws ++ split_aux s w].
Proof.
  induction s as [|c r IH]; intros w ws Hc; simpl.
  - rewrite rev_push. destruct w; reflexivity.
  - rewrite has_char_cons in Hc. apply orb_false_iff in Hc.
    destruct Hc as [Hc Hr].
    replace (ascii_eqb comma c) with (ascii_eqb c comma) in Hc
      by apply Ascii.eqb_sym.
    rewrite Hc. destruct (is_space c).
    + rewrite IH by assumption. rewrite rev_push.
      destruct w; simpl; rewrite ?app_nil_r, <- ?app_assoc; reflexivity.
    + apply IH; assumption.
Qed.

Lemma map_capitalize_idem ws : map capitalize (map capitalize ws) = map capitalize ws.
Proof. rewrite map_map. apply map_ext. apply capitalize_idem. Qed.

Lemma _cleanAndFormatLocationName_idem location :
  _cleanAndFormatLocationName (_cleanAndFormatLocationName location)
  = _cleanAndFormatLocationName location.
Proof.
  rewrite (_cleanAndFormatLocationName_parts location).
  pose proof (@cw_cwords location [] [] (Forall_nil _) (Forall_nil _)) as Hcw.
  destruct (has_char comma location) eqn:Ec.
  - rewrite (has_comma_cw location [] []) in Ec. apply Nat.ltb_lt in Ec.
    set (PP := cw location [] []) in *.
    set (VV := map (map capitalize) PP).
    assert (Hy : map cap_join PP = map (join (L " ")) VV).
    { unfold VV, cap_join. rewrite map_map. reflexivity. }
    assert (HVV : Forall (Forall cword) VV).
    { unfold VV. rewrite Forall_forall in *. intros V HV.
      apply in_map_iff in HV. destruct HV as (P & <- & HP).
      specialize (Hcw P HP). rewrite Forall_forall in *. intros w Hw.
      apply in_map_iff in Hw. destruct Hw as (w0 & <- & Hw0).
      apply cword_capitalize. auto. }
    assert (Hne : VV <> []).
    { unfold VV. destruct PP; simpl in *; [lia | discriminate]. }
    rewrite Hy. rewrite _cleanAndFormatLocationName_parts.
    rewrite (has_comma_cw _ [] []), (cw_join Hne HVV).
    assert (Hlen : Nat.ltb 1 (List.length VV) = true).
    { apply Nat.ltb_lt. unfold VV. rewrite length_map. assumption. }
    rewrite Hlen. f_equal. unfold VV, cap_join.
    rewrite !map_map. apply map_ext. intro V.
    rewrite map_capitalize_idem. reflexivity.
  - assert (Hw : Forall cword (split location)).
    { rewrite (cw_no_comma location [] [] Ec) in Hcw.
      inversion Hcw; subst. assumption. }
    assert (Hcap : Forall cword (map capitalize (split location))).
    { rewrite Forall_forall in *. intros w Hin.
      apply in_map_iff in Hin. destruct Hin as (w0 & <- & Hw0).
      apply cword_capitalize. auto. }
    rewrite _cleanAndFormatLocationName_parts.
    unfold cap_join.
    rewrite (has_comma_words Hcap).
    rewrite split_join.
    + rewrite map_capitalize_idem. reflexivity.
    + eapply Forall_impl; [|exact Hcap]. apply cword_wordlike.
Qed.

End FormatterFacts.

(* ================================================================== *)
(** * Substitution of whole words

    [re.sub(r'\bword\b', repl, s, flags=re.IGNORECASE)] rewrites the
    maximal runs of word characters of [s] that spell [word]. *)
(* ================================================================== *)

Module WordFacts.
Import StrFacts.

Local Arguments ascii_eqb : simpl never.
Local Arguments is_word : simpl never.

(** ** Rewriting the words of a string *)

Definition flush (G : str -> str) (w : str) : str :=
  match w with
  | [] => []
  | _ => G (rev w)
  end.

(** [map_words_from G s w]: [G] applied to every maximal run of word
    characters of [rev w ++ s]; [w] is the run that [s] continues. *)
Fixpoint map_words_from (G : str -> str) (s : str) (w : str) : str :=
  match s with
  | [] => flush G w
  | c :: t =>
      if is_word c then map_words_from G t (c :: w)
      else flush G w ++ c :: map_words_from G t []
  end.

Definition map_words (G : str -> str) (s : str) : str := map_words_from G s [].

(** A non-empty run of word characters. *)
Definition word (u : str) : Prop := u <> [] /\ Forall (fun c => is_word c = true) u.

(** [G] sends words to words. *)
Definition keeps_words (G : str -> str) : Prop := forall u, word u -> word (G u).

Lemma word_rev u : word u -> word (rev u).
Proof.
  intros [Hne Hw]. split.
  - intro E. apply Hne. apply (f_equal (@rev ascii)) in E.
    rewrite rev_involutive in E. assumption.
  - apply Forall_rev. assumption.
Qed.

Lemma map_words_from_run G u : forall rest w,
  Forall (fun c => is_word c = true) u ->
  map_words_from G (u ++ rest) w = map_words_from G rest (rev u ++ w).
Proof.
  induction u as [|c u IH]; intros rest w H; [reflexivity|].
  inversion H as [|? ? Hc Hu]; subst. simpl. rewrite Hc.
  rewrite IH by assumption. rewrite <- app_assoc. reflexivity.
Qed.

Lemma flush_rev G U : U <> [] -> flush G (rev U) = G U.
Proof.
  intro Hne. unfold flush. destruct (rev U) eqn:E.
  - exfalso. apply Hne. apply (f_equal (@rev ascii)) in E.
    rewrite rev_involutive in E. assumption.
  - rewrite <- E, rev_involutive. reflexivity.
Qed.

(** Rewriting twice is rewriting once with the composition. *)
Lemma map_words_from_compose G1 G2 s : forall w,
  keeps_words G1 ->
  Forall (fun c => is_word c = true) w ->
  map_words G2 (map_words_from G1 s w)
  = map_words_from (fun u => G2 (G1 u)) s w.
Proof.
  intros w HG1. revert w.
  assert (Hflush : forall w rest,
            Forall (fun c => is_word c = true) w ->
            match rest with [] => True | c :: _ => is_word c = false end ->
            map_words G2 (flush G1 w ++ rest)
            = flush (fun u => G2 (G1 u)) w ++ map_words G2 rest).
  { intros w rest Hw Hrest. destruct w as [|a w']; [reflexivity|].
    unfold flush at 1 2.
    remember (G1 (rev (a :: w'))) as U eqn:EU.
    assert (Hu : word U).
    { subst U. apply HG1, word_rev. split; [discriminate | assumption]. }
    destruct Hu as [Hne Hall]. unfold map_words.
    rewrite map_words_from_run by assumption. rewrite app_nil_r.
    destruct rest as [|c t]; cbn [map_words_from].
    - rewrite (flush_rev G2 Hne), app_nil_r. reflexivity.
    - rewrite Hrest, (flush_rev G2 Hne). reflexivity. }
  induction s as [|c t IH]; intros w Hw; simpl.
  - rewrite <- (app_nil_r (flush G1 w)).
    rewrite Hflush by (try assumption; exact I).
    rewrite app_nil_r. reflexivity.
  - destruct (is_word c) eqn:Ec.
    + apply IH. constructor; assumption.
    + rewrite Hflush by assumption.
      unfold map_words at 1. simpl. rewrite Ec. simpl.
      f_equal. f_equal. apply (IH []). constructor.
Qed.

Lemma map_words_compose G1 G2 s :
  keeps_words G1 ->
  map_words G2 (map_words G1 s) = map_words (fun u => G2 (G1 u)) s.
Proof. intro H. apply map_words_from_compose; [assumption | constructor]. Qed.

Lemma map_words_from_ext G1 G2 s : forall w,
  (forall u, word u -> G1 u = G2 u) ->
  Forall (fun c => is_word c = true) w ->
  map_words_from G1 s w = map_words_from G2 s w.
Proof.
  intros w HG. revert w.
  assert (Hflush : forall w, Forall (fun c => is_word c = true) w ->
                             flush G1 w = flush G2 w).
  { intros w Hw. destruct w as [|a w']; [reflexivity|]. unfold flush.
    apply HG, word_rev. split; [discriminate | assumption]. }
  induction s as [|c t IH]; intros w Hw; simpl; [auto|].
  destruct (is_word c) eqn:Ec.
  - apply IH. constructor; assumption.
  - rewrite (Hflush w Hw), (IH [] (Forall_nil _)). reflexivity.
Qed.

Lemma map_words_ext G1 G2 s :
  (forall u, word u -> G1 u = G2 u) -> map_words G1 s = map_words G2 s.
Proof. intro H. apply map_words_from_ext; [assumption | constructor]. Qed.

(** ** Whitespace at the ends *)

Lemma is_word_not_space c : is_word c = true -> is_space c = false.
Proof. destruct c as [[] [] [] [] [] [] [] []]; vm_compute; congruence. Qed.

Definition starts_ok (x : str) : Prop :=
  forall c t, x = c :: t -> is_space c = false.
Definition ends_ok (x : str) : Prop :=
  forall c t, rev x = c :: t -> is_space c = false.

Lemma word_starts_ok u : word u -> starts_ok u.
Proof.
  intros [_ H] c t ->. inversion H; subst. apply is_word_not_space; assumption.
Qed.

Lemma word_ends_ok u : word u -> ends_ok u.
Proof.
  intros Hu c t E. destruct (word_rev Hu) as [_ H]. rewrite E in H.
  inversion H; subst. apply is_word_not_space; assumption.
Qed.

Lemma starts_ok_app a b : a <> [] -> starts_ok a -> starts_ok (a ++ b).
Proof.
  intros Hne Ha c t E. destruct a as [|x a']; [congruence|].
  inversion E; subst. apply (Ha c a' eq_refl).
Qed.

Lemma ends_ok_app a b : b <> [] -> ends_ok b -> ends_ok (a ++ b).
Proof.
  intros Hne Hb c t E. rewrite rev_app_distr in E.
  destruct (rev b) as [|x b'] eqn:Eb.
  - exfalso. apply Hne. apply (f_equal (@rev ascii)) in Eb.
    rewrite rev_involutive in Eb. assumption.
  - inversion E; subst. exact (Hb c b' Eb).
Qed.

Lemma flush_nonempty G w : keeps_words G ->
  Forall (fun c => is_word c = true) w -> w <> [] -> word (flush G w).
Proof.
  intros HG Hw Hne. destruct w as [|a w']; [congruence|]. unfold flush.
  apply HG, word_rev. split; [discriminate | assumption].
Qed.

Lemma map_words_from_nonempty G s w :
  keeps_words G -> Forall (fun c => is_word c = true) w ->
  rev w ++ s <> [] -> map_words_from G s w <> [].
Proof.
  intros HG. revert w. induction s as [|c t IH]; intros w Hw Hne; simpl.
  - rewrite app_nil_r in Hne.
    assert (Hw' : w <> []).
    { intro E. subst. apply Hne. reflexivity. }
    apply (flush_nonempty HG Hw Hw').
  - destruct (is_word c) eqn:Ec.
    + apply IH; [constructor; assumption|]. simpl.
      intro E. apply app_eq_nil in E. destruct E as [E _].
      apply app_eq_nil in E. destruct E; discriminate.
    + intro E. apply app_eq_nil in E. destruct E; discriminate.
Qed.

Lemma map_words_from_starts G s : forall w,
  keeps_words G -> Forall (fun c => is_word c = true) w ->
  starts_ok (rev w ++ s) -> starts_ok (map_words_from G s w).
Proof.
  induction s as [|c t IH]; intros w HG Hw Hs; simpl.
  - destruct w as [|a w']; [intros c t E; discriminate|].
    apply word_starts_ok, flush_nonempty; try assumption. discriminate.
  - destruct (is_word c) eqn:Ec.
    + apply IH; [assumption | constructor; assumption|].
      simpl. rewrite <- app_assoc. exact Hs.
    + destruct w as [|a w'].
      * simpl. intros x y E. inversion E; subst. apply (Hs x t eq_refl).
      * apply starts_ok_app.
        -- apply (flush_nonempty HG Hw). discriminate.
        -- apply word_starts_ok, flush_nonempty; try assumption. discriminate.
Qed.

Lemma map_words_from_ends G s : forall w,
  keeps_words G -> Forall (fun c => is_word c = true) w ->
  ends_ok (rev w ++ s) -> ends_ok (map_words_from G s w).
Proof.
  induction s as [|c t IH]; intros w HG Hw Hs; simpl.
  - destruct w as [|a w']; [intros c t E; discriminate|].
    apply word_ends_ok, flush_nonempty; try assumption. discriminate.
  - destruct (is_word c) eqn:Ec.
    + apply IH; [assumption | constructor; assumption|].
      simpl. rewrite <- app_assoc. exact Hs.
    + destruct t as [|d t'].
      * simpl. intros x y E. rewrite rev_app_distr in E. simpl in E.
        inversion E; subst. apply (Hs x (rev (rev w))).
        rewrite rev_app_distr. reflexivity.
      * replace (flush G w ++ c :: map_words_from G (d :: t') [])
          with ((flush G w ++ [c]) ++ map_words_from G (d :: t') [])
          by (rewrite <- app_assoc; reflexivity).
        apply ends_ok_app.
        -- apply map_words_from_nonempty; [assumption | constructor|].
           discriminate.
        -- apply IH; [assumption | constructor|].
           intros x y E. apply (Hs x (y ++ c :: rev (rev w))).
           rewrite rev_app_distr. simpl.
           simpl in E. rewrite E. simpl. rewrite <- app_assoc. reflexivity.
Qed.

Lemma map_words_trimmed G s :
  keeps_words G -> trimmed s -> trimmed (map_words G s).
Proof.
  intros HG [H1 H2]. split.
  - apply (@map_words_from_starts G s [] HG (Forall_nil _)). exact H1.
  - apply (@map_words_from_ends G s [] HG (Forall_nil _)). exact H2.
Qed.

End WordFacts.

(* ================================================================== *)
(** * The matcher on a whole-word pattern *)
(* ================================================================== *)

Module WordSubFacts.
Import StrFacts WordFacts.

Local Arguments ascii_eqb : simpl never.
Local Arguments is_word : simpl never.
Local Arguments chr_match : simpl never.

(** The pattern [\bword\b]. *)
Definition word_re (k : str) : regex :=
  Cat WordB (fold_right (fun c r => Cat (Chr c) r) WordB k).

(** Equality up to case. *)
Definition eq_ci (k u : str) : bool := str_eqb (lower k) (lower u).

(** What [re.sub(r'\bk\b', K, ..., re.IGNORECASE)] does to one word. *)
Definition repl (k K u : str) : str := if eq_ci k u then K else u.

(** The longest run of word characters at the start of [s], and the
    rest. *)
Fixpoint span_word (s : str) : str * str :=
  match s with
  | c :: t =>
      if is_word c then let '(u, r) := span_word t in (c :: u, r)
      else ([], s)
  | [] => ([], [])
  end.

Lemma span_word_app s : fst (span_word s) ++ snd (span_word s) = s.
Proof.
  induction s as [|c t IH]; simpl; [reflexivity|].
  destruct (is_word c); [|reflexivity].
  destruct (span_word t) as [u r]. simpl in *. congruence.
Qed.

Lemma span_word_all s : Forall (fun c => is_word c = true) (fst (span_word s)).
Proof.
  induction s as [|c t IH]; simpl; [constructor|].
  destruct (is_word c) eqn:Ec; [|constructor].
  destruct (span_word t) as [u r]. simpl in *. constructor; assumption.
Qed.

Lemma span_word_rest s :
  match snd (span_word s) with
  | [] => True
  | c :: _ => is_word c = false
  end.
Proof.
  induction s as [|c t IH]; simpl; [exact I|].
  destruct (is_word c) eqn:Ec; [|simpl; assumption].
  destruct (span_word t) as [u r]. simpl in *. assumption.
Qed.

(** ** The literal part of the pattern *)

Fixpoint lit (k : str) (st : mstate) : option mstate :=
  match k with
  | [] => if at_boundary st then Some st else None
  | c :: k' =>
      match rest st with
      | x :: t => if chr_match true c x then lit k' (advance st x t) else None
      | [] => None
      end
  end.

Lemma m_lit k : forall st,
  m true (fold_right (fun c r => Cat (Chr c) r) WordB k) st Some = lit k st.
Proof.
  induction k as [|c k IH]; intro st; simpl; [reflexivity|].
  destruct (rest st) as [|x t]; [reflexivity|].
  destruct (chr_match true c x); [apply IH | reflexivity].
Qed.

Lemma chr_match_ci c x :
  chr_match true c x = ascii_eqb (to_lower c) (to_lower x).
Proof.
  unfold chr_match. simpl. destruct (ascii_eqb c x) eqn:E; [|reflexivity].
  apply Ascii.eqb_eq in E. subst. simpl. symmetry. apply Ascii.eqb_refl.
Qed.

Lemma lower_eq_word c x :
  is_alpha c = true -> to_lower c = to_lower x -> is_word x = true.
Proof.
  intros Hc E.
  assert (H : is_alpha (to_lower x) = true).
  { rewrite <- E. clear E. revert Hc.
    destruct c as [[] [] [] [] [] [] [] []]; vm_compute; congruence. }
  clear -H. revert H.
  destruct x as [[] [] [] [] [] [] [] []]; vm_compute; congruence.
Qed.

(** The last character seen after [u], coming from [pv]. *)
Definition last_of (pv : option ascii) (u : str) : option ascii :=
  match rev u with
  | [] => pv
  | c :: _ => Some c
  end.

Lemma last_of_cons pv x u : last_of pv (x :: u) = last_of (Some x) u.
Proof.
  unfold last_of. simpl. destruct (rev u) eqn:E; reflexivity.
Qed.

(** The literal matches when the word at the position spells it. *)
Lemma lit_spec k : forall st,
  Forall (fun c => is_alpha c = true) k ->
  (k = [] -> word_opt (prev st) = true) ->
  lit k st
  = let '(u, r) := span_word (rest st) in
    if eq_ci k u
    then Some (mkState (pos st + List.length u) (last_of (prev st) u) r
                 (caps st))
    else None.
Proof.
  induction k as [|c k IH]; intros st Hk Hprev.
  - simpl. unfold at_boundary. rewrite (Hprev eq_refl).
    destruct st as [p pv s cs]. simpl. destruct s as [|x t]; simpl.
    + rewrite Nat.add_0_r. reflexivity.
    + destruct (is_word x) eqn:Ex; simpl.
      * destruct (span_word t); reflexivity.
      * rewrite Nat.add_0_r. reflexivity.
  - inversion Hk as [|? ? Hc Hk']; subst. simpl.
    destruct (rest st) as [|x t] eqn:Er; [reflexivity|].
    rewrite chr_match_ci. simpl.
    destruct (ascii_eqb (to_lower c) (to_lower x)) eqn:E.
    + apply Ascii.eqb_eq in E.
      rewrite (lower_eq_word c x Hc E).
      rewrite IH; [|assumption|].
      * simpl. destruct (span_word t) as [u r].
        unfold eq_ci. simpl. fold (lower k) (lower u).
        rewrite E, Ascii.eqb_refl. simpl. fold (eq_ci k u).
        destruct (eq_ci k u); [|reflexivity].
        rewrite last_of_cons. f_equal. f_equal. lia.
      * intros _. simpl. apply (lower_eq_word c x Hc E).
    + destruct (is_word x).
      * destruct (span_word t) as [u r]. unfold eq_ci. simpl.
        fold (ascii_eqb (to_lower c) (to_lower x)). rewrite E. reflexivity.
      * reflexivity.
Qed.

Lemma eq_ci_nil k : k <> [] -> eq_ci k [] = false.
Proof. destruct k; [congruence | reflexivity]. Qed.

(** One attempt of the pattern at a position. *)
Lemma run_word k p pv s :
  Forall (fun c => is_alpha c = true) k -> k <> [] ->
  run true (word_re k) (mkState p pv s [])
  = if xorb (word_opt pv) (word_opt (hd_error s))
    then let '(u, r) := span_word s in
         if eq_ci k u
         then Some (mkState (p + List.length u) (last_of pv u) r [])
         else None
    else None.
Proof.
  intros Hk Hne. unfold run, word_re. simpl.
  unfold at_boundary. simpl.
  destruct (xorb (word_opt pv) (word_opt (hd_error s))); [|reflexivity].
  rewrite m_lit, lit_spec; [reflexivity | assumption | congruence].
Qed.

(** ** Scanning *)

Lemma scan_unfold ic r p pv s :
  scan ic r p pv s
  = match run ic r (mkState p pv s []) with
    | Some st' => Some (mkMatch p (pos st') (caps st'), st')
    | None =>
        match s with
        | [] => None
        | x :: t => scan ic r (S p) (Some x) t
        end
    end.
Proof. destruct s; reflexivity. Qed.

Lemma scan_start ic r s : forall p pv mt st',
  scan ic r p pv s = Some (mt, st') -> (p <= m_start mt)%nat.
Proof.
  induction s as [|x t IH]; intros p pv mt st' H; rewrite scan_unfold in H.
  - destruct (run ic r _); [|discriminate]. inversion H; subst. simpl. lia.
  - destruct (run ic r _).
    + inversion H; subst. simpl. lia.
    + apply IH in H. lia.
Qed.

Lemma finditer_from_skip ic r fuel p pv c t :
  run ic r (mkState p pv (c :: t) []) = None ->
  finditer_from fuel ic r p pv (c :: t)
  = finditer_from fuel ic r (S p) (Some c) t.
Proof.
  intro H. destruct fuel as [|f]; [reflexivity|].
  cbn [finditer_from]. rewrite (scan_unfold ic r p pv (c :: t)), H.
  destruct f; reflexivity.
Qed.

Lemma finditer_from_first ic r fuel p pv s mt ms :
  finditer_from fuel ic r p pv s = mt :: ms -> (p <= m_start mt)%nat.
Proof.
  destruct fuel as [|f]; [discriminate|]. cbn [finditer_from].
  destruct (scan ic r p pv s) as [[mt' st']|] eqn:E; [|discriminate].
  apply scan_start in E.
  destruct (Nat.ltb (m_start mt') (m_end mt')).
  - intro H; inversion H; subst. assumption.
  - destruct (rest st'); intro H; inversion H; subst; assumption.
Qed.

Lemma skipn_S_tail {A : Type} (l : list A) p c t :
  skipn p l = c :: t -> skipn (S p) l = t.
Proof.
  revert l. induction p as [|p IH]; intros l H.
  - simpl in H. subst. reflexivity.
  - destruct l as [|x l]; [discriminate|]. simpl in *. apply IH. assumption.
Qed.

Lemma skipn_add_app {A : Type} (l : list A) p (u r : list A) :
  skipn p l = u ++ r -> skipn (p + List.length u) l = r.
Proof.
  revert p. induction u as [|x u IH]; intros p H.
  - rewrite Nat.add_0_r. assumption.
  - simpl in *. rewrite Nat.add_succ_r.
    apply (IH (S p)). apply skipn_S_tail with (c := x). assumption.
Qed.

Section WordSub.
Variables (k K txt : str).
Hypothesis k_letters : Forall (fun c => is_alpha c = true) k.
Hypothesis k_nonempty : k <> [].
Hypothesis K_plain : forallb (fun c => negb (ascii_eqb c "\")) K = true.

Let re := word_re k.
Let G := repl k K.

Lemma expand_plain mt : forall tpl,
  forallb (fun c => negb (ascii_eqb c "\")) tpl = true -> expand tpl mt txt = tpl.
Proof.
  induction tpl as [|c t IH]; intro H; [reflexivity|].
  simpl in H. apply andb_true_iff in H. destruct H as [Hc Ht].
  apply negb_true_iff in Hc. cbn [expand]. rewrite Hc, IH by assumption.
  reflexivity.
Qed.

(** The output passes over a character at which no match begins. *)
Lemma stitch_skip p c t ms :
  skipn p txt = c :: t ->
  (forall mt ms', ms = mt :: ms' -> (S p <= m_start mt)%nat) ->
  stitch K txt p ms = c :: stitch K txt (S p) ms.
Proof.
  intros Hs Hms. destruct ms as [|mt ms']; cbn [stitch].
  - rewrite (skipn_S_tail _ _ Hs). assumption.
  - specialize (Hms mt ms' eq_refl). unfold Re.slice.
    rewrite Hs, (skipn_S_tail _ _ Hs).
    replace (m_start mt - p)%nat with (S (m_start mt - S p)) by lia.
    reflexivity.
Qed.

Lemma skip_step fuel p pv c t :
  skipn p txt = c :: t ->
  run true re (mkState p pv (c :: t) []) = None ->
  stitch K txt p (finditer_from fuel true re p pv (c :: t))
  = c :: stitch K txt (S p) (finditer_from fuel true re (S p) (Some c) t).
Proof.
  intros Hs Hrun. rewrite (@finditer_from_skip true re fuel p pv c t Hrun).
  apply (@stitch_skip p c t); [assumption|].
  intros mt ms' E. apply finditer_from_first in E. assumption.
Qed.

(** Inside a word no match begins. *)
Lemma skip_inside u : forall r fuel p pv,
  Forall (fun c => is_word c = true) u ->
  word_opt pv = true ->
  skipn p txt = u ++ r ->
  stitch K txt p (finditer_from fuel true re p pv (u ++ r))
  = u ++ stitch K txt (p + List.length u)
           (finditer_from fuel true re (p + List.length u) (last_of pv u) r).
Proof.
  induction u as [|x u IH]; intros r fuel p pv Hu Hpv Hs.
  - simpl. rewrite Nat.add_0_r. reflexivity.
  - inversion Hu as [|? ? Hx Hu']; subst. simpl app.
    rewrite skip_step; [|assumption|].
    + rewrite (IH r fuel (S p) (Some x)); [|assumption|exact Hx|].
      * rewrite last_of_cons. simpl List.length.
        rewrite Nat.add_succ_r. reflexivity.
      * apply skipn_S_tail with (c := x). assumption.
    + unfold re. rewrite run_word by assumption.
      simpl. rewrite Hpv, Hx. reflexivity.
Qed.

Lemma map_words_word u r :
  u <> [] -> Forall (fun c => is_word c = true) u ->
  match r with [] => True | c :: _ => is_word c = false end ->
  map_words G (u ++ r) = G u ++ map_words G r.
Proof.
  intros Hne Hu Hr. unfold map_words.
  rewrite map_words_from_run by assumption. rewrite app_nil_r.
  destruct r as [|d r']; cbn [map_words_from].
  - rewrite (flush_rev G Hne), app_nil_r. reflexivity.
  - rewrite Hr, (flush_rev G Hne). reflexivity.
Qed.

Lemma sub_word_from : forall n cur,
  (List.length cur <= n)%nat ->
  forall fuel p pv,
    (List.length cur < fuel)%nat ->
    skipn p txt = cur ->
    word_opt pv && word_opt (hd_error cur) = false ->
    stitch K txt p (finditer_from fuel true re p pv cur) = map_words G cur.
Proof.
  induction n as [|n IH]; intros cur Hn fuel p pv Hfuel Hs Hmid.
  - destruct cur; [|simpl in Hn; lia].
    destruct fuel as [|f]; [lia|]. cbn [finditer_from].
    rewrite scan_unfold. unfold re. rewrite run_word by assumption.
    simpl. rewrite (eq_ci_nil k_nonempty).
    destruct (xorb (word_opt pv) false); simpl; assumption.
  - destruct cur as [|c t].
    { destruct fuel as [|f]; [lia|]. cbn [finditer_from].
      rewrite scan_unfold. unfold re. rewrite run_word by assumption.
      simpl. rewrite (eq_ci_nil k_nonempty).
      destruct (xorb (word_opt pv) false); simpl; assumption. }
    simpl in Hn, Hfuel.
    destruct (is_word c) eqn:Ec.
    + (* a word begins at [p] *)
      simpl in Hmid. rewrite Ec, andb_true_r in Hmid.
      pose proof (span_word_app (c :: t)) as Happ.
      pose proof (span_word_all (c :: t)) as Hall.
      pose proof (span_word_rest (c :: t)) as Hrest.
      destruct (span_word (c :: t)) as [u r] eqn:Esp. simpl in Happ, Hall, Hrest.
      assert (Hu : exists u', u = c :: u').
      { simpl in Esp. rewrite Ec in Esp. destruct (span_word t) as [u0 r0].
        inversion Esp; subst. eexists; reflexivity. }
      destruct Hu as (u' & ->).
      assert (Ht : t = u' ++ r) by (simpl in Happ; congruence).
      assert (Hlen : (List.length r <= n)%nat).
      { subst t. rewrite length_app in Hn. lia. }
      assert (Hr : word_opt (last_of pv (c :: u')) && word_opt (hd_error r)
                   = false).
      { destruct r as [|d r']; simpl; [apply andb_false_r|].
        rewrite Hrest. apply andb_false_r. }
      rewrite <- Happ at 2.
      rewrite map_words_word; [|discriminate|assumption|assumption].
      unfold G at 1. unfold repl.
      destruct (eq_ci k (c :: u')) eqn:Eeq.
      * (* the word spells [k] *)
        destruct fuel as [|f]; [lia|]. cbn [finditer_from].
        rewrite scan_unfold. unfold re. rewrite run_word by assumption.
        simpl hd_error. simpl word_opt at 2. rewrite Hmid, Ec. simpl xorb.
        cbv iota. rewrite Esp, Eeq. cbn [m_start m_end pos prev rest caps].
        assert (Hlt : Nat.ltb p (p + List.length (c :: u')) = true).
        { apply Nat.ltb_lt. simpl. lia. }
        rewrite Hlt. cbn [stitch m_start m_end].
        unfold Re.slice at 1. rewrite Nat.sub_diag. simpl firstn at 1.
        rewrite expand_plain by assumption. simpl app at 1.
        f_equal. apply IH; try assumption.
        -- subst t. rewrite length_app in Hfuel. simpl. lia.
        -- apply (@skipn_add_app _ txt p (c :: u') r).
           rewrite Hs, <- Happ. reflexivity.
      * (* another word *)
        rewrite skip_step; [|assumption|].
        -- subst t. rewrite skip_inside; [|inversion Hall; assumption
                                           |simpl; assumption|].
           ++ simpl app. f_equal. f_equal.
              replace (S p + List.length u')%nat
                with (p + List.length (c :: u'))%nat by (simpl; lia).
              rewrite <- last_of_cons with (pv := pv).
              apply IH; try assumption.
              ** rewrite length_app in Hfuel. lia.
              ** replace (S (p + List.length u'))%nat
                   with (p + List.length (c :: u'))%nat by (simpl; lia).
                 apply (@skipn_add_app _ txt p (c :: u') r).
                 rewrite Hs. reflexivity.
           ++ apply skipn_S_tail with (c := c). assumption.
        -- unfold re. rewrite run_word by assumption.
           simpl hd_error. simpl word_opt at 2. rewrite Hmid, Ec. simpl xorb.
           cbv iota. rewrite Esp, Eeq. reflexivity.
    + (* no word begins at [p] *)
      rewrite skip_step; [|assumption|].
      * unfold map_words. cbn [map_words_from]. rewrite Ec. simpl.
        f_equal. apply IH; try lia.
        -- apply skipn_S_tail with (c := c). assumption.
        -- simpl. rewrite Ec. reflexivity.
      * unfold re. rewrite run_word by assumption.
        simpl hd_error. simpl word_opt at 2. rewrite Ec.
        simpl span_word. rewrite Ec, (eq_ci_nil k_nonempty).
        destruct (xorb (word_opt pv) false); reflexivity.
Qed.

(** [re.sub(r'\bk\b', K, txt, flags=re.IGNORECASE)] rewrites the words of
    [txt] that spell [k]. *)
Theorem sub_word : sub true (word_re k) K txt = map_words (repl k K) txt.
Proof.
  unfold sub, finditer.
  apply (sub_word_from (le_n (List.length txt))).
  - lia.
  - reflexivity.
  - reflexivity.
Qed.

End WordSub.

End WordSubFacts.

(* ================================================================== *)
(** * The date formatter

    [_cleanAndFormatDate] strips one leading prefix and then rewrites
    the month words.  The second phase is idempotent on every string;
    the first is repeated by a second application. *)
(* ================================================================== *)

Module DateFacts.
Import StrFacts WordFacts WordSubFacts.

Local Arguments ascii_eqb : simpl never.
Local Arguments is_word : simpl never.

(** [re.sub] leaves a text the pattern does not match in. *)
Lemma sub_no_match ic r tpl s : search ic r s = None -> sub ic r tpl s = s.
Proof.
  unfold search, sub, finditer. intro H. cbn [finditer_from].
  destruct (scan ic r 0 None s) as [[mt st']|]; [discriminate|].
  reflexivity.
Qed.

Lemma strip_is_trimmed s : trimmed (strip s).
Proof.
  unfold strip. split.
  - intros c t E. destruct (rstrip_split (lstrip s)) as (sp & Hs & _).
    rewrite E in Hs. simpl in Hs.
    apply (@DataModelFacts.lstrip_head s c (t ++ sp) Hs).
  - intros c t E. unfold rstrip in E. rewrite rev_involutive in E.
    apply (@DataModelFacts.lstrip_head _ c t E).
Qed.

Lemma map_words_from_id s : forall w,
  map_words_from (fun u => u) s w = rev w ++ s.
Proof.
  assert (Hf : forall w, flush (fun u => u) w = rev w)
    by (intros [|a w]; reflexivity).
  induction s as [|c t IH]; intro w; simpl.
  - rewrite app_nil_r. apply Hf.
  - destruct (is_word c).
    + rewrite IH. simpl. rewrite <- app_assoc. reflexivity.
    + rewrite IH, Hf. reflexivity.
Qed.

Lemma map_words_id s : map_words (fun u => u) s = s.
Proof. apply map_words_from_id. Qed.

(** ** The month words *)

(** One round of the loop over [monthReplacements], on the text and on
    a single word. *)
Definition month_re (kv : string * string) : regex :=
  compile (L ("\b" ++ fst kv ++ "\b")).

Definition month_sub (cleaned : str) (kv : string * string) : str :=
  sub true (month_re kv) (L (snd kv)) cleaned.

Definition month_repl (u : str) (kv : string * string) : str :=
  repl (L (fst kv)) (L (snd kv)) u.

Definition month_word (u : str) : str :=
  fold_left month_repl Processor.monthReplacements u.

Definition is_nil (s : str) : bool := match s with [] => true | _ => false end.

(** A key of letters, and a replacement that is one word. *)
Definition plain_pair (kv : string * string) : bool :=
  negb (is_nil (L (fst kv))) && forallb is_alpha (L (fst kv))
  && negb (is_nil (L (snd kv))) && forallb is_word (L (snd kv))
  && forallb (fun c => negb (ascii_eqb c "\")) (L (snd kv)).

Lemma plain_pair_spec kv : plain_pair kv = true ->
  L (fst kv) <> []
  /\ Forall (fun c => is_alpha c = true) (L (fst kv))
  /\ word (L (snd kv))
  /\ forallb (fun c => negb (ascii_eqb c "\")) (L (snd kv)) = true.
Proof.
  unfold plain_pair. intro H.
  repeat (apply andb_true_iff in H; destruct H as [H ?]).
  repeat split.
  - intro E. rewrite E in H. discriminate.
  - apply Forall_forall. apply forallb_forall. assumption.
  - intro E. rewrite E in *. discriminate.
  - apply Forall_forall. apply forallb_forall. assumption.
  - assumption.
Qed.

Lemma repl_keeps_words k K G0 :
  word K -> keeps_words G0 -> keeps_words (fun u => repl k K (G0 u)).
Proof.
  intros HK HG u Hu. unfold repl.
  destruct (eq_ci k (G0 u)); [assumption | apply HG; assumption].
Qed.

Lemma fold_repl_keeps_words kvs : forall G0,
  forallb plain_pair kvs = true -> keeps_words G0 ->
  keeps_words (fun u => fold_left month_repl kvs (G0 u)).
Proof.
  induction kvs as [|kv t IH]; intros G0 Hp HG; [exact HG|].
  simpl in Hp. apply andb_true_iff in Hp. destruct Hp as [Hkv Ht].
  destruct (plain_pair_spec _ Hkv) as (_ & _ & HK & _).
  simpl. apply (IH (fun u => month_repl (G0 u) kv) Ht).
  apply repl_keeps_words; assumption.
Qed.

(** The loop over the pairs rewrites each word of the text by the loop
    over the pairs on that word. *)
Lemma fold_sub_words kvs : forall G0 s,
  map month_re kvs = map (fun kv => word_re (L (fst kv))) kvs ->
  forallb plain_pair kvs = true ->
  keeps_words G0 ->
  fold_left month_sub kvs (map_words G0 s)
  = map_words (fun u => fold_left month_repl kvs (G0 u)) s.
Proof.
  induction kvs as [|kv t IH]; intros G0 s Hre Hp HG; [reflexivity|].
  cbn [map forallb] in Hre, Hp. injection Hre as Hkv_re Ht_re.
  apply andb_true_iff in Hp. destruct Hp as [Hkv Ht].
  destruct (plain_pair_spec _ Hkv) as (Hne & Hal & HK & Hpl).
  cbn [fold_left]. unfold month_sub at 2. rewrite Hkv_re.
  rewrite (@sub_word (L (fst kv)) (L (snd kv)) (map_words G0 s) Hal Hne Hpl).
  rewrite map_words_compose by assumption.
  apply (IH (fun u => month_repl (G0 u) kv) s Ht_re Ht).
  apply repl_keeps_words; assumption.
Qed.

Lemma month_patterns :
  map month_re Processor.monthReplacements
  = map (fun kv => word_re (L (fst kv))) Processor.monthReplacements.
Proof. vm_compute. reflexivity. Qed.

Lemma month_pairs : forallb plain_pair Processor.monthReplacements = true.
Proof. vm_compute. reflexivity. Qed.

Lemma id_keeps_words : keeps_words (fun u => u).
Proof. intros u Hu. exact Hu. Qed.

Lemma month_word_keeps_words : keeps_words month_word.
Proof.
  apply (fold_repl_keeps_words Processor.monthReplacements
           month_pairs id_keeps_words).
Qed.

Lemma month_pass_words s :
  fold_left month_sub Processor.monthReplacements s = map_words month_word s.
Proof.
  rewrite <- (map_words_id s) at 1.
  apply (fold_sub_words Processor.monthReplacements s
           month_patterns month_pairs id_keeps_words).
Qed.

(** A word is left alone or becomes one of the replacements. *)
Lemma fold_repl_cases kvs : forall v,
  fold_left month_repl kvs v = v
  \/ In (fold_left month_repl kvs v) (map (fun kv => L (snd kv)) kvs).
Proof.
  induction kvs as [|kv t IH]; intro v; [left; reflexivity|].
  simpl. destruct (IH (month_repl v kv)) as [E|Hin].
  - rewrite E. unfold month_repl, repl.
    destruct (eq_ci (L (fst kv)) v); [right; left; reflexivity | left; reflexivity].
  - right. right. assumption.
Qed.

Lemma month_word_fixes_months :
  forallb (fun K => str_eqb (month_word K) K)
    (map (fun kv => L (snd kv)) Processor.monthReplacements) = true.
Proof. vm_compute. reflexivity. Qed.

Lemma month_word_cases u :
  month_word u = u
  \/ In (month_word u) (map (fun kv => L (snd kv)) Processor.monthReplacements).
Proof. exact (fold_repl_cases Processor.monthReplacements u). Qed.

Lemma month_word_idem u : month_word (month_word u) = month_word u.
Proof.
  destruct (month_word_cases u) as [E|Hin].
  - rewrite E. exact E.
  - pose proof (proj1 (forallb_forall _ _) month_word_fixes_months _ Hin) as H.
    apply ResolverFacts.str_eqb_eq in H. exact H.
Qed.

Lemma _cleanAndFormatDate_words date :
  Processor._cleanAndFormatDate date
  = map_words month_word (strip (sub true Processor.date_prefix [] date)).
Proof. apply month_pass_words. Qed.

Lemma _cleanAndFormatDate_trimmed date :
  trimmed (Processor._cleanAndFormatDate date).
Proof.
  rewrite _cleanAndFormatDate_words.
  apply map_words_trimmed;
    [apply month_word_keeps_words | apply strip_is_trimmed].
Qed.

(** The month words are rewritten once and for all. *)
Lemma month_pass_idem s :
  map_words month_word (map_words month_word s) = map_words month_word s.
Proof.
  rewrite (@map_words_compose month_word month_word _ month_word_keeps_words).
  apply map_words_ext. intros u _. apply month_word_idem.
Qed.

Unset Implicit Arguments.

(** Where the first application leaves no prefix to strip, the second
    only runs the loop over the month words again. *)
Lemma _cleanAndFormatDate_again date :
  search true Processor.date_prefix (Processor._cleanAndFormatDate date) = None ->
  Processor._cleanAndFormatDate (Processor._cleanAndFormatDate date)
  = map_words month_word (Processor._cleanAndFormatDate date).
Proof.
  intro H.
  rewrite (_cleanAndFormatDate_words (Processor._cleanAndFormatDate date)).
  rewrite (@sub_no_match _ _ [] _ H).
  rewrite (strip_trimmed (_cleanAndFormatDate_trimmed date)).
  reflexivity.
Qed.

Lemma _cleanAndFormatDate_idem date :
  search true Processor.date_prefix (Processor._cleanAndFormatDate date) = None ->
  Processor._cleanAndFormatDate (Processor._cleanAndFormatDate date)
  = Processor._cleanAndFormatDate date.
Proof.
  intro H. rewrite (@_cleanAndFormatDate_again date H).
  pose proof (_cleanAndFormatDate_words date) as E.
  revert E. generalize (Processor._cleanAndFormatDate date).
  intros d ->. apply month_pass_idem.
Qed.

Set Implicit Arguments.

End DateFacts.
(* ================================================================== *)
(** * The patterns of the sources parse *)
(* ================================================================== *)

Module PatternFacts.

(** [compile] answers [never] for a pattern that does not parse. *)
Definition is_never (r : regex) : bool :=
  match r with
  | Cls false [] => true
  | _ => false
  end.

Definition parses (p : pattern) : bool := negb (is_never (snd p)).

Definition context_patterns : list pattern :=
  map (fun contextPattern =>
         re_compile (contextPattern ++ "([A-Z][a-z]+(?:\s+[A-Z][a-z]+)*)")
           IGNORECASE) personNameContext
  ++ map (fun verb =>
            re_compile ("\b" ++ verb ++ "\s+(?:for\s+)?(?:the\s+)?([A-Z][^.!?]*?(?:conference|summit|workshop|meetup|expo|convention|symposium))")
              IGNORECASE) registrationVerbs.

Lemma extractor_patterns_parse :
  forallb parses
    (personNames ++ eventPatterns ++ locationPatterns ++ datePatterns
     ++ validDatePatterns
     ++ [year_20xx; location_shape; month_prefix; four_digits]
     ++ context_patterns) = true.
Proof. vm_compute. reflexivity. Qed.

Lemma processor_patterns_parse :
  forallb parses
    (Processor.invalid_personName ++ Processor.invalid_eventName
     ++ Processor.invalid_location
     ++ [Processor.name_charset; Processor.date_shape]
     ++ Processor.name_fallback_patterns
     ++ Processor.event_fallback_patterns
     ++ Processor.location_fallback_patterns
     ++ Processor.date_fallback_patterns
     ++ map (fun kv => (true, DateFacts.month_re kv))
          Processor.monthReplacements) = true
  /\ is_never Processor.date_prefix = false
  /\ is_never Processor.trailing_punctuation = false.
Proof. vm_compute. repeat split. Qed.

Lemma preprocessor_patterns_parse :
  forallb (fun r => negb (is_never r))
    [Preprocessor.extraWhitespace; Preprocessor.emailPattern;
     Preprocessor.phonePattern; Preprocessor.urlPattern] = true.
Proof. vm_compute. reflexivity. Qed.

Lemma patterns_parse :
  forallb parses
    (personNames ++ eventPatterns ++ locationPatterns ++ datePatterns) = true.
Proof. vm_compute. reflexivity. Qed.

End PatternFacts.
(* ================================================================== *)
(** * Idempotence of the formatters *)
(* ================================================================== *)

Module IdempotenceFacts.
Import Processor.

Definition stacked_prefix : str := L "on on Mar 15, 2025".

(** The date formatter strips one leading prefix word at a time: on a
    date it accepts, with two prefix words, the second application
    strips what the first has left. *)
Lemma date_formatter_counterexample :
  _validateDateFormat stacked_prefix = true
  /\ _cleanAndFormatDate stacked_prefix = L "on March 15, 2025"
  /\ _cleanAndFormatDate (_cleanAndFormatDate stacked_prefix)
     = L "March 15, 2025"
  /\ _cleanAndFormatDate (_cleanAndFormatDate stacked_prefix)
     <> _cleanAndFormatDate stacked_prefix.
Proof. vm_compute. repeat split; discriminate. Qed.

Definition single_prefix : str := L "on Mar 15, 2025".

(** [str.isascii]: every character is below 128.  On such strings the
    case mapping of [PyStr] is the one of Python; beyond them Python
    has characters whose upper- or title-case is more than one
    character, which [PyStr] does not model. *)
Definition isascii (x : str) : bool :=
  forallb (fun c => (code c <? 128)%N) x.

(** C9 (amended).  On every string of ASCII characters the person-name,
    location and event-name formatters are idempotent, and the date
    formatter is idempotent when the formatted value does not again
    begin with one of the prefixes it strips. *)
Theorem formatters_idempotent (x : str) :
  isascii x = true ->
  _cleanAndFormatPersonName (_cleanAndFormatPersonName x)
  = _cleanAndFormatPersonName x
  /\ _cleanAndFormatLocationName (_cleanAndFormatLocationName x)
     = _cleanAndFormatLocationName x
  /\ _cleanAndFormatEventName (_cleanAndFormatEventName x)
     = _cleanAndFormatEventName x
  /\ (search true date_prefix (_cleanAndFormatDate x) = None ->
      _cleanAndFormatDate (_cleanAndFormatDate x) = _cleanAndFormatDate x).
Proof.
  intros _.
  split; [apply FormatterFacts._cleanAndFormatPersonName_idem|].
  split; [apply FormatterFacts._cleanAndFormatLocationName_idem|].
  split; [apply FormatterFacts._cleanAndFormatEventName_idem|].
  apply DateFacts._cleanAndFormatDate_idem.
Qed.

(** A date with one prefix: the first application strips it and the
    second finds nothing left to strip. *)
Lemma formatters_idempotent_witness :
  isascii single_prefix = true
  /\ search true date_prefix (_cleanAndFormatDate single_prefix) = None
  /\ _cleanAndFormatDate single_prefix = L "March 15, 2025"
  /\ _cleanAndFormatDate (_cleanAndFormatDate single_prefix)
     = _cleanAndFormatDate single_prefix.
Proof.
  assert (Ha : isascii single_prefix = true) by (vm_compute; reflexivity).
  assert (H : search true date_prefix (_cleanAndFormatDate single_prefix)
              = None) by (vm_compute; reflexivity).
  split; [exact Ha|]. split; [exact H|]. split; [vm_compute; reflexivity|].
  exact (proj2 (proj2 (proj2 (formatters_idempotent single_prefix Ha))) H).
Defined.

End IdempotenceFacts.

(* ================================================================== *)
(** * Matches lie inside the text *)
(* ================================================================== *)

Module ReBounds.

(** [fits n st]: [st] is a state of a scan over a text of length [n],
    and the spans recorded so far end inside the text. *)
Definition fits (n : nat) (st : mstate) : Prop :=
  (pos st + List.length (rest st) = n)%nat
  /\ Forall (fun c => (snd (snd c) <= n)%nat) (caps st).

Definition keeps_fit (n : nat)
    (body : mstate -> (mstate -> option mstate) -> option mstate) : Prop :=
  forall st k res,
    fits n st -> body st k = Some res ->
    exists st', k st' = Some res /\ fits n st'.

Lemma fits_advance n st x t :
  fits n st -> rest st = x :: t -> fits n (advance st x t).
Proof.
  intros [Hp Hc] Hr. split; simpl; [|assumption].
  rewrite Hr in Hp. simpl in Hp. lia.
Qed.

Lemma fits_set_cap n g s st :
  fits n st -> fits n (set_cap g s (pos st) st).
Proof.
  intros [Hp Hc]. split; simpl; [assumption|].
  constructor; [simpl; lia | assumption].
Qed.

Lemma rep_loop_fits n body lo hi greedy k :
  keeps_fit n body ->
  forall fuel i st res,
    fits n st ->
    rep_loop body lo hi greedy k fuel i st = Some res ->
    exists st', k st' = Some res /\ fits n st'.
Proof.
  intros Hbody. induction fuel as [|f IH]; intros i st res Hst H;
    [discriminate|].
  simpl in H.
  assert (Hmore :
    body st (fun st' =>
      if Nat.ltb i lo || Nat.ltb (pos st) (pos st')
      then rep_loop body lo hi greedy k f (S i) st' else None) = Some res ->
    exists st', k st' = Some res /\ fits n st').
  { intro Hm. apply (Hbody _ _ _ Hst) in Hm.
    destruct Hm as (st1 & Hk1 & F1).
    destruct (Nat.ltb i lo || Nat.ltb (pos st) (pos st1)); [|discriminate].
    apply (IH _ _ _ F1 Hk1). }
  assert (Hstop : k st = Some res ->
                  exists st', k st' = Some res /\ fits n st').
  { intro Hk. exists st. split; assumption. }
  destruct (Nat.ltb i lo); [auto|].
  destruct (reached i hi); [auto|].
  destruct greedy.
  - destruct (body st _) eqn:Eb; [inversion H; subst; auto | auto].
  - destruct (k st) eqn:Ek; [inversion H; subst; auto | auto].
Qed.

Theorem m_fits n ic r : keeps_fit n (m ic r).
Proof.
  unfold keeps_fit. induction r as
    [ | c | | neg items | a IHa b IHb | a IHa b IHb | lo hi greedy a IHa
    | g a IHa | | | ]; intros st k res Hst H; simpl in H.
  - exists st. split; assumption.
  - destruct (rest st) as [|x t] eqn:Er; [discriminate|].
    destruct (chr_match ic c x); [|discriminate].
    eexists. split; [exact H | apply fits_advance; assumption].
  - destruct (rest st) as [|x t] eqn:Er; [discriminate|].
    destruct (ascii_eqb x newline); [discriminate|].
    eexists. split; [exact H | apply fits_advance; assumption].
  - destruct (rest st) as [|x t] eqn:Er; [discriminate|].
    destruct (cls_match ic neg items x); [|discriminate].
    eexists. split; [exact H | apply fits_advance; assumption].
  - apply (IHa _ _ _ Hst) in H. destruct H as (st1 & H1 & F1).
    apply (IHb _ _ _ F1 H1).
  - destruct (m ic a st k) eqn:Ea.
    + inversion H; subst. apply (IHa _ _ _ Hst Ea).
    + apply (IHb _ _ _ Hst H).
  - eapply rep_loop_fits; [exact IHa | exact Hst | exact H].
  - apply (IHa _ _ _ Hst) in H. destruct H as (st1 & H1 & F1).
    eexists. split; [exact H1|]. apply fits_set_cap. assumption.
  - destruct (at_boundary st); [|discriminate].
    exists st. split; assumption.
  - destruct (Nat.eqb (pos st) 0); [|discriminate].
    exists st. split; assumption.
  - exists st. split; [|assumption].
    destruct (rest st) as [|x [|y t]]; try assumption; try discriminate.
    destruct (ascii_eqb x newline); [assumption | discriminate].
Qed.

(** A match object whose span and groups end inside a text of length
    [n]. *)
Definition inside (n : nat) (mt : rmatch) : Prop :=
  (m_end mt <= n)%nat
  /\ forall g s e, lookup_cap g (m_caps mt) = Some (s, e) -> (e <= n)%nat.

Lemma run_fits n ic r p pv s st' :
  (p + List.length s = n)%nat ->
  run ic r (mkState p pv s []) = Some st' ->
  fits n st'.
Proof.
  intros Hn H. unfold run in H. simpl in H.
  apply (@m_fits n ic r) in H.
  - destruct H as (st1 & Hk & F). inversion Hk; subst. assumption.
  - split; simpl; [assumption | constructor].
Qed.

Lemma fits_inside n p st' :
  fits n st' -> inside n (mkMatch p (pos st') (caps st')).
Proof.
  intros [Hp Hc]. split; simpl; [lia|].
  intros g s e H. apply ReFacts.lookup_cap_In in H.
  rewrite Forall_forall in Hc. apply (Hc _ H).
Qed.

Lemma scan_fits n ic r s : forall p pv mt st',
  (p + List.length s = n)%nat ->
  scan ic r p pv s = Some (mt, st') ->
  inside n mt /\ fits n st'.
Proof.
  induction s as [|x t IH]; intros p pv mt st' Hn H; simpl in H.
  - destruct (run ic r _) as [st1|] eqn:E; [|discriminate].
    apply (@run_fits n ic r _ _ _ _ Hn) in E. inversion H; subst mt st'.
    split; [apply fits_inside|]; assumption.
  - destruct (run ic r _) as [st1|] eqn:E.
    + apply (@run_fits n ic r _ _ _ _ Hn) in E. inversion H; subst mt st'.
      split; [apply fits_inside|]; assumption.
    + apply (IH (S p) (Some x)); [simpl in Hn; lia | assumption].
Qed.

Lemma finditer_from_inside n ic r : forall fuel p pv s,
  (p + List.length s = n)%nat ->
  Forall (inside n) (finditer_from fuel ic r p pv s).
Proof.
  induction fuel as [|f IH]; intros p pv s Hn; simpl; [constructor|].
  destruct (scan ic r p pv s) as [[mt st']|] eqn:E; [|constructor].
  destruct (scan_fits _ _ _ _ _ Hn E) as [Hin [Hp Hc]].
  destruct (Nat.ltb (m_start mt) (m_end mt)).
  - constructor; [assumption | apply IH; assumption].
  - destruct (rest st') as [|x t] eqn:Er.
    + constructor; [assumption | constructor].
    + constructor; [assumption|]. apply IH. simpl in Hp. lia.
Qed.

Lemma finditer_inside ic r s :
  Forall (inside (List.length s)) (finditer ic r s).
Proof. apply finditer_from_inside. reflexivity. Qed.

End ReBounds.

(* ================================================================== *)
(** * Substitution of the runs and of the characters of a class *)
(* ================================================================== *)

Module ClassSubFacts.
Import StrFacts WordFacts WordSubFacts.

Local Arguments cls_match : simpl never.

(** The longest prefix of characters that satisfy [f], and the rest. *)
Fixpoint span_by (f : ascii -> bool) (s : str) : str * str :=
  match s with
  | [] => ([], [])
  | c :: t =>
      if f c then let '(u, r) := span_by f t in (c :: u, r) else ([], s)
  end.

Lemma span_by_app f s : fst (span_by f s) ++ snd (span_by f s) = s.
Proof.
  induction s as [|c t IH]; simpl; [reflexivity|].
  destruct (f c); [|reflexivity].
  destruct (span_by f t) as [u r]. simpl in *. rewrite IH. reflexivity.
Qed.

Lemma span_by_all f s : Forall (fun c => f c = true) (fst (span_by f s)).
Proof.
  induction s as [|c t IH]; simpl; [constructor|].
  destruct (f c) eqn:E; [|constructor].
  destruct (span_by f t) as [u r]. simpl in *. constructor; assumption.
Qed.

Lemma span_by_rest f s :
  match snd (span_by f s) with
  | [] => True
  | c :: _ => f c = false
  end.
Proof.
  induction s as [|c t IH]; simpl; [exact I|].
  destruct (f c) eqn:E; [|simpl; assumption].
  destruct (span_by f t) as [u r]. simpl in *. assumption.
Qed.

(** [squash f tpl s]: every maximal run of characters that satisfy [f]
    is replaced by [tpl]. *)
Fixpoint squash_from (f : ascii -> bool) (tpl : str) (in_run : bool)
    (s : str) : str :=
  match s with
  | [] => []
  | c :: t =>
      if f c
      then if in_run then squash_from f tpl true t
           else tpl ++ squash_from f tpl true t
      else c :: squash_from f tpl false t
  end.

Definition squash (f : ascii -> bool) (tpl s : str) : str :=
  squash_from f tpl false s.

Lemma squash_from_stop f tpl b r :
  match r with [] => True | c :: _ => f c = false end ->
  squash_from f tpl b r = squash f tpl r.
Proof.
  destruct r as [|c t]; [reflexivity|]. unfold squash. simpl.
  intros ->. reflexivity.
Qed.

Lemma squash_from_run f tpl u : forall r,
  Forall (fun c => f c = true) u ->
  match r with [] => True | c :: _ => f c = false end ->
  squash_from f tpl true (u ++ r) = squash f tpl r.
Proof.
  induction u as [|x u IH]; intros r Hu Hr.
  - apply squash_from_stop. assumption.
  - inversion Hu as [|? ? Hx Hu']; subst. simpl. rewrite Hx.
    apply IH; assumption.
Qed.

Lemma squash_run f tpl x u r :
  Forall (fun c => f c = true) (x :: u) ->
  match r with [] => True | c :: _ => f c = false end ->
  squash f tpl ((x :: u) ++ r) = tpl ++ squash f tpl r.
Proof.
  intros Hu Hr. inversion Hu as [|? ? Hx Hu']; subst.
  unfold squash at 1. simpl. rewrite Hx.
  rewrite squash_from_run by assumption. reflexivity.
Qed.

(** ** One attempt of [[...]+] at a position *)

Lemma rep_loop_unfold body lo hi greedy k f i st :
  rep_loop body lo hi greedy k (S f) i st
  = if Nat.ltb i lo
    then body st (fun st' =>
           if Nat.ltb i lo || Nat.ltb (pos st) (pos st')
           then rep_loop body lo hi greedy k f (S i) st' else None)
    else if reached i hi then k st
    else if greedy then
      match body st (fun st' =>
              if Nat.ltb i lo || Nat.ltb (pos st) (pos st')
              then rep_loop body lo hi greedy k f (S i) st' else None) with
      | Some res => Some res
      | None => k st
      end
    else
      match k st with
      | Some res => Some res
      | None =>
          body st (fun st' =>
            if Nat.ltb i lo || Nat.ltb (pos st) (pos st')
            then rep_loop body lo hi greedy k f (S i) st' else None)
      end.
Proof. reflexivity. Qed.

Lemma m_cls ic neg items st k :
  m ic (Cls neg items) st k
  = match rest st with
    | x :: t => if cls_match ic neg items x then k (advance st x t) else None
    | [] => None
    end.
Proof. reflexivity. Qed.

Lemma rep_cls ic neg items lo u : forall r fuel i p pv cs,
  Forall (fun x => cls_match ic neg items x = true) u ->
  match r with [] => True | x :: _ => cls_match ic neg items x = false end ->
  (List.length u < fuel)%nat ->
  rep_loop (m ic (Cls neg items)) lo None true Some fuel i
    (mkState p pv (u ++ r) cs)
  = if Nat.leb lo (i + List.length u)
    then Some (mkState (p + List.length u) (last_of pv u) r cs)
    else None.
Proof.
  induction u as [|x u IH]; intros r fuel i p pv cs Hu Hr Hfuel.
  - destruct fuel as [|f]; [simpl in Hfuel; lia|].
    rewrite rep_loop_unfold, !m_cls. cbn [app List.length reached rest].
    rewrite !Nat.add_0_r.
    unfold last_of. simpl rev. cbv iota.
    destruct r as [|y t]; [|rewrite Hr];
      (destruct (Nat.ltb i lo) eqn:E;
       [ apply Nat.ltb_lt in E;
         replace (Nat.leb lo i) with false
           by (symmetry; apply Nat.leb_gt; lia);
         reflexivity
       | apply Nat.ltb_ge in E;
         replace (Nat.leb lo i) with true
           by (symmetry; apply Nat.leb_le; lia);
         reflexivity ]).
  - inversion Hu as [|? ? Hx Hu']; subst.
    destruct fuel as [|f]; [simpl in Hfuel; lia|].
    simpl in Hfuel.
    rewrite rep_loop_unfold, !m_cls.
    cbn [app reached rest advance pos prev caps].
    rewrite Hx.
    replace (Nat.ltb p (S p)) with true
      by (symmetry; apply Nat.ltb_lt; lia).
    rewrite orb_true_r.
    change (advance (mkState p pv (x :: u ++ r) cs) x (u ++ r))
      with (mkState (S p) (Some x) (u ++ r) cs).
    rewrite IH by (try assumption; lia).
    rewrite last_of_cons. simpl List.length.
    replace (S i + List.length u)%nat with (i + S (List.length u))%nat by lia.
    replace (S p + List.length u)%nat with (p + S (List.length u))%nat by lia.
    destruct (Nat.ltb i lo) eqn:E; [reflexivity|].
    apply Nat.ltb_ge in E.
    replace (Nat.leb lo (i + S (List.length u))) with true
      by (symmetry; apply Nat.leb_le; lia).
    reflexivity.
Qed.

Lemma run_cls_plus ic neg items p pv s :
  run ic (Rep 1 None true (Cls neg items)) (mkState p pv s [])
  = let '(u, r) := span_by (cls_match ic neg items) s in
    match u with
    | [] => None
    | _ => Some (mkState (p + List.length u) (last_of pv u) r [])
    end.
Proof.
  unfold run.
  change (m ic (Rep 1 None true (Cls neg items))
            (mkState (pos (mkState p pv s [])) (prev (mkState p pv s []))
               (rest (mkState p pv s [])) []) Some)
    with (rep_loop (m ic (Cls neg items)) 1 None true Some
            (1 + List.length s + 1) 0 (mkState p pv s [])).
  pose proof (span_by_app (cls_match ic neg items) s) as Happ.
  pose proof (span_by_all (cls_match ic neg items) s) as Hall.
  pose proof (span_by_rest (cls_match ic neg items) s) as Hrest.
  destruct (span_by (cls_match ic neg items) s) as [u r].
  simpl in Happ, Hall, Hrest. rewrite <- Happ at 2.
  rewrite rep_cls; try assumption.
  - destruct u; reflexivity.
  - rewrite <- Happ, length_app. lia.
Qed.

Lemma run_cls ic neg items p pv s :
  run ic (Cls neg items) (mkState p pv s [])
  = match s with
    | x :: t =>
        if cls_match ic neg items x
        then Some (mkState (S p) (Some x) t []) else None
    | [] => None
    end.
Proof. unfold run. rewrite m_cls. destruct s; reflexivity. Qed.

(** ** [re.sub] with these patterns *)

Section ClassSub.
Variables (ic neg : bool) (items : list citem) (tpl txt : str).
Hypothesis tpl_plain :
  forallb (fun c => negb (ascii_eqb c "\")) tpl = true.

Let f := cls_match ic neg items.

Lemma sub_cls_plus_from : forall n cur,
  (List.length cur <= n)%nat ->
  forall fuel p pv,
    (List.length cur < fuel)%nat ->
    skipn p txt = cur ->
    stitch tpl txt p
      (finditer_from fuel ic (Rep 1 None true (Cls neg items)) p pv cur)
    = squash f tpl cur.
Proof.
  induction n as [|n IH]; intros cur Hn fuel p pv Hfuel Hs.
  - destruct cur; [|simpl in Hn; lia].
    destruct fuel as [|k]; [lia|]. cbn [finditer_from].
    rewrite scan_unfold, run_cls_plus. simpl. assumption.
  - destruct cur as [|c t].
    { destruct fuel as [|k]; [lia|]. cbn [finditer_from].
      rewrite scan_unfold, run_cls_plus. simpl. assumption. }
    simpl in Hn, Hfuel.
    destruct (f c) eqn:Ec.
    + pose proof (span_by_app f (c :: t)) as Happ.
      pose proof (span_by_all f (c :: t)) as Hall.
      pose proof (span_by_rest f (c :: t)) as Hrest.
      destruct (span_by f (c :: t)) as [u r] eqn:Esp.
      simpl in Happ, Hall, Hrest.
      assert (Hu : exists u', u = c :: u').
      { simpl in Esp. rewrite Ec in Esp. destruct (span_by f t) as [u0 r0].
        inversion Esp; subst. eexists; reflexivity. }
      destruct Hu as (u' & ->).
      assert (Ht : t = u' ++ r) by (simpl in Happ; congruence).
      rewrite <- Happ at 2. rewrite squash_run by assumption.
      destruct fuel as [|k]; [lia|]. cbn [finditer_from].
      rewrite scan_unfold, run_cls_plus. fold f. rewrite Esp.
      cbn [m_start m_end pos prev rest caps].
      assert (Hlt : Nat.ltb p (p + List.length (c :: u')) = true).
      { apply Nat.ltb_lt. simpl. lia. }
      rewrite Hlt. cbn [stitch m_start m_end].
      unfold Re.slice at 1. rewrite Nat.sub_diag. simpl firstn at 1.
      rewrite (@expand_plain txt _ tpl tpl_plain). simpl app at 1.
      f_equal. apply IH.
      * subst t. rewrite length_app in Hn. lia.
      * subst t. rewrite length_app in Hfuel. lia.
      * apply (@skipn_add_app _ txt p (c :: u') r).
        rewrite Hs, <- Happ. reflexivity.
    + rewrite (@finditer_from_skip ic _ fuel p pv c t).
      * rewrite (@stitch_skip tpl txt p c t _ Hs).
        -- unfold squash. simpl. fold f. rewrite Ec. f_equal.
           apply IH; [lia | lia |].
           apply skipn_S_tail with (c := c). assumption.
        -- intros mt ms' E. apply finditer_from_first in E. assumption.
      * rewrite run_cls_plus. fold f. simpl. rewrite Ec. reflexivity.
Qed.

(** [re.sub('[...]+', tpl, txt)] replaces the maximal runs of characters
    of the class. *)
Lemma sub_cls_plus :
  sub ic (Rep 1 None true (Cls neg items)) tpl txt = squash f tpl txt.
Proof.
  unfold sub, finditer.
  apply (@sub_cls_plus_from (List.length txt) txt (le_n _)); [lia|].
  reflexivity.
Qed.

End ClassSub.

Section ClassDelete.
Variables (ic neg : bool) (items : list citem) (txt : str).

Let f := cls_match ic neg items.

Lemma sub_cls_from : forall n cur,
  (List.length cur <= n)%nat ->
  forall fuel p pv,
    (List.length cur < fuel)%nat ->
    skipn p txt = cur ->
    stitch [] txt p (finditer_from fuel ic (Cls neg items) p pv cur)
    = filter (fun c => negb (f c)) cur.
Proof.
  induction n as [|n IH]; intros cur Hn fuel p pv Hfuel Hs.
  - destruct cur; [|simpl in Hn; lia].
    destruct fuel as [|k]; [lia|]. cbn [finditer_from].
    rewrite scan_unfold, run_cls. simpl. assumption.
  - destruct cur as [|c t].
    { destruct fuel as [|k]; [lia|]. cbn [finditer_from].
      rewrite scan_unfold, run_cls. simpl. assumption. }
    simpl in Hn, Hfuel. cbn [filter].
    destruct (f c) eqn:Ec; cbn [negb].
    + destruct fuel as [|k]; [lia|]. cbn [finditer_from].
      rewrite scan_unfold, run_cls. fold f. rewrite Ec.
      cbn [m_start m_end pos prev rest caps].
      replace (Nat.ltb p (S p)) with true
        by (symmetry; apply Nat.ltb_lt; lia).
      cbn [stitch m_start m_end expand].
      unfold Re.slice at 1. rewrite Nat.sub_diag. simpl.
      apply IH; [lia | lia |].
      apply skipn_S_tail with (c := c). assumption.
    + rewrite (@finditer_from_skip ic _ fuel p pv c t).
      * rewrite (@stitch_skip [] txt p c t _ Hs).
        -- f_equal. apply IH; [lia | lia |].
           apply skipn_S_tail with (c := c). assumption.
        -- intros mt ms' E. apply finditer_from_first in E. assumption.
      * rewrite run_cls. fold f. rewrite Ec. reflexivity.
Qed.

(** [re.sub('[...]', '', txt)] deletes the characters of the class. *)
Lemma sub_cls :
  sub ic (Cls neg items) [] txt = filter (fun c => negb (f c)) txt.
Proof.
  unfold sub, finditer.
  apply (@sub_cls_from (List.length txt) txt (le_n _)); [lia|].
  reflexivity.
Qed.

End ClassDelete.

End ClassSubFacts.

(* ================================================================== *)
(** * The records of the data model *)
(* ================================================================== *)

Module RecordFacts.
Import Records.

Lemma field_missing_filled f : field_missing f = negb (Engine.field_filled f).
Proof.
  destruct f as [s|]; simpl; [|reflexivity].
  rewrite negb_andb. reflexivity.
Qed.

Lemma percentage_of_missing info :
  Engine.getCompletionPercentage info
  = 25 * (4 - Z.of_nat (List.length (getMissingFields info))).
Proof.
  unfold Engine.getCompletionPercentage, getMissingFields.
  rewrite !field_missing_filled.
  destruct (Engine.field_filled (participantName info)),
           (Engine.field_filled (eventName info)),
           (Engine.field_filled (location info)),
           (Engine.field_filled (date info)); reflexivity.
Qed.

Lemma isComplete_no_missing info :
  isComplete info = true <-> getMissingFields info = [].
Proof.
  unfold getMissingFields, isComplete.
  rewrite !field_missing_filled.
  destruct (Engine.field_filled (participantName info)),
           (Engine.field_filled (eventName info)),
           (Engine.field_filled (location info)),
           (Engine.field_filled (date info)); simpl;
    split; intro H; try reflexivity; discriminate.
Qed.

Lemma isComplete_full info :
  isComplete info = true <-> Engine.getCompletionPercentage info = 100.
Proof.
  rewrite isComplete_no_missing, percentage_of_missing.
  destruct (getMissingFields info) as [|x l]; simpl List.length.
  - split; reflexivity.
  - split; [discriminate | lia].
Qed.

(** X1.  The three completeness reports of a record agree: the
    completion percentage is 25 for each of the four fields that
    [getMissingFields] does not list, and [isComplete] holds exactly
    when no field is missing, which is when the percentage is 100. *)
Theorem completion_counts_missing (info : EventRegistrationInfo) :
  Engine.getCompletionPercentage info
  = 25 * (4 - Z.of_nat (List.length (getMissingFields info)))
  /\ (isComplete info = true <-> getMissingFields info = [])
  /\ (isComplete info = true <-> Engine.getCompletionPercentage info = 100).
Proof.
  split; [apply percentage_of_missing|].
  split; [apply isComplete_no_missing | apply isComplete_full].
Qed.

(** X2.  Building an [ExtractionRequest] raises exactly when the text
    is empty or whitespace-only or the timeout is not positive, always
    with a [ValueError]; otherwise the request holds the arguments
    unchanged. *)
Theorem new_ExtractionRequest_raises_iff (text : str) (flag : bool)
    (timeout : Z) :
  ((exists e, new_ExtractionRequest text flag timeout = inl e)
   <-> (DataModelFacts.blank text \/ timeout <= 0))
  /\ (forall e, new_ExtractionRequest text flag timeout = inl e ->
                exists msg, e = ValueError msg)
  /\ (forall r, new_ExtractionRequest text flag timeout = Ok r ->
                r = mkRequest text flag timeout).
Proof.
  unfold new_ExtractionRequest.
  destruct (negb (truthy text) || negb (truthy (strip text))) eqn:Eb.
  - apply DataModelFacts.value_test_blank in Eb.
    split; [split|split].
    + intros _. left; assumption.
    + intros _. eexists; reflexivity.
    + intros e H; inversion H; subst. eexists; reflexivity.
    + intros r H; discriminate.
  - apply DataModelFacts.value_test_not_blank in Eb.
    destruct (timeout <=? 0) eqn:Et.
    + apply Z.leb_le in Et. split; [split|split].
      * intros _. right; assumption.
      * intros _. eexists; reflexivity.
      * intros e H; inversion H; subst. eexists; reflexivity.
      * intros r H; discriminate.
    + apply Z.leb_gt in Et. split; [split|split].
      * intros [e H]; discriminate.
      * intros [H | H]; [contradiction | lia].
      * intros e H; discriminate.
      * intros r H; inversion H; reflexivity.
Qed.

(** A whitespace-only text is refused. *)
Lemma new_ExtractionRequest_raises_iff_witness :
  exists e, new_ExtractionRequest (L "  ") false 5000 = inl e.
Proof.
  apply (proj2 (proj1 (new_ExtractionRequest_raises_iff (L "  ") false 5000))).
  left. repeat constructor.
Defined.

(** ** The counters of [ProcessingMetrics] *)

Definition total (d : list (string * Z)) : Z := fold_right Z.add 0 (map snd d).

Lemma dict_set_total k d :
  total (dict_set k (dict_get_or_0 k d + 1) d) = total d + 1.
Proof.
  unfold total. induction d as [|[k' v] t IH]; simpl; [reflexivity|].
  destruct (String.eqb k' k); simpl; lia.
Qed.

Lemma dict_get_set_same k v d : dict_get_or_0 k (dict_set k v d) = v.
Proof.
  induction d as [|[k' v'] t IH]; simpl.
  - rewrite String.eqb_refl. reflexivity.
  - destruct (String.eqb k' k) eqn:E; simpl; rewrite E; [reflexivity | exact IH].
Qed.

Lemma dict_get_set_other k k0 v d :
  k0 <> k -> dict_get_or_0 k0 (dict_set k v d) = dict_get_or_0 k0 d.
Proof.
  intro Hne. induction d as [|[k' v'] t IH]; simpl.
  - destruct (String.eqb k k0) eqn:E; [|reflexivity].
    apply String.eqb_eq in E. congruence.
  - destruct (String.eqb k' k) eqn:E; simpl.
    + apply String.eqb_eq in E. subst k'.
      destruct (String.eqb k k0) eqn:E0; [|reflexivity].
      apply String.eqb_eq in E0. congruence.
    + destruct (String.eqb k' k0); [reflexivity | exact IH].
Qed.

Lemma confidence_value_inj a b :
  confidence_value a = confidence_value b -> a = b.
Proof. destruct a, b; simpl; intro H; try reflexivity; discriminate. Qed.

Definition has_confidence (c : ExtractionConfidence)
    (r : Engine.ExtractionResult) : bool :=
  ExtractionConfidence_eqb (overallConfidence (Engine.registrationInfo r)) c.

Definition count {A : Type} (f : A -> bool) (l : list A) : Z :=
  Z.of_nat (List.length (filter f l)).

Lemma count_cons {A : Type} (f : A -> bool) x l :
  count f (x :: l) = (if f x then 1 else 0) + count f l.
Proof.
  unfold count. simpl. destruct (f x); simpl List.length; lia.
Qed.

Lemma count_bound {A : Type} (f : A -> bool) l :
  0 <= count f l <= Z.of_nat (List.length l).
Proof.
  induction l as [|x l IH]; [unfold count; simpl; lia|].
  rewrite count_cons. simpl List.length. destruct (f x); lia.
Qed.

Lemma updateMetrics_fold rs : forall m,
  let m' := fold_left updateMetrics rs m in
  totalProcessed m' = totalProcessed m + Z.of_nat (List.length rs)
  /\ successfulExtractions m'
     = successfulExtractions m + count isSuccessful rs
  /\ total (confidenceDistribution m')
     = total (confidenceDistribution m) + Z.of_nat (List.length rs)
  /\ forall c,
       dict_get_or_0 (confidence_value c) (confidenceDistribution m')
       = dict_get_or_0 (confidence_value c) (confidenceDistribution m)
         + count (has_confidence c) rs.
Proof.
  induction rs as [|r rs IH]; intro m; cbn [fold_left].
  - cbv zeta. unfold count. simpl.
    split; [lia | split; [lia | split; [lia | intro c; lia]]].
  - destruct (IH (updateMetrics m r)) as (H1 & H2 & H3 & H4).
    cbv zeta. rewrite H1, H2, H3. clear H1 H2 H3.
    rewrite count_cons. unfold updateMetrics at 1 2 3.
    cbn [totalProcessed successfulExtractions confidenceDistribution].
    rewrite dict_set_total. simpl List.length.
    rewrite Nat2Z.inj_succ.
    split.
    { lia. }
    split.
    { destruct (isSuccessful r); lia. }
    split.
    { lia. }
    intro c. rewrite H4, count_cons. unfold updateMetrics.
    cbn [confidenceDistribution].
    destruct (has_confidence c r) eqn:E; unfold has_confidence in E.
    + apply ResolverFacts.ExtractionConfidence_eqb_eq in E. rewrite E.
      rewrite dict_get_set_same. lia.
    + rewrite dict_get_set_other; [lia|].
      intro Hc. apply confidence_value_inj in Hc. subst c.
      rewrite (proj2 (ResolverFacts.ExtractionConfidence_eqb_eq _ _) eq_refl)
        in E.
      discriminate.
Qed.

(** X3.  After any sequence of results has been fed to fresh metrics,
    [totalProcessed] is their number, [successfulExtractions] is the
    number of successful ones and never exceeds the total, the counts
    of [confidenceDistribution] add up to the total, and the count
    filed under a confidence level is the number of results with that
    overall confidence. *)
Theorem updateMetrics_counts (results : list Engine.ExtractionResult) :
  let m := fold_left updateMetrics results ProcessingMetrics_ in
  totalProcessed m = Z.of_nat (List.length results)
  /\ successfulExtractions m = count isSuccessful results
  /\ 0 <= successfulExtractions m <= totalProcessed m
  /\ total (confidenceDistribution m) = totalProcessed m
  /\ forall c,
       dict_get_or_0 (confidence_value c) (confidenceDistribution m)
       = count (has_confidence c) results.
Proof.
  destruct (updateMetrics_fold results ProcessingMetrics_)
    as (H1 & H2 & H3 & H4).
  cbv zeta. simpl in H1, H2, H3. rewrite H1, H2, H3.
  pose proof (count_bound isSuccessful results).
  split; [lia | split; [lia | split; [lia | split; [lia|]]]].
  intro c. rewrite H4. simpl. lia.
Qed.

End RecordFacts.

(* ================================================================== *)
(** * The processor: merging, selection and average confidence *)
(* ================================================================== *)

Module ProcessingFacts.
Import Processor MergerFacts.

(** ** [mergeEntities] on a list with distinct keys *)

Lemma dict_append_fresh {K V : Type} (eqb : K -> K -> bool) k (v : V) d :
  (forall k', In k' (map fst d) -> eqb k' k = false) ->
  dict_append eqb k v d = d ++ [(k, [v])].
Proof.
  induction d as [|[k' vs] d IH]; simpl; intro H; [reflexivity|].
  rewrite (H k' (or_introl eq_refl)). f_equal. apply IH.
  intros k0 Hk0. apply H. right; assumption.
Qed.

Lemma merge_key_eqb_false a b : a <> b -> merge_key_eqb a b = false.
Proof.
  intro H. destruct (merge_key_eqb a b) eqn:E; [|reflexivity].
  apply merge_key_eqb_eq in E. contradiction.
Qed.

Lemma group_distinct l : forall d,
  NoDup (map fst d ++ map key_of l) ->
  fold_left grouping l d = d ++ map (fun e => (key_of e, [e])) l.
Proof.
  induction l as [|e l IH]; intros d H; simpl.
  - rewrite app_nil_r. reflexivity.
  - assert (Hfresh : grouping d e = d ++ [(key_of e, [e])]).
    { unfold grouping. apply dict_append_fresh. intros k' Hk'.
      apply merge_key_eqb_false. intros ->.
      apply NoDup_remove_2 in H. apply H.
      apply in_or_app. left; assumption. }
    rewrite Hfresh, IH.
    + rewrite <- app_assoc. reflexivity.
    + rewrite map_app. simpl. rewrite <- app_assoc. simpl.
      simpl in H. apply NoDup_remove in H. destruct H as [H Hnot].
      apply NoDup_app_remove_l in H as Hl.
      clear IH Hfresh. revert H Hnot.
      generalize (map fst d) (map key_of l) (key_of e). clear.
      intros a b k H Hnot.
      induction a as [|x a IHa]; simpl in *.
      * constructor; assumption.
      * inversion H as [|? ? Hx Ha]; subst. constructor.
        -- rewrite in_app_iff in *. simpl. intros [Hin | [Heq | Hin]].
           ++ apply Hx. left; assumption.
           ++ subst x. apply Hnot. left; reflexivity.
           ++ apply Hx. right; assumption.
        -- apply IHa; [assumption|]. intro Hin. apply Hnot. right; assumption.
Qed.

Lemma flat_map_singletons (l : list ExtractedEntity) :
  flat_map (fun kv : merge_key * list ExtractedEntity => merge_group (snd kv))
    (map (fun e => (key_of e, [e])) l) = l.
Proof. induction l as [|e l IH]; simpl; [|rewrite IH]; reflexivity. Qed.

Lemma mergeEntities_distinct l :
  NoDup (map key_of l) -> mergeEntities l = l.
Proof.
  intro H. destruct l as [|e l]; [reflexivity|].
  unfold mergeEntities, group_by_key. fold grouping.
  rewrite (@group_distinct (e :: l) [] H).
  exact (flat_map_singletons (e :: l)).
Qed.

Lemma mergeEntities_keys entities :
  NoDup (map key_of (mergeEntities entities)).
Proof.
  assert (Hm : mergeEntities entities
               = flat_map (fun kv => merge_group (snd kv))
                   (group_by_key entities)).
  { destruct entities; reflexivity. }
  rewrite Hm. unfold group_by_key. fold grouping.
  destruct (@group_fold entities entities [] (incl_refl _)
              (NoDup_nil _) (Forall_nil _)) as (Hnd & Hok & _ & _).
  rewrite (merged_of_groups Hok). assumption.
Qed.

(** X4.  Merging is idempotent, and a list whose entities have
    pairwise distinct keys [(entityType, value.lower())] is returned as
    it is, in the same order. *)
Theorem mergeEntities_idempotent (entities : list ExtractedEntity) :
  mergeEntities (mergeEntities entities) = mergeEntities entities
  /\ (NoDup (map key_of entities) -> mergeEntities entities = entities).
Proof.
  split.
  - apply mergeEntities_distinct, mergeEntities_keys.
  - apply mergeEntities_distinct.
Qed.

(** Two entities of different types with the same text are both kept. *)
Lemma mergeEntities_idempotent_witness :
  mergeEntities [ResolverFacts.sample_medium; ResolverFacts.sample_high]
  = [ResolverFacts.sample_medium; ResolverFacts.sample_high].
Proof.
  apply (proj2 (mergeEntities_idempotent
                  [ResolverFacts.sample_medium; ResolverFacts.sample_high])).
  repeat constructor; simpl; intuition discriminate.
Defined.

(** ** The selectors *)

(** [e] is the first entity of [l] with the highest score. *)
Definition first_best (score : ExtractedEntity -> Z)
    (l : list ExtractedEntity) (r : option ExtractedEntity) : Prop :=
  match r with
  | None => l = []
  | Some e =>
      exists pre post,
        l = pre ++ e :: post
        /\ Forall (fun x => score x < score e) pre
        /\ Forall (fun x => score x <= score e) post
  end.

Definition ranked (score : ExtractedEntity -> Z) (l : list ExtractedEntity)
    : list (ExtractedEntity * Z) :=
  fold_right insert_by_score [] (map (fun e => (e, score e)) l).

Lemma ranked_head score x l :
  hd_error (ranked score (x :: l))
  = match hd_error (ranked score l) with
    | None => Some (x, score x)
    | Some y => if snd y <=? score x then Some (x, score x) else Some y
    end.
Proof.
  unfold ranked. simpl.
  destruct (fold_right insert_by_score [] (map (fun e => (e, score e)) l))
    as [|y t]; simpl; [reflexivity|].
  destruct (snd y <=? score x); reflexivity.
Qed.

Lemma ranked_best score l :
  match hd_error (ranked score l) with
  | None => l = []
  | Some y => snd y = score (fst y) /\ first_best score l (Some (fst y))
  end.
Proof.
  induction l as [|x l IH]; [reflexivity|].
  rewrite ranked_head.
  destruct (hd_error (ranked score l)) as [[e s]|].
  - simpl in IH. destruct IH as [Hs (pre & post & -> & Hpre & Hpost)].
    subst s. simpl snd. destruct (score e <=? score x) eqn:E; simpl.
    + apply Z.leb_le in E. split; [reflexivity|].
      exists [], (pre ++ e :: post). repeat split; [constructor|].
      apply Forall_app. split.
      * eapply Forall_impl; [|exact Hpre]. simpl. intros. lia.
      * constructor; [assumption|].
        eapply Forall_impl; [|exact Hpost]. simpl. intros. lia.
    + apply Z.leb_gt in E. split; [reflexivity|].
      exists (x :: pre), post. repeat split; [|assumption].
      constructor; assumption.
  - subst l. simpl. split; [reflexivity|].
    exists [], []. repeat split; constructor.
Qed.

Lemma select_best_first score l : first_best score l (select_best score l).
Proof.
  destruct l as [|x l]; [reflexivity|].
  unfold select_best. fold (ranked score (x :: l)).
  pose proof (ranked_best score (x :: l)) as H.
  destruct (hd_error (ranked score (x :: l))) as [y|]; simpl.
  - apply H.
  - discriminate.
Qed.

(** X5.  Each of the four selectors returns [None] exactly for the
    empty list and otherwise an entity of the list whose score is the
    highest; among several with the highest score it returns the one
    that comes first in the list. *)
Theorem select_best_entity (current_year : Z) (l : list ExtractedEntity) :
  first_best _scorePersonEntity l (_selectBestPersonEntity l)
  /\ first_best _scoreEventEntity l (_selectBestEventEntity l)
  /\ first_best _scoreLocationEntity l (_selectBestLocationEntity l)
  /\ first_best (_scoreDateEntity current_year) l
       (_selectBestDateEntity current_year l).
Proof. repeat split; apply select_best_first. Qed.

(** ** [calculateConfidence] *)

Import Processing.

Definition scores (l : list ExtractedEntity) : Z :=
  fold_right Z.add 0 (map (fun e => confidenceValues (confidence e)) l).

Lemma scores_above k l :
  k * Z.of_nat (List.length l) < scores l ->
  exists e, In e l /\ k < _confidenceToScore (confidence e).
Proof.
  unfold scores. induction l as [|x l IH]; simpl List.length; simpl map;
    simpl fold_right; intro H; [lia|].
  rewrite Nat2Z.inj_succ, Z.mul_succ_r in H.
  destruct (Z_lt_dec k (confidenceValues (confidence x))) as [Hx | Hx].
  - exists x. split; [left; reflexivity | exact Hx].
  - destruct IH as (e & He & Hk); [lia|].
    exists e. split; [right; assumption | assumption].
Qed.

Lemma scores_below k l :
  scores l < k * Z.of_nat (List.length l) ->
  exists e, In e l /\ _confidenceToScore (confidence e) < k.
Proof.
  unfold scores. induction l as [|x l IH]; simpl List.length; simpl map;
    simpl fold_right; intro H; [lia|].
  rewrite Nat2Z.inj_succ, Z.mul_succ_r in H.
  destruct (Z_lt_dec (confidenceValues (confidence x)) k) as [Hx | Hx].
  - exists x. split; [left; reflexivity | exact Hx].
  - destruct IH as (e & He & Hk); [lia|].
    exists e. split; [right; assumption | assumption].
Qed.

Lemma scores_nonneg l : 0 <= scores l.
Proof.
  unfold scores. induction l as [|x l IH]; simpl; [lia|].
  change (confidenceValues (confidence x))
    with (_confidenceToScore (confidence x)).
  destruct (confidence x); simpl _confidenceToScore; lia.
Qed.

Lemma calculateConfidence_cases x l :
  let n := Z.of_nat (List.length (x :: l)) in
  let t := scores (x :: l) in
  calculateConfidence (x :: l)
  = if 5 * n <=? 2 * t then HIGH
    else if 3 * n <=? 2 * t then MEDIUM
    else if t <=? 0 then UNKNOWN else LOW.
Proof.
  cbv zeta. unfold calculateConfidence. fold (scores (x :: l)).
  unfold Qle_bool. cbn [Qnum Qden].
  replace (Z.pos (Pos.of_nat (List.length (x :: l))))
    with (Z.of_nat (List.length (x :: l)))
    by (simpl List.length;
        rewrite <- Pos.of_nat_succ, Zpos_P_of_succ_nat, Nat2Z.inj_succ;
        reflexivity).
  replace (5 * Z.of_nat (List.length (x :: l)) <=? scores (x :: l) * 2)
    with (5 * Z.of_nat (List.length (x :: l)) <=? 2 * scores (x :: l))
    by (f_equal; lia).
  replace (3 * Z.of_nat (List.length (x :: l)) <=? scores (x :: l) * 2)
    with (3 * Z.of_nat (List.length (x :: l)) <=? 2 * scores (x :: l))
    by (f_equal; lia).
  replace (scores (x :: l) * 1 <=? 0 * Z.of_nat (List.length (x :: l)))
    with (scores (x :: l) <=? 0) by (f_equal; lia).
  destruct (5 * _ <=? _); [reflexivity|].
  destruct (3 * _ <=? _); [reflexivity|].
  destruct (scores (x :: l) <=? 0); reflexivity.
Qed.

Lemma calculateConfidence_between x l :
  exists lo hi,
    In lo (x :: l) /\ In hi (x :: l)
    /\ _confidenceToScore (confidence lo)
       <= _confidenceToScore (calculateConfidence (x :: l))
       <= _confidenceToScore (confidence hi).
Proof.
  rewrite calculateConfidence_cases. cbv zeta.
  set (n := Z.of_nat (List.length (x :: l))).
  set (t := scores (x :: l)).
  assert (Hn : 0 < n) by (unfold n; simpl List.length; lia).
  assert (Hsc : forall e, 0 <= _confidenceToScore (confidence e) <= 3)
    by (intro e; destruct (confidence e); simpl; lia).
  destruct (5 * n <=? 2 * t) eqn:E5.
  - apply Z.leb_le in E5.
    destruct (@scores_above 2 (x :: l)) as (hi & Hhi & Hk);
      [fold n; fold t; lia|].
    exists x, hi. pose proof (Hsc x). pose proof (Hsc hi).
    split; [left; reflexivity|]. split; [assumption|]. simpl. lia.
  - apply Z.leb_gt in E5. destruct (3 * n <=? 2 * t) eqn:E3.
    + apply Z.leb_le in E3.
      destruct (@scores_below 3 (x :: l)) as (lo & Hlo & Hk1);
        [fold n; fold t; lia|].
      destruct (@scores_above 1 (x :: l)) as (hi & Hhi & Hk2);
        [fold n; fold t; lia|].
      exists lo, hi. split; [assumption|]. split; [assumption|]. simpl. lia.
    + apply Z.leb_gt in E3. destruct (t <=? 0) eqn:E0.
      * apply Z.leb_le in E0.
        destruct (@scores_below 1 (x :: l)) as (lo & Hlo & Hk1);
          [fold n; fold t; lia|].
        exists lo, x. pose proof (Hsc x). pose proof (Hsc lo).
        split; [assumption|]. split; [left; reflexivity|]. simpl. lia.
      * apply Z.leb_gt in E0.
        destruct (@scores_below 2 (x :: l)) as (lo & Hlo & Hk1);
          [fold n; fold t; lia|].
        destruct (@scores_above 0 (x :: l)) as (hi & Hhi & Hk2);
          [fold n; fold t; lia|].
        exists lo, hi. split; [assumption|]. split; [assumption|].
        simpl. lia.
Qed.

Lemma _confidenceToScore_inj a b :
  _confidenceToScore a = _confidenceToScore b -> a = b.
Proof. destruct a, b; simpl; intro H; try reflexivity; lia. Qed.

(** X6.  [calculateConfidence] is [UNKNOWN] for the empty list; for a
    non-empty list its result lies between the lowest and the highest
    confidence in the list, so a list whose entities all have one
    confidence level gets that level. *)
Theorem calculateConfidence_within (entities : list ExtractedEntity) :
  (entities = [] -> calculateConfidence entities = UNKNOWN)
  /\ (entities <> [] ->
      exists lo hi,
        In lo entities /\ In hi entities
        /\ _confidenceToScore (confidence lo)
           <= _confidenceToScore (calculateConfidence entities)
           <= _confidenceToScore (confidence hi))
  /\ (forall c, entities <> [] ->
        Forall (fun e => confidence e = c) entities ->
        calculateConfidence entities = c).
Proof.
  split; [intros ->; reflexivity|]. split.
  - intro Hne. destruct entities as [|x l]; [congruence|].
    apply calculateConfidence_between.
  - intros c Hne Hall. destruct entities as [|x l]; [congruence|].
    destruct (calculateConfidence_between x l) as (lo & hi & Hlo & Hhi & H).
    rewrite Forall_forall in Hall.
    rewrite (Hall lo Hlo), (Hall hi Hhi) in H.
    apply _confidenceToScore_inj. lia.
Qed.

(** Two MEDIUM entities and one HIGH: the average 7/3 gives MEDIUM. *)
Lemma calculateConfidence_within_witness :
  exists lo hi,
    In lo [ResolverFacts.sample_medium; ResolverFacts.sample_medium;
           ResolverFacts.sample_high]
    /\ In hi [ResolverFacts.sample_medium; ResolverFacts.sample_medium;
              ResolverFacts.sample_high]
    /\ _confidenceToScore (confidence lo)
       <= _confidenceToScore
            (calculateConfidence
               [ResolverFacts.sample_medium; ResolverFacts.sample_medium;
                ResolverFacts.sample_high])
       <= _confidenceToScore (confidence hi).
Proof.
  apply (proj1 (proj2 (calculateConfidence_within
    [ResolverFacts.sample_medium; ResolverFacts.sample_medium;
     ResolverFacts.sample_high]))).
  discriminate.
Defined.

End ProcessingFacts.

(* ================================================================== *)
(** * Where the fields of a record come from *)
(* ================================================================== *)

Module ProvenanceFacts.
Import Processor.

(** ** Grouping by type *)

Definition typed_in (src : list ExtractedEntity) (t : EntityType)
    (vs : list ExtractedEntity) : Prop :=
  Forall (fun e => entityType e = t /\ In e src) vs.

Lemma group_by_type_fold src l : forall d,
  incl l src ->
  Forall (fun kv => typed_in src (fst kv) (snd kv)) d ->
  Forall (fun kv => typed_in src (fst kv) (snd kv))
    (fold_left (fun grouped entity =>
                  dict_append EntityType_eqb (entityType entity) entity grouped)
       l d).
Proof.
  induction l as [|e l IH]; intros d Hl Hd; simpl; [assumption|].
  apply IH.
  - intros x Hx. apply Hl. right; assumption.
  - apply (@MergerFacts.dict_append_Forall _ _ EntityType_eqb
             ResolverFacts.EntityType_eqb_eq (typed_in src)).
    + constructor; [|constructor]. split; [reflexivity|].
      apply Hl. left; reflexivity.
    + intros vs Hvs. apply Forall_app. split; [assumption|].
      constructor; [|constructor]. split; [reflexivity|].
      apply Hl. left; reflexivity.
    + assumption.
Qed.

Lemma dict_get_In {K V : Type} (eqb : K -> K -> bool) k (d : list (K * V)) v :
  (forall a b, eqb a b = true <-> a = b) ->
  dict_get eqb k d = Some v -> In (k, v) d.
Proof.
  intro Heq. induction d as [|[k' v'] d IH]; simpl; [discriminate|].
  destruct (eqb k' k) eqn:E.
  - apply Heq in E. subst. intro H; inversion H; subst. left; reflexivity.
  - intro H. right. apply IH; assumption.
Qed.

Lemma group_of_type entities t l :
  dict_get EntityType_eqb t (_groupEntitiesByType entities) = Some l ->
  typed_in entities t l.
Proof.
  intro H. apply (dict_get_In _ _ _ ResolverFacts.EntityType_eqb_eq) in H.
  unfold _groupEntitiesByType in H.
  pose proof (@group_by_type_fold entities entities [] (incl_refl _)
                (Forall_nil _)) as Hall.
  rewrite Forall_forall in Hall. apply (Hall _ H).
Qed.

(** ** The primary pass *)

(** [v] is the formatted value of a validated entity of type [t]. *)
Definition from_entity (entities : list ExtractedEntity) (t : EntityType)
    (validate : str -> bool) (format : str -> str) (v : str) : Prop :=
  exists e, In e entities /\ entityType e = t
            /\ validate (value e) = true /\ v = format (value e).

Lemma process_entities_from entities t score validate format l v :
  typed_in entities t l ->
  process_entities (select_best score) validate format l = Some v ->
  from_entity entities t validate format v.
Proof.
  intros Hl H. unfold process_entities in H.
  destruct l as [|x l']; [discriminate|].
  pose proof (ProcessingFacts.select_best_first score (x :: l')) as Hb.
  destruct (select_best score (x :: l')) as [e|]; [|discriminate].
  destruct (validate (value e)) eqn:Ev; [|discriminate].
  inversion H; subst v. simpl in Hb.
  destruct Hb as (pre & post & Hl' & _).
  unfold typed_in in Hl. rewrite Forall_forall in Hl.
  destruct (Hl e) as [Ht Hin].
  { rewrite Hl'. apply in_or_app. right; left; reflexivity. }
  exists e. repeat split; assumption.
Qed.

Lemma primary_pass_fields current_year entities text :
  let primary := primary_pass current_year entities text in
  (forall v, participantName primary = Some v ->
     from_entity entities PERSON _validatePersonName
       _cleanAndFormatPersonName v)
  /\ (forall v, eventName primary = Some v ->
        from_entity entities EVENT _validateEventName
          _cleanAndFormatEventName v)
  /\ (forall v, location primary = Some v ->
        from_entity entities LOCATION _validateLocationName
          _cleanAndFormatLocationName v)
  /\ (forall v, date primary = Some v ->
        from_entity entities DATE _validateDateFormat _cleanAndFormatDate v)
  /\ extractedEntities primary = entities
  /\ originalText_ primary = text.
Proof.
  cbv zeta. unfold primary_pass.
  pose proof (@group_of_type entities PERSON) as Hp.
  pose proof (@group_of_type entities EVENT) as He.
  pose proof (@group_of_type entities LOCATION) as Hl.
  pose proof (@group_of_type entities DATE) as Hd.
  destruct (dict_get EntityType_eqb PERSON (_groupEntitiesByType entities))
    as [lp|];
  destruct (dict_get EntityType_eqb EVENT (_groupEntitiesByType entities))
    as [le|];
  destruct (dict_get EntityType_eqb LOCATION (_groupEntitiesByType entities))
    as [ll|];
  destruct (dict_get EntityType_eqb DATE (_groupEntitiesByType entities))
    as [ld|];
  cbn [participantName eventName location date extractedEntities
       originalText_ set_participantName set_eventName set_location set_date
       set_extractedEntities set_overallConfidence EventRegistrationInfo_];
  (split; [intros v Hv;
           first [discriminate
                 | eapply process_entities_from;
                   [exact (Hp _ eq_refl) | exact Hv]]|]);
  (split; [intros v Hv;
           first [discriminate
                 | eapply process_entities_from;
                   [exact (He _ eq_refl) | exact Hv]]|]);
  (split; [intros v Hv;
           first [discriminate
                 | eapply process_entities_from;
                   [exact (Hl _ eq_refl) | exact Hv]]|]);
  (split; [intros v Hv;
           first [discriminate
                 | eapply process_entities_from;
                   [exact (Hd _ eq_refl) | exact Hv]]|]);
  split; reflexivity.
Qed.

(** ** The fallback pass *)

(** [a or b] for a field the fallback fills when it is still unset. *)
Definition or_else (f g : option str) : option str :=
  if field_truthy f then f else g.

Lemma postprocess_result info text :
  exists n e l d,
    _extractNameFallback text = Ok n
    /\ _extractEventFallback text = Ok e
    /\ _extractLocationFallback text = Ok l
    /\ _extractDateFallback text = Ok d
    /\ _postProcessInformation info text
       = Ok (let r := mkInfo (or_else (participantName info) n)
                        (or_else (eventName info) e)
                        (or_else (location info) l)
                        (or_else (date info) d)
                        (extractedEntities info) (originalText_ info)
                        (overallConfidence info) in
             set_overallConfidence (_calculateOverallConfidence r) r).
Proof.
  destruct (FallbackFacts._extractNameFallback_total text) as [n Hn].
  destruct (FallbackFacts._extractEventFallback_total text) as [e He].
  destruct (FallbackFacts._extractLocationFallback_total text) as [l Hl].
  destruct (FallbackFacts._extractDateFallback_total text) as [d Hd].
  exists n, e, l, d. repeat (split; [assumption|]).
  unfold _postProcessInformation, or_else. rewrite Hn, He, Hl, Hd.
  destruct info as [pn ev lo da ents ot oc]; simpl.
  destruct (field_truthy pn); simpl;
    destruct (field_truthy ev); simpl;
    destruct (field_truthy lo); simpl;
    destruct (field_truthy da); reflexivity.
Qed.

Lemma _calculateOverallConfidence_ignores c info :
  _calculateOverallConfidence (set_overallConfidence c info)
  = _calculateOverallConfidence info.
Proof. reflexivity. Qed.

(** X7.  [processExtractedEntities] never raises.  The record it
    returns keeps the original text and the entity list it was given,
    and its overall confidence is the aggregator's value for the record
    as returned. *)
Theorem processExtractedEntities_record (current_year : Z)
    (entities : list ExtractedEntity) (text : str) :
  exists info,
    processExtractedEntities current_year entities text = Ok info
    /\ originalText_ info = text
    /\ extractedEntities info = entities
    /\ overallConfidence info = _calculateOverallConfidence info.
Proof.
  unfold processExtractedEntities. destruct entities as [|x l].
  - eexists. split; [reflexivity|]. repeat split.
  - set (entities := x :: l).
    destruct (primary_pass_fields current_year entities text)
      as (_ & _ & _ & _ & Hents & Htext).
    destruct (postprocess_result (primary_pass current_year entities text)
                text) as (n & e & lo & d & _ & _ & _ & _ & H).
    eexists. split; [exact H|]. cbv zeta.
    cbn [originalText_ extractedEntities overallConfidence
         set_overallConfidence].
    rewrite Hents, Htext. repeat split.
Qed.

(** X8.  Every field of the record that [processExtractedEntities]
    returns has one of two origins: it is the formatted value of an
    entity of the matching type from the given list whose value passed
    the validator of that field, or it is what the fallback pattern
    search for that field found in the original text. *)
Theorem processExtractedEntities_provenance (current_year : Z)
    (entities : list ExtractedEntity) (text : str) :
  exists info,
    processExtractedEntities current_year entities text = Ok info
    /\ (forall v, participantName info = Some v ->
          from_entity entities PERSON _validatePersonName
            _cleanAndFormatPersonName v
          \/ _extractNameFallback text = Ok (Some v))
    /\ (forall v, eventName info = Some v ->
          from_entity entities EVENT _validateEventName
            _cleanAndFormatEventName v
          \/ _extractEventFallback text = Ok (Some v))
    /\ (forall v, location info = Some v ->
          from_entity entities LOCATION _validateLocationName
            _cleanAndFormatLocationName v
          \/ _extractLocationFallback text = Ok (Some v))
    /\ (forall v, date info = Some v ->
          from_entity entities DATE _validateDateFormat _cleanAndFormatDate v
          \/ _extractDateFallback text = Ok (Some v)).
Proof.
  unfold processExtractedEntities. destruct entities as [|x l].
  - eexists. split; [reflexivity|].
    repeat split; intros v H; discriminate.
  - set (entities := x :: l).
    destruct (primary_pass_fields current_year entities text)
      as (Hp & He & Hl & Hd & _ & _).
    destruct (postprocess_result (primary_pass current_year entities text)
                text) as (n & e & lo & d & Hn & Hev & Hlo & Hda & H).
    eexists. split; [exact H|]. cbv zeta.
    cbn [participantName eventName location date set_overallConfidence].
    unfold or_else.
    split; [|split; [|split]]; intros v Hv.
    + destruct (field_truthy _); [left; apply Hp; assumption|].
      right. rewrite Hn, Hv. reflexivity.
    + destruct (field_truthy _); [left; apply He; assumption|].
      right. rewrite Hev, Hv. reflexivity.
    + destruct (field_truthy _); [left; apply Hl; assumption|].
      right. rewrite Hlo, Hv. reflexivity.
    + destruct (field_truthy _); [left; apply Hd; assumption|].
      right. rewrite Hda, Hv. reflexivity.
Qed.

End ProvenanceFacts.

(* ================================================================== *)
(** * The records handed to the confidence aggregator *)
(* ================================================================== *)

Module AggregatorCalls.
Import Processor.

(** The table of the specification, read on a record. *)
Definition table (info : EventRegistrationInfo) : ExtractionConfidence :=
  Spec.decision_table (Spec.filledCount info)
    (Spec.meanEntityScore (extractedEntities info)).

(** [_calculateOverallConfidence] has two call sites, both in the
    processor and both behind [if not entities: return ...]: the end of
    the primary pass and the end of [_postProcessInformation].  The
    records they hand over hold the entity list of the call. *)

Lemma primary_pass_confidence current_year entities text :
  exists registrationInfo,
    primary_pass current_year entities text
    = set_overallConfidence (_calculateOverallConfidence registrationInfo)
        registrationInfo
    /\ extractedEntities registrationInfo = entities.
Proof.
  destruct (ProvenanceFacts.primary_pass_fields current_year entities text)
    as (_ & _ & _ & _ & Hents & _).
  cbv zeta in Hents. revert Hents. unfold primary_pass.
  match goal with
  | |- extractedEntities (set_overallConfidence _ ?r) = _ -> _ =>
      intro Hents; exists r; split; [reflexivity | exact Hents]
  end.
Qed.

Lemma postprocess_confidence info text :
  exists info',
    _postProcessInformation info text
    = Ok (set_overallConfidence (_calculateOverallConfidence info') info')
    /\ extractedEntities info' = extractedEntities info.
Proof.
  destruct (ProvenanceFacts.postprocess_result info text)
    as (n & e & l & d & _ & _ & _ & _ & H).
  eexists. split; [exact H | reflexivity].
Qed.

Definition four_fields : EventRegistrationInfo :=
  mkInfo (Some (L "Sarah Johnson")) (Some (L "AI Conference"))
    (Some (L "San Francisco")) (Some (L "March 15, 2025"))
    [ResolverFacts.sample_medium; ResolverFacts.sample_high;
     ResolverFacts.sample_high] [] UNKNOWN.

(** C3.  On every record that holds an entity the aggregator answers
    with the first matching row of the table, applied to the number of
    non-empty fields and to the mean tier score of all entities of the
    record.  The records handed to it hold an entity: it is called at
    the end of the primary pass and at the end of the post-processing,
    for a non-empty entity list only, and at both places the confidence
    stored in the record is the table's answer for that record.  So is
    the confidence of every record that [processExtractedEntities]
    returns, also for the empty entity list, where the aggregator is
    not called and the blank record keeps UNKNOWN. *)
Theorem aggregator_follows_table :
  (forall info,
     extractedEntities info <> [] ->
     _calculateOverallConfidence info = table info)
  /\ (forall current_year entities text,
        entities <> [] ->
        let primary := primary_pass current_year entities text in
        extractedEntities primary = entities
        /\ overallConfidence primary = table primary)
  /\ (forall current_year entities text info,
        processExtractedEntities current_year entities text = Ok info ->
        extractedEntities info = entities
        /\ overallConfidence info = table info).
Proof.
  split; [exact AggregatorFacts.table_on_entities|]. split.
  - intros current_year entities text Hne. cbv zeta.
    destruct (primary_pass_confidence current_year entities text)
      as (r & -> & Hents).
    cbn [extractedEntities overallConfidence set_overallConfidence].
    split; [exact Hents|].
    unfold table. rewrite AggregatorFacts.table_ignores_confidence.
    apply AggregatorFacts.table_on_entities. rewrite Hents. exact Hne.
  - intros current_year entities text info.
    unfold processExtractedEntities. destruct entities as [|x l].
    + intro H. inversion H; subst. split; reflexivity.
    + set (entities := x :: l).
      destruct (primary_pass_confidence current_year entities text)
        as (r & Hr & Hents).
      destruct (postprocess_confidence
                  (primary_pass current_year entities text) text)
        as (info' & -> & Hents').
      intro H. inversion H; subst info.
      cbn [extractedEntities overallConfidence set_overallConfidence].
      rewrite Hr in Hents'.
      cbn [extractedEntities set_overallConfidence] in Hents'.
      rewrite Hents in Hents'. split; [exact Hents'|].
      unfold table. rewrite AggregatorFacts.table_ignores_confidence.
      apply AggregatorFacts.table_on_entities. rewrite Hents'.
      discriminate.
Qed.

(** Four fields and a mean of 8/3: the first row gives HIGH. *)
Lemma aggregator_follows_table_witness :
  _calculateOverallConfidence four_fields = HIGH.
Proof.
  rewrite (proj1 aggregator_follows_table four_fields).
  - reflexivity.
  - discriminate.
Defined.

End AggregatorCalls.

(* ================================================================== *)
(** * What the candidate generator returns *)
(* ================================================================== *)

Module GeneratorFacts.
Import ExtractorFacts.

(** ** The entities and their source *)

(** What a generator of type [t] puts into [value] for the piece
    [chunk] of the text that its pattern matched. *)
Definition payload (t : EntityType) (v chunk : str) : Prop :=
  match t with
  | PERSON => v = strip chunk /\ _validatePersonName v = true
  | EVENT => v = strip chunk /\ _validateEventName v = true
  | LOCATION => v = _cleanLocationText chunk /\ _validateLocation v = true
  | DATE => v = _cleanDateText (strip chunk) /\ _validateDate v = true
  | ORGANIZATION => False
  end.

(** The entity was built on the span [a, b) of [text]. *)
Definition sourced (text : str) (e : ExtractedEntity) : Prop :=
  exists a b : nat,
    startPosition e = Z.of_nat a /\ endPosition e = Z.of_nat b
    /\ (a < b <= List.length text)%nat
    /\ payload (entityType e) (value e) (Re.slice text a b).

Lemma emit_sourced text (cond : bool) t v c (a b : nat) o ys :
  (a < b <= List.length text)%nat ->
  (cond = true -> payload t v (Re.slice text a b)) ->
  (if cond
   then entity <- ExtractedEntity_ t v c (Z.of_nat a) (Z.of_nat b) o ;;
        Ok [entity]
   else Ok []) = Ok ys ->
  Forall (sourced text) ys.
Proof.
  intros Hab Hp H. destruct cond.
  - destruct (ExtractedEntity_ t v c (Z.of_nat a) (Z.of_nat b) o)
      as [exc|x] eqn:E; [discriminate|].
    simpl in H. inversion H; subst.
    apply ExtractedEntity__Ok in E. destruct E as [-> _].
    constructor; [|constructor].
    exists a, b. simpl. repeat split; auto; lia.
  - inversion H; subst. constructor.
Qed.

Lemma andb_payload (c1 c2 : bool) (P : Prop) :
  (c2 = true -> P) -> c1 && c2 = true -> P.
Proof. intros H E. apply andb_true_iff in E. apply H, E. Qed.

Lemma group1_slice mt text g :
  group1 mt text = Ok g -> fst g = Re.slice text (fst (snd g)) (snd (snd g)).
Proof.
  unfold group1. destruct (span 1 mt) as [[a b]|]; [|discriminate].
  intro H; inversion H; reflexivity.
Qed.

Lemma group1_lt (p : pattern) (text : str) (mt : rmatch) g :
  nonempty_group1 p = true ->
  In mt (re_finditer p text) ->
  group1 mt text = Ok g ->
  (fst (snd g) < snd (snd g) <= List.length text)%nat.
Proof.
  intros Hp Hin Hg. pose proof (group1_span p text mt Hp Hin Hg).
  split; [lia|].
  pose proof (ReBounds.finditer_inside (fst p) (snd p) text) as Hok.
  rewrite Forall_forall in Hok. destruct (Hok mt Hin) as [_ Hcaps].
  unfold group1, span in Hg.
  destruct (lookup_cap 1 (m_caps mt)) as [[a b]|] eqn:E; [|discriminate].
  inversion Hg; subst; simpl. apply (Hcaps _ _ _ E).
Qed.

Lemma finditer_lt (p : pattern) (text : str) (mt : rmatch) :
  nonempty_match p = true ->
  In mt (re_finditer p text) ->
  (m_start mt < m_end mt <= List.length text)%nat.
Proof.
  intros Hp Hin. pose proof (finditer_span p text mt Hp Hin) as H.
  unfold start0, end0 in H. split; [lia|].
  pose proof (ReBounds.finditer_inside (fst p) (snd p) text) as Hok.
  rewrite Forall_forall in Hok. destruct (Hok mt Hin) as [Hend _].
  assumption.
Qed.

Lemma _extractPersonNamesFromContext_sourced text out :
  _extractPersonNamesFromContext text = Ok out -> Forall (sourced text) out.
Proof.
  unfold _extractPersonNamesFromContext.
  assert (H : forallb (fun cp =>
                nonempty_group1
                  (re_compile (cp ++ "([A-Z][a-z]+(?:\s+[A-Z][a-z]+)*)")
                     IGNORECASE)) personNameContext = true)
    by (vm_compute; reflexivity).
  apply for_each_Forall. intros cp ys Hcp.
  apply for_each_Forall. intros mt zs Hmt Hbody.
  destruct (group1 mt text) as [exc|g] eqn:Eg; [discriminate|].
  simpl in Hbody. eapply emit_sourced; [| |exact Hbody].
  - eapply group1_lt; [|exact Hmt|exact Eg].
    exact (forallb_In _ _ _ H Hcp).
  - intro Hv. simpl. rewrite <- (group1_slice _ _ Eg). auto.
Qed.

Lemma _extractPersonNames_sourced text out :
  _extractPersonNames text = Ok out -> Forall (sourced text) out.
Proof.
  unfold _extractPersonNames. intro H.
  destruct (for_each personNames _) as [exc|ys] eqn:E1; [discriminate|].
  simpl in H.
  destruct (_extractPersonNamesFromContext text) as [exc|zs] eqn:E2;
    [discriminate|].
  simpl in H. inversion H; subst. apply Forall_app. split.
  - revert E1. apply for_each_Forall. intros p ws Hp.
    apply for_each_Forall. intros mt vs Hmt.
    apply emit_sourced.
    + apply (finditer_lt p text); [|assumption].
      assert (Hall : forallb nonempty_match personNames = true)
        by (vm_compute; reflexivity).
      exact (forallb_In _ _ _ Hall Hp).
    + intro Hv. simpl. auto.
  - apply _extractPersonNamesFromContext_sourced; assumption.
Qed.

Lemma _extractEventNamesFromContext_sourced text out :
  _extractEventNamesFromContext text = Ok out -> Forall (sourced text) out.
Proof.
  unfold _extractEventNamesFromContext.
  assert (H : forallb (fun verb =>
                nonempty_group1
                  (re_compile ("\b" ++ verb ++ "\s+(?:for\s+)?(?:the\s+)?([A-Z][^.!?]*?(?:conference|summit|workshop|meetup|expo|convention|symposium))")
                     IGNORECASE)) registrationVerbs = true)
    by (vm_compute; reflexivity).
  apply for_each_Forall. intros verb ys Hverb.
  apply for_each_Forall. intros mt zs Hmt Hbody.
  destruct (group1 mt text) as [exc|g] eqn:Eg; [discriminate|].
  simpl in Hbody. eapply emit_sourced; [| |exact Hbody].
  - eapply group1_lt; [|exact Hmt|exact Eg].
    exact (forallb_In _ _ _ H Hverb).
  - intro Hv. simpl. rewrite <- (group1_slice _ _ Eg). auto.
Qed.

Lemma _extractEventNames_sourced text out :
  _extractEventNames text = Ok out -> Forall (sourced text) out.
Proof.
  unfold _extractEventNames. intro H.
  destruct (for_each eventPatterns _) as [exc|ys] eqn:E1; [discriminate|].
  simpl in H.
  destruct (_extractEventNamesFromContext text) as [exc|zs] eqn:E2;
    [discriminate|].
  simpl in H. inversion H; subst. apply Forall_app. split.
  - revert E1. apply for_each_Forall. intros p ws Hp.
    apply for_each_Forall. intros mt vs Hmt.
    apply emit_sourced.
    + apply (finditer_lt p text); [|assumption].
      assert (Hall : forallb nonempty_match eventPatterns = true)
        by (vm_compute; reflexivity).
      exact (forallb_In _ _ _ Hall Hp).
    + intro Hv. simpl. auto.
  - apply _extractEventNamesFromContext_sourced; assumption.
Qed.

Lemma _extractLocations_sourced text out :
  _extractLocations text = Ok out -> Forall (sourced text) out.
Proof.
  unfold _extractLocations.
  apply for_each_Forall. intros p ws Hp.
  apply for_each_Forall. intros mt vs Hmt.
  apply emit_sourced.
  - apply (finditer_lt p text); [|assumption].
    assert (Hall : forallb nonempty_match locationPatterns = true)
      by (vm_compute; reflexivity).
    exact (forallb_In _ _ _ Hall Hp).
  - apply andb_payload. intro Hv. simpl. auto.
Qed.

Lemma _extractDates_sourced text out :
  _extractDates text = Ok out -> Forall (sourced text) out.
Proof.
  unfold _extractDates.
  apply for_each_Forall. intros p ws Hp.
  apply for_each_Forall. intros mt vs Hmt.
  apply emit_sourced.
  - apply (finditer_lt p text); [|assumption].
    assert (Hall : forallb nonempty_match datePatterns = true)
      by (vm_compute; reflexivity).
    exact (forallb_In _ _ _ Hall Hp).
  - apply andb_payload. intro Hv. simpl. auto.
Qed.

Lemma enhance_entity_sourced text text' e :
  sourced text e -> sourced text (enhance_entity text' e).
Proof.
  rewrite ScorerFacts.enhance_entity_spec.
  intros (a & b & H). exists a, b. exact H.
Qed.

Lemma extract_body_sourced text out :
  extract_body text = Ok out -> Forall (sourced text) out.
Proof.
  unfold extract_body. intro H.
  destruct (_extractPersonNames text) as [exc|ps] eqn:E1; [discriminate|].
  destruct (_extractEventNames text) as [exc|es] eqn:E2; [discriminate|].
  destruct (_extractLocations text) as [exc|ls] eqn:E3; [discriminate|].
  destruct (_extractDates text) as [exc|ds] eqn:E4; [discriminate|].
  simpl in H. inversion H; subst. clear H.
  rewrite ScorerFacts.enhance_all.
  apply Forall_forall. intros x Hx. apply in_map_iff in Hx.
  destruct Hx as (e & <- & He). apply enhance_entity_sourced.
  apply resolver_In in He.
  apply _extractPersonNames_sourced in E1.
  apply _extractEventNames_sourced in E2.
  apply _extractLocations_sourced in E3.
  apply _extractDates_sourced in E4.
  rewrite Forall_forall in *.
  repeat (apply in_app_or in He; destruct He as [He | He]); auto.
Qed.

Lemma extractEntities_sourced self text :
  Forall (sourced text) (fst (extractEntities self text)).
Proof.
  unfold extractEntities, extractEntities_around.
  destruct (negb (truthy text) || negb (truthy (strip text)));
    [constructor|].
  destruct (extract_body text) as [exc|out] eqn:E; simpl; [constructor|].
  apply extract_body_sourced; assumption.
Qed.

(** The validator of the extractor for each type; no generator builds
    an [ORGANIZATION]. *)
Definition validated (e : ExtractedEntity) : bool :=
  match entityType e with
  | PERSON => _validatePersonName (value e)
  | EVENT => _validateEventName (value e)
  | LOCATION => _validateLocation (value e)
  | DATE => _validateDate (value e)
  | ORGANIZATION => false
  end.

(** X9.  Every entity that [extractEntities] returns is a PERSON, an
    EVENT, a LOCATION or a DATE, never an ORGANIZATION, and its value
    passes the extractor's validator for its type. *)
Theorem extractEntities_validated (self : ExtractorState) (text : str) :
  Forall (fun e => validated e = true /\ entityType e <> ORGANIZATION)
    (fst (extractEntities self text)).
Proof.
  eapply Forall_impl; [|apply extractEntities_sourced].
  intros e (a & b & _ & _ & _ & Hp). unfold validated, payload in *.
  destruct (entityType e); try (destruct Hp as [_ Hp]);
    try contradiction; split; try assumption; discriminate.
Qed.

(** [text[start:end]] for the positions of an entity. *)
Definition span_text (text : str) (e : ExtractedEntity) : str :=
  PyStr.slice text (startPosition e) (endPosition e).

Lemma slice_of_nat text (a b : nat) :
  PyStr.slice text (Z.of_nat a) (Z.of_nat b) = Re.slice text a b.
Proof.
  unfold PyStr.slice, Re.slice. rewrite Nat2Z.id.
  replace (Z.to_nat (Z.of_nat b - Z.of_nat a)) with (b - a)%nat by lia.
  reflexivity.
Qed.

(** X10.  The value of every entity that [extractEntities] returns is
    computed from the text between its two positions: for a PERSON or
    an EVENT it is that piece of text stripped, for a LOCATION it is
    that piece without a leading "in", "at" or "near", and for a DATE it
    is that piece stripped and without a leading "on", "date" or
    "scheduled for". *)
Theorem extractEntities_value_of_span (self : ExtractorState) (text : str) :
  Forall (fun e =>
            value e
            = match entityType e with
              | LOCATION => _cleanLocationText (span_text text e)
              | DATE => _cleanDateText (strip (span_text text e))
              | _ => strip (span_text text e)
              end)
    (fst (extractEntities self text)).
Proof.
  eapply Forall_impl; [|apply extractEntities_sourced].
  intros e (a & b & Ha & Hb & _ & Hp). unfold span_text.
  rewrite Ha, Hb, slice_of_nat. unfold payload in Hp.
  destruct (entityType e); try (destruct Hp as [Hp _]);
    try contradiction; assumption.
Qed.

(** X17.  The positions of every entity that [extractEntities]
    returns delimit a non-empty piece of the text it was given:
    [0 <= startPosition < endPosition <= len(text)]. *)
Theorem extractEntities_spans_inside (self : ExtractorState) (text : str) :
  Forall (fun e => 0 <= startPosition e < endPosition e
                   /\ endPosition e <= len text)
    (fst (extractEntities self text)).
Proof.
  eapply Forall_impl; [|apply extractEntities_sourced].
  intros e (a & b & Ha & Hb & Hab & _). unfold len. lia.
Qed.

(** ** The body of [extractEntities] does not raise *)

Lemma for_each_total {A B : Type} (l : list A)
    (body : A -> result (list B)) :
  (forall x, In x l -> exists ys, body x = Ok ys) ->
  exists out, for_each l body = Ok out.
Proof.
  induction l as [|x t IH]; simpl; intro H.
  - eexists; reflexivity.
  - destruct (H x (or_introl eq_refl)) as [ys Hys]. rewrite Hys.
    destruct IH as [zs Hzs]; [intros y Hy; apply H; right; assumption|].
    rewrite Hzs. simpl. eexists; reflexivity.
Qed.

Lemma bind_total {A B : Type} (m : result A) (k : A -> result B) :
  (exists a, m = Ok a) -> (forall a, exists b, k a = Ok b) ->
  exists b, (x <- m ;; k x) = Ok b.
Proof. intros [a ->] Hk. simpl. apply Hk. Qed.

Lemma emit_total (cond : bool) t v c (a b : nat) o :
  (a <= b)%nat ->
  (cond = true -> ~ DataModelFacts.blank v) ->
  exists ys,
    (if cond
     then entity <- ExtractedEntity_ t v c (Z.of_nat a) (Z.of_nat b) o ;;
          Ok [entity]
     else Ok []) = Ok ys.
Proof.
  intros Hab Hv. destruct cond; [|eexists; reflexivity].
  unfold ExtractedEntity_, new_ExtractedEntity. simpl.
  rewrite (proj2 (DataModelFacts.value_test_not_blank v) (Hv eq_refl)).
  replace (Z.of_nat a <? 0) with false by (symmetry; apply Z.ltb_ge; lia).
  replace (Z.of_nat b <? Z.of_nat a) with false
    by (symmetry; apply Z.ltb_ge; lia).
  simpl. eexists; reflexivity.
Qed.

Lemma blank_split s : DataModelFacts.blank s -> split s = [].
Proof. intro H. apply StrFacts.split_aux_all_space. exact H. Qed.

Lemma long_strip_not_blank s k :
  0 < k -> (len (strip s) <? k) = false -> ~ DataModelFacts.blank s.
Proof.
  intros Hk H Hb. apply DataModelFacts.strip_nil_iff in Hb.
  rewrite Hb in H. unfold len in H. simpl in H.
  apply Z.ltb_ge in H. lia.
Qed.

Lemma _validatePersonName_not_blank v :
  _validatePersonName v = true -> ~ DataModelFacts.blank v.
Proof.
  unfold _validatePersonName. intros H Hb.
  rewrite (blank_split Hb) in H. simpl in H.
  rewrite orb_true_r in H. discriminate.
Qed.

Lemma _validateEventName_not_blank v :
  _validateEventName v = true -> ~ DataModelFacts.blank v.
Proof.
  unfold _validateEventName. intro H.
  destruct (negb (truthy v) || (len (strip v) <? 3)) eqn:E; [discriminate|].
  apply orb_false_iff in E. destruct E as [_ E].
  apply (@long_strip_not_blank v 3); [lia | assumption].
Qed.

Lemma _validateLocation_not_blank v :
  _validateLocation v = true -> ~ DataModelFacts.blank v.
Proof.
  unfold _validateLocation. intro H.
  destruct (negb (truthy v) || (len (strip v) <? 2)) eqn:E; [discriminate|].
  apply orb_false_iff in E. destruct E as [_ E].
  apply (@long_strip_not_blank v 2); [lia | assumption].
Qed.

Lemma _cleanDateText_not_blank d :
  truthy (_cleanDateText d) = true -> ~ DataModelFacts.blank (_cleanDateText d).
Proof.
  unfold _cleanDateText. intros H Hb.
  apply DataModelFacts.strip_nil_iff in Hb.
  rewrite (StrFacts.strip_trimmed (DateFacts.strip_is_trimmed _)) in Hb.
  rewrite Hb in H. discriminate.
Qed.

Lemma finditer_le (p : pattern) (text : str) (mt : rmatch) :
  In mt (re_finditer p text) -> (m_start mt <= m_end mt)%nat.
Proof.
  unfold re_finditer. intro Hin.
  pose proof (ReFacts.finditer_ok (fst p) (snd p) text) as Hok.
  rewrite Forall_forall in Hok. destruct (Hok mt Hin) as (Hlen & _). lia.
Qed.

Definition has_group1 (p : pattern) : bool :=
  sets 1 (snd p) && grp_ok 1 0 (snd p).

Lemma group1_total (p : pattern) (text : str) (mt : rmatch) :
  has_group1 p = true ->
  In mt (re_finditer p text) ->
  exists g, group1 mt text = Ok g /\ (fst (snd g) <= snd (snd g))%nat.
Proof.
  unfold has_group1, re_finditer, group1, span. intros Hp Hin.
  apply andb_true_iff in Hp. destruct Hp as [Hs Hg].
  pose proof (ReFacts.finditer_ok (fst p) (snd p) text) as Hok.
  rewrite Forall_forall in Hok. destruct (Hok mt Hin) as (_ & Hset & Hgrp).
  destruct (Hset 1%nat Hs) as [[a b] E]. rewrite E.
  eexists. split; [reflexivity|]. simpl.
  specialize (Hgrp 1%nat a b 0%nat E Hg). lia.
Qed.

Lemma _extractPersonNamesFromContext_total text :
  exists out, _extractPersonNamesFromContext text = Ok out.
Proof.
  unfold _extractPersonNamesFromContext.
  assert (H : forallb (fun cp =>
                has_group1
                  (re_compile (cp ++ "([A-Z][a-z]+(?:\s+[A-Z][a-z]+)*)")
                     IGNORECASE)) personNameContext = true)
    by (vm_compute; reflexivity).
  apply for_each_total. intros cp Hcp.
  apply for_each_total. intros mt Hmt.
  destruct (group1_total _ _ _ (forallb_In _ _ _ H Hcp) Hmt)
    as (g & Eg & Hle).
  rewrite Eg. simpl. apply emit_total; [assumption|].
  apply _validatePersonName_not_blank.
Qed.

Lemma _extractPersonNames_total text :
  exists out, _extractPersonNames text = Ok out.
Proof.
  unfold _extractPersonNames. apply bind_total.
  - apply for_each_total. intros p Hp.
    apply for_each_total. intros mt Hmt. cbv zeta.
    apply emit_total; [exact (finditer_le _ _ _ Hmt)|].
    apply _validatePersonName_not_blank.
  - intro ys. apply bind_total.
    + apply _extractPersonNamesFromContext_total.
    + intro zs. eexists; reflexivity.
Qed.

Lemma _extractEventNamesFromContext_total text :
  exists out, _extractEventNamesFromContext text = Ok out.
Proof.
  unfold _extractEventNamesFromContext.
  assert (H : forallb (fun verb =>
                has_group1
                  (re_compile ("\b" ++ verb ++ "\s+(?:for\s+)?(?:the\s+)?([A-Z][^.!?]*?(?:conference|summit|workshop|meetup|expo|convention|symposium))")
                     IGNORECASE)) registrationVerbs = true)
    by (vm_compute; reflexivity).
  apply for_each_total. intros verb Hverb.
  apply for_each_total. intros mt Hmt.
  destruct (group1_total _ _ _ (forallb_In _ _ _ H Hverb) Hmt)
    as (g & Eg & Hle).
  rewrite Eg. simpl. apply emit_total; [assumption|].
  apply _validateEventName_not_blank.
Qed.

Lemma _extractEventNames_total text :
  exists out, _extractEventNames text = Ok out.
Proof.
  unfold _extractEventNames. apply bind_total.
  - apply for_each_total. intros p Hp.
    apply for_each_total. intros mt Hmt. cbv zeta.
    apply emit_total; [exact (finditer_le _ _ _ Hmt)|].
    apply _validateEventName_not_blank.
  - intro ys. apply bind_total.
    + apply _extractEventNamesFromContext_total.
    + intro zs. eexists; reflexivity.
Qed.

Lemma _extractLocations_total text :
  exists out, _extractLocations text = Ok out.
Proof.
  unfold _extractLocations.
  apply for_each_total. intros p Hp.
  apply for_each_total. intros mt Hmt. cbv zeta.
  apply emit_total; [exact (finditer_le _ _ _ Hmt)|].
  intro H. apply andb_true_iff in H. destruct H as [_ H].
  apply _validateLocation_not_blank; assumption.
Qed.

Lemma _extractDates_total text :
  exists out, _extractDates text = Ok out.
Proof.
  unfold _extractDates.
  apply for_each_total. intros p Hp.
  apply for_each_total. intros mt Hmt. cbv zeta.
  apply emit_total; [exact (finditer_le _ _ _ Hmt)|].
  intro H. apply andb_true_iff in H. destruct H as [H _].
  apply _cleanDateText_not_blank; assumption.
Qed.

Lemma extract_body_total text : exists out, extract_body text = Ok out.
Proof.
  unfold extract_body.
  destruct (_extractPersonNames_total text) as [ps ->].
  destruct (_extractEventNames_total text) as [es ->].
  destruct (_extractLocations_total text) as [ls ->].
  destruct (_extractDates_total text) as [ds ->].
  simpl. eexists; reflexivity.
Qed.

(** X11.  The body of [extractEntities] never raises: no match of a
    contextual pattern lacks its group and no entity fails the
    validation of its constructor.  So a call on a text that is not
    blank always counts as a successful extraction and clears the last
    error, while a call on a blank text counts as a run, not as a
    success, and leaves the last error as it was. *)
Theorem extractEntities_never_fails (self : ExtractorState) (text : str) :
  (exists out, extract_body text = Ok out)
  /\ (~ DataModelFacts.blank text ->
      snd (extractEntities self text)
      = mkExtractor None (_extractionCount self + 1)
          (_successfulExtractions self + 1))
  /\ (DataModelFacts.blank text ->
      extractEntities self text
      = ([], mkExtractor (_lastError self) (_extractionCount self + 1)
               (_successfulExtractions self))).
Proof.
  split; [apply extract_body_total|].
  unfold extractEntities, extractEntities_around.
  destruct (negb (truthy text) || negb (truthy (strip text))) eqn:Eb.
  - apply DataModelFacts.value_test_blank in Eb.
    split; [intro H; contradiction | intros _; reflexivity].
  - apply DataModelFacts.value_test_not_blank in Eb.
    split; [|intro H; contradiction].
    intros _. destruct (extract_body_total text) as [out ->]. reflexivity.
Qed.

(** A blank text after an earlier failure: the error stays. *)
Lemma extractEntities_never_fails_witness :
  extractEntities (mkExtractor (Some "Extraction error: x"%string) 3 2)
    (L "  ")
  = ([], mkExtractor (Some "Extraction error: x"%string) 4 2).
Proof.
  apply (proj2 (proj2 (extractEntities_never_fails
    (mkExtractor (Some "Extraction error: x"%string) 3 2) (L "  ")))).
  repeat constructor.
Defined.

(** ** The resolver keeps order and membership *)

Lemma list_remove_length x l :
  (List.length (list_remove x l) <= List.length l)%nat.
Proof.
  induction l as [|y t IH]; simpl; [lia|].
  destruct (entity_eqb y x); simpl; lia.
Qed.

Lemma resolve_step_length cleaned e :
  (List.length (resolve_step cleaned e) <= S (List.length cleaned))%nat
  /\ resolve_step cleaned e <> [].
Proof.
  unfold resolve_step. destruct (find (overlaps e) cleaned) as [x|] eqn:Ef.
  - destruct (conf_gt _ _).
    + rewrite length_app. simpl. pose proof (list_remove_length x cleaned).
      split; [lia|]. intro Hn. apply app_eq_nil in Hn.
      destruct Hn; discriminate.
    + split; [lia|]. intros ->. discriminate.
  - rewrite length_app. simpl. split; [lia|].
    intro H. apply app_eq_nil in H. destruct H; discriminate.
Qed.

Lemma resolve_fold_length l : forall cleaned,
  (List.length (fold_left resolve_step l cleaned)
   <= List.length cleaned + List.length l)%nat
  /\ (cleaned <> [] \/ l <> [] -> fold_left resolve_step l cleaned <> []).
Proof.
  induction l as [|e l IH]; intro cleaned; simpl.
  - split; [lia|]. intros [H | H]; [assumption | congruence].
  - destruct (IH (resolve_step cleaned e)) as [H1 H2].
    destruct (resolve_step_length cleaned e) as [H3 H4].
    split; [lia|]. intros _. apply H2. left; assumption.
Qed.

Lemma sort_by_start_length l :
  List.length (sort_by_start l) = List.length l.
Proof.
  assert (Hi : forall x l', List.length (insert_by_start x l')
                            = S (List.length l')).
  { intros x l'. induction l' as [|y t IH]; simpl; [reflexivity|].
    destruct (startPosition x <=? startPosition y); simpl; lia. }
  unfold sort_by_start. induction l as [|x l IH]; simpl; [reflexivity|].
  rewrite Hi, IH. reflexivity.
Qed.

(** X12.  The overlap resolver returns entities of its input only, in
    the order of their start positions, at most as many as it was
    given, and it returns the empty list only for the empty list. *)
Theorem resolver_output_sorted_sublist (entities : list ExtractedEntity) :
  Forall (fun x => In x entities) (_removeDuplicatesAndOverlaps entities)
  /\ ResolverFacts.sorted (_removeDuplicatesAndOverlaps entities)
  /\ (List.length (_removeDuplicatesAndOverlaps entities)
      <= List.length entities)%nat
  /\ (_removeDuplicatesAndOverlaps entities = [] <-> entities = []).
Proof.
  split; [|split; [|split]].
  - apply Forall_forall. intros x. apply resolver_In.
  - apply ResolverFacts.accepted_ok_sorted, ResolverFacts.resolver_accepted_ok.
  - unfold _removeDuplicatesAndOverlaps. destruct entities as [|e l]; [lia|].
    destruct (resolve_fold_length (sort_by_start (e :: l)) []) as [H _].
    rewrite sort_by_start_length in H. simpl in *. lia.
  - split; [|intros ->; reflexivity].
    unfold _removeDuplicatesAndOverlaps. destruct entities as [|e l]; [auto|].
    intro H. exfalso.
    destruct (resolve_fold_length (sort_by_start (e :: l)) []) as [_ H2].
    apply H2; [|assumption]. right. intro Hs.
    apply (f_equal (@List.length _)) in Hs.
    rewrite sort_by_start_length in Hs. discriminate.
Qed.

End GeneratorFacts.

(* ================================================================== *)
(** * The engine *)
(* ================================================================== *)

Module EngineFacts.
Import Engine.

(** [not text or not text.strip()] *)
Definition is_blank (text : str) : bool :=
  negb (truthy text) || negb (truthy (strip text)).

Lemma extractEntities_list self self' text :
  fst (extractEntities self text) = fst (extractEntities self' text).
Proof.
  unfold extractEntities, extractEntities_around.
  destruct (negb (truthy text) || negb (truthy (strip text)));
    [reflexivity|].
  destruct (extract_body text); reflexivity.
Qed.

Lemma extractEntities_count self text :
  _extractionCount (snd (extractEntities self text))
  = _extractionCount self + 1.
Proof.
  unfold extractEntities, extractEntities_around.
  destruct (negb (truthy text) || negb (truthy (strip text)));
    [reflexivity|].
  destruct (extract_body text); reflexivity.
Qed.

Lemma extractInformation_unfold current_year extractor text :
  extractInformation current_year extractor text
  = if is_blank text
    then (_createErrorResult "Input text cannot be empty", extractor)
    else
      (_finalizeResult
         (_processInformation current_year
            (fst (extractEntities extractor (_preprocessText text))) text),
       snd (extractEntities extractor (_preprocessText text))).
Proof.
  unfold extractInformation, is_blank, _extractEntities.
  destruct (negb (truthy text) || negb (truthy (strip text)));
    [reflexivity|].
  destruct (extractEntities extractor (_preprocessText text)); reflexivity.
Qed.

Lemma _processInformation_record current_year entities text :
  exists info,
    Processor.processExtractedEntities current_year entities text = Ok info
    /\ _processInformation current_year entities text = info
    /\ originalText_ info = text
    /\ extractedEntities info = entities.
Proof.
  destruct (ProvenanceFacts.postprocess_result
              (Processor.primary_pass current_year entities text) text)
    as (n & e & l & d & _ & _ & _ & _ & H).
  destruct (ProvenanceFacts.primary_pass_fields current_year entities text)
    as (_ & _ & _ & _ & Hents & Htext).
  unfold _processInformation, Processor.processExtractedEntities.
  destruct entities as [|x t].
  - eexists. repeat split.
  - rewrite H. eexists. split; [reflexivity|]. split; [reflexivity|].
    cbv zeta. cbn [originalText_ extractedEntities
                   Processor.set_overallConfidence].
    split; assumption.
Qed.

(** X13.  [extractInformation] reports an error for a blank text only:
    a blank text gives the error record with the one message "Input
    text cannot be empty" and does not reach the extractor; for every
    other text the result has no error message, its record keeps the
    original text (not the preprocessed one) and the entities that the
    extractor returned for the preprocessed text, and the extractor
    has counted one more run. *)
Theorem extractInformation_errors (current_year : Z)
    (extractor : ExtractorState) (text : str) :
  (is_blank text = true ->
   extractInformation current_year extractor text
   = (mkResult (EventRegistrationInfo_ []) ["Input text cannot be empty"%string]
        ["Extraction process encountered errors"%string], extractor))
  /\ (is_blank text = false ->
      let r := extractInformation current_year extractor text in
      errorMessages (fst r) = []
      /\ originalText_ (registrationInfo (fst r)) = text
      /\ extractedEntities (registrationInfo (fst r))
         = fst (extractEntities extractor (_preprocessText text))
      /\ _extractionCount (snd r) = _extractionCount extractor + 1).
Proof.
  rewrite extractInformation_unfold. split; intro Hb; rewrite Hb.
  - reflexivity.
  - cbv zeta. cbn [fst snd].
    destruct (_processInformation_record current_year
                (fst (extractEntities extractor (_preprocessText text))) text)
      as (info & _ & -> & Htext & Hents).
    unfold _finalizeResult. cbn [errorMessages registrationInfo].
    rewrite extractEntities_count. repeat split; assumption.
Qed.

(** A text of spaces. *)
Lemma extractInformation_errors_witness :
  errorMessages
    (fst (extractInformation 2025 (mkExtractor None 0 0) (L "   ")))
  = ["Input text cannot be empty"%string].
Proof.
  rewrite (proj1 (extractInformation_errors 2025 (mkExtractor None 0 0)
                    (L "   ")) eq_refl).
  reflexivity.
Defined.

(** ** Warnings and success *)

Lemma getCompletionPercentage_values info :
  In (getCompletionPercentage info) [0; 25; 50; 75; 100].
Proof.
  unfold getCompletionPercentage.
  destruct (field_filled (participantName info)),
           (field_filled (eventName info)),
           (field_filled (location info)),
           (field_filled (date info)); simpl; tauto.
Qed.

(** X14.  A finalized result has no error message.  It carries the
    "Extraction incomplete" warning exactly when a field is missing and
    the accuracy warning exactly when [validateExtractedInfo] rejects
    the record, and it counts as successful as soon as one field is
    filled, whether or not the record passed the validation. *)
Theorem _finalizeResult_warnings (info : EventRegistrationInfo) :
  errorMessages (_finalizeResult info) = []
  /\ registrationInfo (_finalizeResult info) = info
  /\ warnings (_finalizeResult info)
     = (if Records.isComplete info then []
        else [("Extraction incomplete: "
               ++ string_of_list_ascii
                    (str_of_int (getCompletionPercentage info))
               ++ ".0% complete")%string])
       ++ (if Processor.validateExtractedInfo info then []
           else ["Some extracted information may not be accurate"%string])
  /\ Records.isSuccessful (_finalizeResult info)
     = negb (getCompletionPercentage info =? 0).
Proof.
  unfold _finalizeResult, Records.isSuccessful.
  cbn [errorMessages registrationInfo warnings enableValidation pipelineConfig].
  split; [reflexivity|]. split; [reflexivity|]. split.
  - pose proof (RecordFacts.isComplete_full info) as Hc.
    pose proof (getCompletionPercentage_values info) as Hv.
    destruct (Records.isComplete info) eqn:Ec.
    + rewrite (proj1 Hc eq_refl). simpl.
      destruct (Processor.validateExtractedInfo info); reflexivity.
    + assert (Hlt : (getCompletionPercentage info <? 80) = true).
      { apply Z.ltb_lt. simpl in Hv.
        destruct Hv as [H|[H|[H|[H|[H|[]]]]]];
          first [lia | symmetry in H; apply (proj2 Hc) in H; congruence]. }
      rewrite Hlt.
      destruct (Processor.validateExtractedInfo info); reflexivity.
  - simpl. pose proof (getCompletionPercentage_values info) as Hv.
    simpl in Hv.
    destruct Hv as [H|[H|[H|[H|[H|[]]]]]]; rewrite <- H; reflexivity.
Qed.

(** ** A text without entities *)

(** X15.  When the extractor finds no entity in the preprocessed text,
    the fallback patterns are not tried: the result is the blank record
    for the original text with confidence UNKNOWN, and it carries both
    warnings. *)
Theorem extractInformation_no_entities (current_year : Z)
    (extractor : ExtractorState) (text : str) :
  is_blank text = false ->
  fst (extractEntities extractor (_preprocessText text)) = [] ->
  fst (extractInformation current_year extractor text)
  = mkResult (EventRegistrationInfo_ text) []
      ["Extraction incomplete: 0.0% complete"%string;
       "Some extracted information may not be accurate"%string].
Proof.
  intros Hb He. rewrite extractInformation_unfold, Hb. cbn [fst].
  rewrite He. reflexivity.
Qed.

Definition name_line : str := L "Name: John Smith".

(** The fallback pattern for names would find "John Smith" in this
    line, but the extractor finds no entity in it and the record stays
    blank. *)
Lemma extractInformation_no_entities_witness :
  Processor._extractNameFallback name_line = Ok (Some (L "John Smith"))
  /\ fst (extractInformation 2025 (mkExtractor None 0 0) name_line)
     = mkResult (EventRegistrationInfo_ name_line) []
         ["Extraction incomplete: 0.0% complete"%string;
          "Some extracted information may not be accurate"%string].
Proof.
  split; [vm_compute; reflexivity|].
  apply extractInformation_no_entities; vm_compute; reflexivity.
Defined.

(** ** Batches *)

Lemma extractInformation_result current_year extractor extractor' text :
  fst (extractInformation current_year extractor text)
  = fst (extractInformation current_year extractor' text).
Proof.
  rewrite !extractInformation_unfold.
  destruct (is_blank text); [reflexivity|]. cbn [fst].
  rewrite (extractEntities_list extractor extractor'). reflexivity.
Qed.

Lemma extractInformation_count current_year extractor text :
  _extractionCount (snd (extractInformation current_year extractor text))
  = _extractionCount extractor + (if is_blank text then 0 else 1).
Proof.
  rewrite extractInformation_unfold.
  destruct (is_blank text); cbn [snd]; [lia|].
  apply extractEntities_count.
Qed.

(** X16.  A batch gives, for each text and in order, the result that
    [extractInformation] gives for that text alone, whatever was
    processed before; and the extractor has counted one run for each
    text of the batch that is not blank. *)
Theorem batchExtractInformation_each (current_year : Z)
    (extractor : ExtractorState) (texts : list str) :
  fst (Batch.batchExtractInformation current_year extractor texts)
  = map (fun text => fst (extractInformation current_year extractor text))
      texts
  /\ _extractionCount
       (snd (Batch.batchExtractInformation current_year extractor texts))
     = _extractionCount extractor
       + Z.of_nat (List.length (filter (fun t => negb (is_blank t)) texts)).
Proof.
  revert extractor. induction texts as [|text t IH]; intro extractor.
  - simpl. split; [reflexivity | lia].
  - cbn [Batch.batchExtractInformation].
    pose proof (extractInformation_count current_year extractor text) as Hc.
    pose proof (extractInformation_result current_year extractor) as Hr.
    destruct (extractInformation current_year extractor text) as [r ex] eqn:E.
    destruct (IH ex) as [H1 H2].
    destruct (Batch.batchExtractInformation current_year ex t) as [rs ex'].
    cbn [fst snd map filter] in *. split.
    + rewrite H1. f_equal; [rewrite E; reflexivity|].
      apply map_ext. intro a. apply extractInformation_result.
    + rewrite H2, Hc. destruct (is_blank text); simpl negb; cbv iota;
        [|simpl List.length; rewrite Nat2Z.inj_succ]; lia.
Qed.

End EngineFacts.

(* ================================================================== *)
(** * The preprocessor *)
(* ================================================================== *)

Module PreprocessFacts.
Import StrFacts ClassSubFacts Preprocessor.

Local Arguments is_space : simpl never.

(** ** Trailing whitespace, read from the left *)

Definition is_nil {A : Type} (s : list A) : bool :=
  match s with [] => true | _ => false end.

Fixpoint rstrip' (s : str) : str :=
  match s with
  | [] => []
  | c :: t =>
      if is_space c && is_nil (rstrip' t) then [] else c :: rstrip' t
  end.

Lemma lstrip_snoc a c :
  lstrip (a ++ [c])
  = match lstrip a with
    | [] => if is_space c then [] else [c]
    | _ => lstrip a ++ [c]
    end.
Proof.
  induction a as [|x a IH]; simpl; [destruct (is_space c); reflexivity|].
  destruct (is_space x); [exact IH | reflexivity].
Qed.

Lemma is_nil_rev (l : str) : is_nil (rev l) = is_nil l.
Proof. destruct l as [|x l]; [reflexivity|]. simpl. destruct (rev l); reflexivity. Qed.

Lemma rstrip_spec s : rstrip s = rstrip' s.
Proof.
  unfold rstrip. induction s as [|c t IH]; [reflexivity|].
  cbn [rev rstrip']. rewrite lstrip_snoc, <- IH, is_nil_rev.
  destruct (lstrip (rev t)) as [|y l] eqn:E.
  - cbn [is_nil rev]. rewrite andb_true_r. destruct (is_space c); reflexivity.
  - cbn [is_nil]. rewrite andb_false_r, rev_app_distr. reflexivity.
Qed.

(** ** Runs of whitespace become one space *)

Definition squeeze_from := squash_from is_space (L " ").
Definition squeeze := squash is_space (L " ").

Lemma lstrip_squeeze b s : lstrip (squeeze_from b s) = squeeze_from true s.
Proof.
  unfold squeeze_from. revert b. induction s as [|c t IH]; intro b;
    [reflexivity|].
  simpl. destruct (is_space c) eqn:Ec.
  - destruct b; [apply IH|]. simpl.
    change (is_space " ") with true. cbv iota. apply IH.
  - simpl. rewrite Ec. reflexivity.
Qed.

Lemma join_nil_iff ws :
  Forall wordlike ws -> is_nil (join (L " ") ws) = is_nil ws.
Proof.
  intro H. destruct ws as [|w t]; [reflexivity|].
  inversion H as [|? ? [Hw _] _]; subst.
  pose proof (@join_words_nonempty (L " ") w t Hw) as Hne.
  remember (join (L " ") (w :: t)) as j eqn:Ej.
  destruct j; [exfalso; apply Hne; symmetry; exact Ej | reflexivity].
Qed.

Lemma squeeze_words s :
  rstrip' (squeeze_from true s) = join (L " ") (split_aux s [])
  /\ forall acc, acc <> [] ->
       join (L " ") (split_aux s acc)
       = rev acc ++ rstrip' (squeeze_from false s).
Proof.
  unfold squeeze_from. induction s as [|c t [IH1 IH2]].
  - split; [reflexivity|]. intros acc Hacc. cbn [split_aux squash_from rstrip'].
    destruct acc; [congruence|]. cbn [join]. rewrite app_nil_r. reflexivity.
  - split.
    + cbn [split_aux squash_from]. destruct (is_space c) eqn:Ec; [exact IH1|].
      cbn [rstrip']. rewrite Ec. cbn [andb].
      rewrite (IH2 [c]) by discriminate. reflexivity.
    + intros acc Hacc. cbn [split_aux squash_from].
      destruct (is_space c) eqn:Ec.
      * destruct acc as [|a acc']; [congruence|].
        change (L " " ++ squash_from is_space (L " ") true t)
          with (" "%char :: squash_from is_space (L " ") true t).
        cbn [rstrip']. change (is_space " ") with true.
        rewrite IH1. cbn [andb].
        rewrite (join_nil_iff (split_aux_words t (Forall_nil _))).
        destruct (split_aux t []) as [|w ws].
        -- cbn [is_nil join]. rewrite app_nil_r. reflexivity.
        -- cbn [is_nil]. rewrite join_cons. reflexivity.
      * rewrite (IH2 (c :: acc)) by discriminate.
        cbn [rstrip' rev]. rewrite Ec. cbn [andb].
        rewrite <- app_assoc. reflexivity.
Qed.

Lemma strip_squeeze s : strip (squeeze s) = join (L " ") (split s).
Proof.
  unfold strip, squeeze, squash.
  change (squash_from is_space (L " ") false s) with (squeeze_from false s).
  rewrite lstrip_squeeze, rstrip_spec. apply squeeze_words.
Qed.

Lemma squash_from_ext f g tpl : (forall c, f c = g c) ->
  forall s b, squash_from f tpl b s = squash_from g tpl b s.
Proof.
  intros H. induction s as [|c t IH]; intro b; simpl; [reflexivity|].
  rewrite H, !IH. reflexivity.
Qed.

Lemma whitespace_class c : cls_match false false [CSpace] c = is_space c.
Proof.
  unfold cls_match, set_has. simpl. destruct (is_space c); reflexivity.
Qed.

(** [re.sub(r'\s+', ' ', s).strip()] is [' '.join(s.split())]. *)
Lemma sub_whitespace s :
  strip (sub false (compile (L "\s+")) (L " ") s) = join (L " ") (split s).
Proof.
  change (compile (L "\s+")) with (Rep 1 None true (Cls false [CSpace])).
  rewrite (@sub_cls_plus false false [CSpace] (L " ") s eq_refl).
  unfold squash. rewrite (@squash_from_ext _ _ (L " ") whitespace_class).
  apply strip_squeeze.
Qed.

(** Single spaces between the words and none at the ends. *)
Definition single_spaced (s : str) : Prop := join (L " ") (split s) = s.

Lemma join_split_single_spaced s : single_spaced (join (L " ") (split s)).
Proof.
  unfold single_spaced. rewrite split_join by apply split_words.
  reflexivity.
Qed.

Lemma sub_whitespace_single_spaced s :
  single_spaced (strip (sub false (compile (L "\s+")) (L " ") s)).
Proof. rewrite sub_whitespace. apply join_split_single_spaced. Qed.

Lemma strip_single_spaced s : single_spaced s -> strip s = s.
Proof.
  unfold single_spaced. intro H. rewrite <- H.
  apply strip_trimmed, join_words_trimmed, split_words.
Qed.

Lemma nil_single_spaced : single_spaced [].
Proof. reflexivity. Qed.

Lemma cleanText_single_spaced text : single_spaced (cleanText text).
Proof.
  unfold cleanText. destruct (negb (truthy text)); [apply nil_single_spaced|].
  apply sub_whitespace_single_spaced.
Qed.

Lemma normalizeText_single_spaced text : single_spaced (normalizeText text).
Proof.
  unfold normalizeText.
  destruct (negb (truthy text)); [apply nil_single_spaced|].
  apply sub_whitespace_single_spaced.
Qed.

Lemma _standardizeFormatting_single_spaced text :
  single_spaced (_standardizeFormatting text).
Proof. apply sub_whitespace_single_spaced. Qed.

(** ** [preprocessText] *)

Lemma preprocessText_cases text :
  preprocessText text
  = if (len (strip text) <? 10) || (len (strip text) >? 10000)
    then preprocessText text
    else Ok (_standardizeFormatting
               (_fixCommonErrors
                  (_enhanceKeywordContext
                     (normalizeText (cleanText (strip text)))))).
Proof.
  destruct ((len (strip text) <? 10) || (len (strip text) >? 10000)) eqn:E;
    [reflexivity|].
  apply orb_false_iff in E. destruct E as [E1 E2].
  unfold preprocessText. cbn [minTextLength maxTextLength config].
  rewrite E1, E2.
  destruct text as [|c t]; [discriminate|]. cbn [truthy negb].
  f_equal. apply strip_single_spaced.
  apply _standardizeFormatting_single_spaced.
Qed.

Lemma preprocessText_short_or_long text :
  len (strip text) < 10 \/ 10000 < len (strip text) ->
  exists msg, preprocessText text = inl (ValueError msg).
Proof.
  intro H. unfold preprocessText. cbn [minTextLength maxTextLength config].
  destruct (negb (truthy text)); [eexists; reflexivity|].
  destruct (len (strip text) <? 10) eqn:E1; [eexists; reflexivity|].
  destruct (len (strip text) >? 10000) eqn:E2; [eexists; reflexivity|].
  apply Z.ltb_ge in E1. rewrite Z.gtb_ltb in E2. apply Z.ltb_ge in E2.
  lia.
Qed.

Lemma preprocessText_in_range text :
  10 <= len (strip text) <= 10000 ->
  exists out, preprocessText text = Ok out /\ single_spaced out.
Proof.
  intro H. rewrite preprocessText_cases.
  replace ((len (strip text) <? 10) || (len (strip text) >? 10000))
    with false.
  - eexists. split; [reflexivity|].
    apply _standardizeFormatting_single_spaced.
  - symmetry. apply orb_false_iff. rewrite Z.gtb_ltb.
    split; apply Z.ltb_ge; lia.
Qed.

(** X18.  [preprocessText] raises exactly when the stripped text has
    fewer than 10 or more than 10000 characters, always with a
    [ValueError]; the engine then goes on with the text as it was
    given.  Otherwise it returns a text in which the words are
    separated by single spaces, with no whitespace at either end. *)
Theorem preprocessText_raises_iff (text : str) :
  ((exists e, preprocessText text = inl e)
   <-> (len (strip text) < 10 \/ 10000 < len (strip text)))
  /\ (forall e, preprocessText text = inl e ->
        (exists msg, e = ValueError msg)
        /\ Engine._preprocessText text = text)
  /\ (forall out, preprocessText text = Ok out ->
        single_spaced out /\ Engine._preprocessText text = out).
Proof.
  destruct (Z_lt_dec (len (strip text)) 10) as [H1 | H1];
    [|destruct (Z_lt_dec 10000 (len (strip text))) as [H2 | H2]].
  - destruct (preprocessText_short_or_long text (or_introl H1)) as [msg Hm].
    unfold Engine._preprocessText. cbn [Engine.enablePreprocessing
      Engine.pipelineConfig negb]. rewrite Hm.
    split; [split; [intros _; left; assumption | intros _; eexists; reflexivity]|].
    split; [|intros out H; discriminate].
    intros e H; inversion H; subst. split; [eexists|]; reflexivity.
  - destruct (preprocessText_short_or_long text (or_intror H2)) as [msg Hm].
    unfold Engine._preprocessText. cbn [Engine.enablePreprocessing
      Engine.pipelineConfig negb]. rewrite Hm.
    split; [split; [intros _; right; assumption | intros _; eexists; reflexivity]|].
    split; [|intros out H; discriminate].
    intros e H; inversion H; subst. split; [eexists|]; reflexivity.
  - destruct (@preprocessText_in_range text) as (out & Ho & Hs); [lia|].
    unfold Engine._preprocessText. cbn [Engine.enablePreprocessing
      Engine.pipelineConfig negb]. rewrite Ho.
    split; [split; [intros [e H]; discriminate | intro H; lia]|].
    split; [intros e H; discriminate|].
    intros out' H; inversion H; subst. split; [assumption | reflexivity].
Qed.

(** Nine characters are too few. *)
Lemma preprocessText_raises_iff_witness :
  exists e, preprocessText (L "  Hi Bob! ") = inl e.
Proof.
  apply (proj2 (proj1 (preprocessText_raises_iff (L "  Hi Bob! ")))).
  left. vm_compute. reflexivity.
Defined.

(** X19.  [cleanText], [normalizeText] and [_standardizeFormatting]
    return, for every text, a text in which the words are separated by
    single spaces with no whitespace at either end (the value of
    [' '.join(s.split())] for their result [s] is [s] itself); for the
    empty text [cleanText] and [normalizeText] return the empty text. *)
Theorem preprocessing_single_spaced (text : str) :
  single_spaced (cleanText text)
  /\ single_spaced (normalizeText text)
  /\ single_spaced (_standardizeFormatting text)
  /\ cleanText [] = [] /\ normalizeText [] = [].
Proof.
  split; [apply cleanText_single_spaced|].
  split; [apply normalizeText_single_spaced|].
  split; [apply _standardizeFormatting_single_spaced|].
  split; reflexivity.
Qed.

End PreprocessFacts.

(* ================================================================== *)
(** * [removeNoise] and the processing history *)
(* ================================================================== *)

Module NoiseFacts.
Import StrFacts ClassSubFacts Noise.

Definition punctuation : str := L ".,!?;:()-".

(** The characters that [removeNoise] keeps. *)
Definition allowed (c : ascii) : bool :=
  is_alpha c || is_digit c || is_space c || has_char c punctuation.

Definition noise_items : list citem :=
  [CRange "a" "z"; CRange "A" "Z"; CRange "0" "9"; CSpace;
   CRange "." "."; CRange "," ","; CRange "!" "!"; CRange "?" "?";
   CRange ";" ";"; CRange ":" ":"; CRange "(" "("; CRange ")" ")";
   CRange "-" "-"].

Lemma noise_class : noise = Cls true noise_items.
Proof. vm_compute. reflexivity. Qed.

Lemma noise_allowed c : negb (cls_match false true noise_items c) = allowed c.
Proof. destruct c as [[] [] [] [] [] [] [] []]; reflexivity. Qed.

Lemma removeNoise_filter text : removeNoise text = strip (filter allowed text).
Proof.
  unfold removeNoise. rewrite noise_class.
  rewrite (@sub_cls false true noise_items text).
  f_equal. apply filter_ext. exact noise_allowed.
Qed.

Lemma strip_Forall (P : ascii -> Prop) s : Forall P s -> Forall P (strip s).
Proof.
  intro H. destruct (strip_split s) as (sp1 & sp2 & Hs & _).
  rewrite Hs in H. apply Forall_app in H. destruct H as [_ H].
  apply Forall_app in H. destruct H as [H _]. exact H.
Qed.

Lemma filter_Forall {A : Type} (f : A -> bool) l :
  Forall (fun x => f x = true) (filter f l).
Proof.
  apply Forall_forall. intros x Hx. apply filter_In in Hx. apply Hx.
Qed.

Lemma filter_all {A : Type} (f : A -> bool) l :
  Forall (fun x => f x = true) l -> filter f l = l.
Proof.
  induction 1 as [|x l Hx _ IH]; [reflexivity|].
  simpl. rewrite Hx, IH. reflexivity.
Qed.

Lemma strip_strip s : strip (strip s) = strip s.
Proof. apply strip_trimmed, DateFacts.strip_is_trimmed. Qed.

(** X20.  [removeNoise] deletes every character that is not a letter, a
    digit, whitespace or one of [.,!?;:()-], keeps the others in order
    and strips the ends; it is idempotent, and on a text of allowed
    characters it is [str.strip]. *)
Theorem removeNoise_keeps_allowed (text : str) :
  removeNoise text = strip (filter allowed text)
  /\ Forall (fun c => allowed c = true) (removeNoise text)
  /\ removeNoise (removeNoise text) = removeNoise text
  /\ (forallb allowed text = true -> removeNoise text = strip text).
Proof.
  split; [apply removeNoise_filter|].
  assert (H : Forall (fun c => allowed c = true) (removeNoise text)).
  { rewrite removeNoise_filter. apply strip_Forall, filter_Forall. }
  split; [exact H|]. split.
  - rewrite (removeNoise_filter (removeNoise text)).
    rewrite (filter_all _ H).
    rewrite removeNoise_filter. apply strip_strip.
  - intro Ha. rewrite removeNoise_filter. f_equal. apply filter_all.
    apply Forall_forall. intros c Hc.
    apply (proj1 (forallb_forall allowed text) Ha c Hc).
Qed.

End NoiseFacts.

Module HistoryFacts.
Import Batch.

(** The record that [_updateMetrics] appends for a result. *)
Definition history_record (result : Engine.ExtractionResult) : HistoryRecord :=
  let info := Engine.registrationInfo result in
  mkHistory (Engine.getCompletionPercentage info)
    (confidence_value (overallConfidence info))
    (Records.isSuccessful result)
    (Z.of_nat (List.length (extractedEntities info))).

Lemma last_100_short {A : Type} (l : list A) :
  (List.length l <= 100)%nat -> last_100 l = l.
Proof.
  intro H. unfold last_100.
  replace (List.length l - 100)%nat with 0%nat by lia. reflexivity.
Qed.

Lemma last_100_length {A : Type} (l : list A) :
  List.length (last_100 l) = Nat.min 100 (List.length l).
Proof. unfold last_100. rewrite length_skipn. lia. Qed.

Lemma last_100_app {A : Type} (l m : list A) :
  last_100 (last_100 l ++ m) = last_100 (l ++ m).
Proof.
  destruct (Nat.le_gt_cases (List.length l) 100) as [H | H].
  - rewrite (last_100_short l H). reflexivity.
  - unfold last_100. rewrite !length_app, length_skipn.
    remember (List.length l - 100)%nat as n eqn:En.
    assert (Hd : List.length (firstn n l) = n)
      by (rewrite length_firstn; lia).
    replace (l ++ m) with (firstn n l ++ (skipn n l ++ m))
      by (rewrite app_assoc, firstn_skipn; reflexivity).
    replace (List.length l - n + List.length m - 100)%nat
      with (List.length m) by lia.
    rewrite (skipn_app (List.length l + List.length m - 100)).
    rewrite (skipn_all2 (firstn n l)) by lia.
    cbn [app]. f_equal. lia.
Qed.

Lemma _updateMetrics_history self result :
  processingHistory (_updateMetrics self result)
  = last_100 (processingHistory self ++ [history_record result]).
Proof.
  unfold _updateMetrics, history_record. cbv zeta. cbn [processingHistory].
  destruct (extractedEntities (Engine.registrationInfo result)) as [|e l0];
    (match goal with
     | |- (if ?b then _ else _) = _ => destruct b eqn:E
     end;
     [reflexivity|];
     apply Nat.ltb_ge in E; symmetry; apply last_100_short; exact E).
Qed.

Lemma _updateMetrics_fold results : forall self,
  (List.length (processingHistory self) <= 100)%nat ->
  let final := fold_left _updateMetrics results self in
  processingHistory final
  = last_100 (processingHistory self ++ map history_record results)
  /\ metrics final = fold_left Records.updateMetrics results (metrics self).
Proof.
  induction results as [|r rs IH]; intros self Hlen; cbn [fold_left map].
  - rewrite app_nil_r, (last_100_short _ Hlen). split; reflexivity.
  - destruct (IH (_updateMetrics self r)) as [H1 H2].
    { rewrite _updateMetrics_history, last_100_length. lia. }
    cbv zeta in *.
    rewrite H1, H2, _updateMetrics_history, last_100_app, <- app_assoc.
    split; reflexivity.
Qed.

(** X21.  After any sequence of results has been recorded by a fresh
    engine, [processingHistory] holds the records of the last 100
    results (of all of them when there are fewer), oldest first, while
    [metrics] has counted every result. *)
Theorem processingHistory_last_100 (results : list Engine.ExtractionResult) :
  let final := fold_left _updateMetrics results _initializeMetrics in
  processingHistory final = last_100 (map history_record results)
  /\ List.length (processingHistory final)
     = Nat.min 100 (List.length results)
  /\ Records.totalProcessed (metrics final)
     = Z.of_nat (List.length results).
Proof.
  destruct (@_updateMetrics_fold results _initializeMetrics) as [H1 H2];
    [simpl; lia|].
  cbv zeta in *. cbn [processingHistory metrics _initializeMetrics app] in *.
  rewrite H1, H2. split; [reflexivity|]. split.
  - rewrite last_100_length, length_map. reflexivity.
  - destruct (RecordFacts.updateMetrics_fold results
                Records.ProcessingMetrics_) as (H & _).
    cbv zeta in H. rewrite H. simpl. lia.
Qed.

End HistoryFacts.

(* ================================================================== *)
(** * The service and the template generator *)
(* ================================================================== *)

Module TemplateFacts.
Import Templates.

(** X22.  The status line and the CSS class of a record are decided by
    the number of missing fields alone: no field missing gives
    COMPLETE, one MOSTLY COMPLETE, two PARTIALLY COMPLETE, three
    INCOMPLETE and four EXTRACTION FAILED; the class is [complete] for
    no missing field, [partial] for one or two and [incomplete] for
    three or four. *)
Theorem status_of_missing_fields (info : EventRegistrationInfo) :
  _formatStatus info
  = nth (List.length (Records.getMissingFields info))
      [L "COMPLETE"; L "MOSTLY COMPLETE"; L "PARTIALLY COMPLETE";
       L "INCOMPLETE"; L "EXTRACTION FAILED"] []
  /\ _getStatusClass info
     = nth (List.length (Records.getMissingFields info))
         [L "complete"; L "partial"; L "partial";
          L "incomplete"; L "incomplete"] [].
Proof.
  unfold _formatStatus, _getStatusClass, Engine.getCompletionPercentage,
    Records.getMissingFields.
  rewrite !RecordFacts.field_missing_filled.
  destruct (Engine.field_filled (participantName info)),
           (Engine.field_filled (eventName info)),
           (Engine.field_filled (location info)),
           (Engine.field_filled (date info)); split; reflexivity.
Qed.

End TemplateFacts.

Module ServiceFacts.
Import Service.

(** ** [_escapeXml] *)

(** What [_escapeXml] writes for one character. *)
Definition entity (c : ascii) : str :=
  if ascii_eqb c "&" then L "&amp;"
  else if ascii_eqb c "<" then L "&lt;"
  else if ascii_eqb c ">" then L "&gt;"
  else if ascii_eqb c Processor.dq then L "&quot;"
  else if ascii_eqb c "'" then L "&apos;"
  else [c].

Definition replace_char (c : ascii) (new : str) (x : ascii) : str :=
  if ascii_eqb c x then new else [x].

Lemma replace_from_char c new s : forall fuel,
  (List.length s < fuel)%nat ->
  replace_from fuel [c] new s = flat_map (replace_char c new) s.
Proof.
  induction s as [|x t IH]; intros fuel Hf;
    (destruct fuel as [|k]; [simpl in Hf; lia|]); [reflexivity|].
  simpl in Hf. cbn [replace_from starts_with flat_map List.length skipn].
  unfold replace_char at 1. rewrite andb_true_r.
  destruct (ascii_eqb c x); rewrite IH by lia; reflexivity.
Qed.

Lemma replace_one_char c new s :
  replace [c] new s = flat_map (replace_char c new) s.
Proof. unfold replace. apply replace_from_char. lia. Qed.

Lemma entity_replaces c :
  flat_map (replace_char "'" (L "&apos;"))
    (flat_map (replace_char Processor.dq (L "&quot;"))
       (flat_map (replace_char ">" (L "&gt;"))
          (flat_map (replace_char "<" (L "&lt;"))
             (replace_char "&" (L "&amp;") c))))
  = entity c.
Proof. destruct c as [[] [] [] [] [] [] [] []]; reflexivity. Qed.

Lemma entities_replaced s :
  flat_map (replace_char "'" (L "&apos;"))
    (flat_map (replace_char Processor.dq (L "&quot;"))
       (flat_map (replace_char ">" (L "&gt;"))
          (flat_map (replace_char "<" (L "&lt;"))
             (flat_map (replace_char "&" (L "&amp;")) s))))
  = flat_map entity s.
Proof.
  induction s as [|c t IH]; [reflexivity|].
  cbn [flat_map]. rewrite !flat_map_app, IH, entity_replaces. reflexivity.
Qed.

Lemma _escapeXml_entities text : _escapeXml text = flat_map entity text.
Proof.
  unfold _escapeXml. destruct (negb (truthy text)) eqn:E.
  - destruct text; [reflexivity | discriminate].
  - change (L "'") with ["'"%char].
    change (L ">") with [">"%char]. change (L "<") with ["<"%char].
    change (L "&") with ["&"%char].
    rewrite !replace_one_char. apply entities_replaced.
Qed.

(** The characters that XML markup is made of. *)
Definition markup (c : ascii) : bool :=
  has_char c (L "<>'" ++ [Processor.dq]).

Lemma entity_no_markup c : forallb (fun x => negb (markup x)) (entity c) = true.
Proof. destruct c as [[] [] [] [] [] [] [] []]; reflexivity. Qed.

Lemma _escapeXml_no_markup text :
  forallb (fun x => negb (markup x)) (_escapeXml text) = true.
Proof.
  rewrite _escapeXml_entities. induction text as [|c t IH]; [reflexivity|].
  simpl flat_map. rewrite forallb_app, IH, entity_no_markup. reflexivity.
Qed.

(** Reading the entities back. *)
Fixpoint unescape (fuel : nat) (s : str) : str :=
  match fuel with
  | O => s
  | S k =>
      match s with
      | [] => []
      | c :: t =>
          if starts_with (L "&amp;") s then "&"%char :: unescape k (skipn 5 s)
          else if starts_with (L "&lt;") s
          then "<"%char :: unescape k (skipn 4 s)
          else if starts_with (L "&gt;") s
          then ">"%char :: unescape k (skipn 4 s)
          else if starts_with (L "&quot;") s
          then Processor.dq :: unescape k (skipn 6 s)
          else if starts_with (L "&apos;") s
          then "'"%char :: unescape k (skipn 6 s)
          else c :: unescape k t
      end
  end.

Lemma unescape_entity c rest k :
  unescape (S k) (entity c ++ rest) = c :: unescape k rest.
Proof. destruct c as [[] [] [] [] [] [] [] []]; reflexivity. Qed.

Lemma unescape_escape text : forall fuel,
  (List.length text <= fuel)%nat ->
  unescape fuel (flat_map entity text) = text.
Proof.
  induction text as [|c t IH]; intros fuel Hf.
  - destruct fuel; reflexivity.
  - destruct fuel as [|k]; [simpl in Hf; lia|].
    simpl in Hf. cbn [flat_map]. rewrite unescape_entity, IH by lia.
    reflexivity.
Qed.

Lemma entity_length c : (1 <= List.length (entity c))%nat.
Proof. destruct c as [[] [] [] [] [] [] [] []]; simpl; lia. Qed.

Lemma flat_map_entity_length text :
  (List.length text <= List.length (flat_map entity text))%nat.
Proof.
  induction text as [|c t IH]; [simpl; lia|].
  cbn [flat_map]. rewrite length_app. pose proof (entity_length c).
  simpl List.length at 1. lia.
Qed.

Lemma _escapeXml_injective a b : _escapeXml a = _escapeXml b -> a = b.
Proof.
  rewrite !_escapeXml_entities. intro H.
  set (n := Nat.max (List.length a) (List.length b)).
  rewrite <- (@unescape_escape a n), <- (@unescape_escape b n) by lia.
  rewrite H. reflexivity.
Qed.

(** X23.  [_escapeXml] writes each character on its own: [&], [<], [>],
    the double quote and the apostrophe become their five entities and
    every other character stays.  The result holds none of [<], [>],
    the double quote and the apostrophe, it is at least as long as the
    text, and no two texts are escaped to the same result. *)
Theorem _escapeXml_lossless (text : str) :
  _escapeXml text = flat_map entity text
  /\ forallb (fun x => negb (markup x)) (_escapeXml text) = true
  /\ len text <= len (_escapeXml text)
  /\ forall other, _escapeXml other = _escapeXml text -> other = text.
Proof.
  split; [apply _escapeXml_entities|].
  split; [apply _escapeXml_no_markup|]. split.
  - rewrite _escapeXml_entities. unfold len.
    apply inj_le, flat_map_entity_length.
  - intro other. apply _escapeXml_injective.
Qed.

(** ** [_validateInput] *)

Lemma _validateInput_length text :
  _validateInput text = true <-> 10 <= len (strip text).
Proof.
  unfold _validateInput. destruct text as [|c t]; cbn [truthy negb].
  - split; [discriminate | intro H; vm_compute in H; congruence].
  - destruct (strip (c :: t)) as [|c' t'] eqn:E; cbn [truthy negb].
    + split; [discriminate | intro H; vm_compute in H; congruence].
    + destruct (len (c' :: t') <? 10) eqn:El.
      * apply Z.ltb_lt in El. split; [discriminate | lia].
      * apply Z.ltb_ge in El. split; [intros _; exact El | reflexivity].
Qed.

Lemma long_not_blank text :
  10 <= len (strip text) -> EngineFacts.is_blank text = false.
Proof.
  intro H. unfold EngineFacts.is_blank.
  destruct text as [|c t]; [vm_compute in H; congruence|].
  destruct (strip (c :: t)); [vm_compute in H; congruence|]. reflexivity.
Qed.

(** X24.  The service accepts a text exactly when it has at least 10
    characters after stripping.  For an accepted text the engine never
    answers with an error record, and the preprocessor raises only for
    a text of more than 10000 characters. *)
Theorem _validateInput_engine (current_year : Z) (extractor : ExtractorState)
    (text : str) :
  _validateInput text = true ->
  10 <= len (strip text)
  /\ Engine.errorMessages
       (fst (Engine.extractInformation current_year extractor text)) = []
  /\ ((exists e, Preprocessor.preprocessText text = inl e)
      <-> 10000 < len (strip text)).
Proof.
  intro Hv. apply _validateInput_length in Hv. split; [exact Hv|]. split.
  - rewrite EngineFacts.extractInformation_unfold, (long_not_blank _ Hv).
    reflexivity.
  - split.
    + intros [e He].
      destruct (Z_le_dec (len (strip text)) 10000) as [Hle | Hgt]; [|lia].
      destruct (@PreprocessFacts.preprocessText_in_range text)
        as (out & Ho & _); [lia|].
      rewrite Ho in He. discriminate.
    + intro Hl.
      destruct (@PreprocessFacts.preprocessText_short_or_long text
                  (or_intror Hl)) as [msg Hm].
      eexists. exact Hm.
Qed.

Definition ten_characters : str := L " Ann at Rio ".

Lemma _validateInput_engine_witness :
  Engine.errorMessages
    (fst (Engine.extractInformation 2025 (mkExtractor None 0 0)
            ten_characters)) = [].
Proof.
  apply (_validateInput_engine 2025 (mkExtractor None 0 0) ten_characters).
  vm_compute. reflexivity.
Defined.

(** ** [_cacheResult] *)

Section CacheFacts.
Variable V : Type.

Lemma cache_set_length key (v : V) d :
  (List.length (cache_set key v d) <= S (List.length d))%nat.
Proof.
  induction d as [|[k' v'] t IH]; simpl; [lia|].
  destruct (str_eqb k' key); simpl; lia.
Qed.

Lemma cache_get_set_same key (v : V) d :
  cache_get key (cache_set key v d) = Some v.
Proof.
  induction d as [|[k' v'] t IH]; simpl.
  - rewrite (proj2 (ResolverFacts.str_eqb_eq key key) eq_refl). reflexivity.
  - destruct (str_eqb k' key) eqn:E; simpl; rewrite E; [reflexivity|exact IH].
Qed.

Lemma cache_get_set_other key k (v : V) d :
  k <> key -> cache_get k (cache_set key v d) = cache_get k d.
Proof.
  intro Hk. induction d as [|[k' v'] t IH]; simpl.
  - destruct (str_eqb key k) eqn:E; [|reflexivity].
    apply ResolverFacts.str_eqb_eq in E. congruence.
  - destruct (str_eqb k' key) eqn:E; simpl.
    + apply ResolverFacts.str_eqb_eq in E. subst k'.
      destruct (str_eqb key k) eqn:E'; [|reflexivity].
      apply ResolverFacts.str_eqb_eq in E'. congruence.
    + rewrite IH. reflexivity.
Qed.

Lemma cache_set_keys key (v : V) d :
  map fst (cache_set key v d)
  = if existsb (str_eqb key) (map fst d) then map fst d
    else map fst d ++ [key].
Proof.
  induction d as [|[k' v'] t IH]; simpl; [reflexivity|].
  destruct (str_eqb k' key) eqn:E.
  - apply ResolverFacts.str_eqb_eq in E. subst k'.
    rewrite (proj2 (ResolverFacts.str_eqb_eq key key) eq_refl). reflexivity.
  - simpl. rewrite IH.
    destruct (str_eqb key k') eqn:E'.
    + apply ResolverFacts.str_eqb_eq in E'. subst k'.
      rewrite (proj2 (ResolverFacts.str_eqb_eq key key) eq_refl) in E.
      discriminate.
    + simpl. destruct (existsb (str_eqb key) (map fst t)); reflexivity.
Qed.

Lemma cache_set_NoDup key (v : V) d :
  NoDup (map fst d) -> NoDup (map fst (cache_set key v d)).
Proof.
  intro H. rewrite cache_set_keys.
  destruct (existsb (str_eqb key) (map fst d)) eqn:E; [exact H|].
  apply NoDup_app; [exact H | repeat constructor; intros [] |].
  intros x Hx [Hk | []]. subst x.
  assert (existsb (str_eqb key) (map fst d) = true); [|congruence].
  apply existsb_exists. exists key. split; [exact Hx|].
  apply ResolverFacts.str_eqb_eq. reflexivity.
Qed.

Lemma cache_get_oldest k k0 (v0 : V) t :
  NoDup (map fst ((k0, v0) :: t)) ->
  cache_get k t
  = if str_eqb k k0 then None else cache_get k ((k0, v0) :: t).
Proof.
  intro H. cbn [cache_get]. destruct (str_eqb k k0) eqn:E.
  - apply ResolverFacts.str_eqb_eq in E. subst k0.
    inversion H as [|? ? Hn _]; subst. clear H.
    induction t as [|[k2 v2] t IH]; [reflexivity|].
    simpl. destruct (str_eqb k2 k) eqn:E2.
    + apply ResolverFacts.str_eqb_eq in E2. subst k2.
      exfalso. apply Hn. left. reflexivity.
    + apply IH. intro Hin. apply Hn. right. exact Hin.
  - destruct (str_eqb k0 k) eqn:E'; [|reflexivity].
    apply ResolverFacts.str_eqb_eq in E'. subst k0.
    rewrite (proj2 (ResolverFacts.str_eqb_eq k k) eq_refl) in E.
    discriminate.
Qed.

(** The key that was set first. *)
Definition oldest (d : list (str * V)) : str := hd [] (map fst d).

(** X25.  On a cache with at most 50 entries, [_cacheResult] leaves at
    most 50 entries and the response is found under its key.  While
    the cache holds fewer than 50 entries every other key keeps its
    response; once it holds 50, the oldest entry is dropped (also when
    the key was cached already and no room was needed) and every other
    key keeps its response. *)
Theorem _cacheResult_bounded (resultCache : list (str * V)) (key : str)
    (response : V) :
  NoDup (map fst resultCache) ->
  (List.length resultCache <= 50)%nat ->
  let cache := _cacheResult resultCache key response in
  NoDup (map fst cache)
  /\ (List.length cache <= 50)%nat
  /\ cache_get key cache = Some response
  /\ forall k, k <> key ->
       cache_get k cache
       = if Nat.eqb (List.length resultCache) 50 && str_eqb k (oldest resultCache)
         then None else cache_get k resultCache.
Proof.
  intros Hkeys Hlen. unfold _cacheResult, cacheMaxSize, del_oldest. cbv zeta.
  destruct (Z.of_nat (List.length resultCache) >=? 50) eqn:E.
  - rewrite Z.geb_leb in E. apply Z.leb_le in E.
    assert (Hfull : List.length resultCache = 50%nat) by lia.
    destruct resultCache as [|[k0 v0] t]; [discriminate|].
    cbn [tl]. simpl in Hfull. split.
    { apply cache_set_NoDup. inversion Hkeys; assumption. }
    split.
    { pose proof (cache_set_length key response t). lia. }
    split; [apply cache_get_set_same|].
    intros k Hk. rewrite (cache_get_set_other response t Hk).
    rewrite (proj2 (Nat.eqb_eq (List.length ((k0, v0) :: t)) 50))
      by (simpl; lia).
    cbn [andb oldest map fst hd].
    apply cache_get_oldest. exact Hkeys.
  - rewrite Z.geb_leb in E. apply Z.leb_gt in E.
    split; [apply cache_set_NoDup; exact Hkeys|].
    split.
    { pose proof (cache_set_length key response resultCache). lia. }
    split; [apply cache_get_set_same|].
    intros k Hk. rewrite (cache_get_set_other response resultCache Hk).
    rewrite (proj2 (Nat.eqb_neq (List.length resultCache) 50)) by lia.
    reflexivity.
Qed.

End CacheFacts.

Lemma _cacheResult_bounded_witness :
  cache_get (L "k1") (_cacheResult [(L "k0", 0)] (L "k1") 1) = Some 1.
Proof.
  apply (@_cacheResult_bounded Z [(L "k0", 0)] (L "k1") 1).
  - repeat constructor. intros [].
  - simpl. lia.
Defined.

End ServiceFacts.

